(** * ABC (Asteroid Brightness in CUDA): the fit kernel of [cuda.c]

    A shallow embedding of the device code of [src/cuda.c] -- the forward
    model [chi2one], the parameter codec [params2x] / [x2params], and the
    downhill-simplex search and block reduction of [chi2_gpu] -- followed by
    the properties proved about it.

    Conventions of the embedding.
    - [double], [float], [CHI_FLOAT] and [OBS_TYPE] values are real numbers:
      the arithmetic of the kernel is read in exact real arithmetic, so
      rounding, NaN and infinities are outside the model.  Where the C code
      divides by zero (and so produces NaN or an infinity) the theorems carry
      the hypothesis that excludes it.
    - C arrays are total functions from the index; only the indices below the
      declared length are meaningful.
    - The kernel is built for the default configuration: no TORQUE, SEGMENT
      (so N_SEG = 1), NUDGE, INTERP, ROTATE, TREND, MIN_DV, LAST, BC, P_PHI,
      P_PSI, P_BOTH.  The brightness formula (default, BW_BALL, RECT) and
      MINIMA_TEST are kept as switches of the build.
    - Macros that [cuda.c] uses and that no file under [src/] defines are
      fields of the record [macros]. *)

From Stdlib Require Import Reals Lra Lia ZArith List Bool Arith.
Import ListNotations.
Local Open Scope R_scope.

(** ** Numbers, comparisons and library functions *)

(** The C comparisons [a < b], [a <= b], [a > b], [a >= b] on doubles. *)
Definition Rltb (a b : R) : bool := if Rlt_dec a b then true else false.
Definition Rleb (a b : R) : bool := if Rle_dec a b then true else false.
Definition Rgtb (a b : R) : bool := Rltb b a.
Definition Rgeb (a b : R) : bool := Rleb b a.

(** Conversion of a double to [int]: truncation toward zero. *)
Definition trunc (x : R) : Z :=
  if Rle_dec 0 x then Zfloor x else (- Zfloor (- x))%Z.

(** [floor] of math.h, as a double. *)
Definition floor (x : R) : R := IZR (Zfloor x).

(** [log10] of math.h. *)
Definition log10 (x : R) : R := ln x / ln 10.

(** [atan2] of math.h (C standard, 7.12.4.4), for finite arguments. *)
Definition atan2 (y x : R) : R :=
  if Rlt_dec 0 x then atan (y / x)
  else if Rlt_dec x 0 then
         (if Rle_dec 0 y then atan (y / x) + PI else atan (y / x) - PI)
  else if Rlt_dec 0 y then PI / 2
  else if Rlt_dec y 0 then - (PI / 2)
  else 0.

(** [#define PI 3.141592653589793238L] of asteroid.h: a decimal constant. *)
Definition PI_macro : R := 3.141592653589793238.

(** [const int N_PARAMS = 7] of asteroid.h. *)
Definition N_PARAMS : nat := 7.

(** Assignment [a[k] = v] to a C array. *)
Definition upd {A : Type} (a : nat -> A) (k : nat) (v : A) : nat -> A :=
  fun i => if Nat.eqb i k then v else a i.

(** ** Build configuration *)

(** Macros used by [cuda.c] whose definitions are not under [src/]. *)
Record macros : Type := {
  TIME_STEP : R;          (* largest RK4 step, days *)
  MAX_MINIMA : nat;       (* capacity of Vmin[] *)
  HUGE : R;               (* start value of the block reduction *)
  ALPHA_SIM : R;          (* reflection coefficient *)
  GAMMA_SIM : R;          (* expansion coefficient *)
  RHO_SIM : R;            (* contraction coefficient *)
  SIGMA_SIM : R;          (* shrink coefficient *)
  SIZE2_MIN : R;          (* convergence threshold on size2 *)
  N_STEPS : Z;            (* cap on the simplex step counter *)
  PERIODIC : Z;           (* values of the P_periodic column *)
  PERIODIC_LAM : Z;
  HARD_BOTH : Z;
  HARD_LEFT : Z;
  HARD_RIGHT : Z
}.

(** Switches of the build that the embedding keeps. *)
Record build : Type := {
  BW_BALL : bool;
  RECT : bool;
  MINIMA_TEST : bool
}.

(** The parameter types [T_*] that index [sLimits] and [sTypes]. *)
Inductive ptype : Type :=
| T_theta_M | T_phi_M | T_phi_0 | T_L | T_A
| T_Ti | T_Ts | T_Tl | T_T2i | T_T2s | T_T2l | T_Tt
| T_c_tumb | T_b_tumb | T_Es | T_psi_0
| T_c | T_b | T_theta_R | T_phi_R | T_psi_R | T_kappa.

Definition ptype_eqb (s t : ptype) : bool :=
  match s, t with
  | T_theta_M, T_theta_M | T_phi_M, T_phi_M | T_phi_0, T_phi_0 | T_L, T_L
  | T_A, T_A | T_Ti, T_Ti | T_Ts, T_Ts | T_Tl, T_Tl | T_T2i, T_T2i
  | T_T2s, T_T2s | T_T2l, T_T2l | T_Tt, T_Tt | T_c_tumb, T_c_tumb
  | T_b_tumb, T_b_tumb | T_Es, T_Es | T_psi_0, T_psi_0 | T_c, T_c | T_b, T_b
  | T_theta_R, T_theta_R | T_phi_R, T_phi_R | T_psi_R, T_psi_R
  | T_kappa, T_kappa => true
  | _, _ => false
  end.

(** One row of [sProperty]: the columns P_type, P_independent, P_frozen,
    P_iseg and P_periodic. *)
Record property : Type := {
  P_type : ptype;
  P_independent : Z;
  P_frozen : Z;
  P_iseg : nat;
  P_periodic : Z
}.

(** [struct obs_data] of asteroid.h. *)
Record obs_data : Type := {
  V : R; w : R;
  E_x : R; E_y : R; E_z : R;
  S_x : R; S_y : R; S_z : R;
  MJD : R;
  Filter : nat
}.

(** ** The rotation integrator *)

(** [ODE_func], torque-free form: [y] = (phi, theta, psi),
    [mu] = (L, Ip, Im). *)
Definition ODE_func (y mu : R * R * R) : R * R * R :=
  let '(y0, y1, y2) := y in
  let '(mu0, mu1, mu2) := mu in
  let f0 := mu0 * (mu1 - mu2 * cos (2.0 * y2)) in
  let f1 := mu0 * mu2 * sin y1 * sin (2.0 * y2) in
  let f2 := cos y1 * (mu0 - f0) in
  (f0, f1, f2).

(** One pass of the body of the RK4 loop (cuda.c 335-356). *)
Definition rk4_step (h : R) (mu y : R * R * R) : R * R * R :=
  let '(y0, y1, y2) := y in
  let '(k10, k11, k12) := ODE_func y mu in
  let '(k20, k21, k22) :=
    ODE_func (y0 + 0.5 * h * k10, y1 + 0.5 * h * k11, y2 + 0.5 * h * k12) mu in
  let '(k30, k31, k32) :=
    ODE_func (y0 + 0.5 * h * k20, y1 + 0.5 * h * k21, y2 + 0.5 * h * k22) mu in
  let '(k40, k41, k42) :=
    ODE_func (y0 + h * k30, y1 + h * k31, y2 + h * k32) mu in
  (y0 + 1 / 6.0 * h * (k10 + 2 * k20 + 2 * k30 + k40),
   y1 + 1 / 6.0 * h * (k11 + 2 * k21 + 2 * k31 + k41),
   y2 + 1 / 6.0 * h * (k12 + 2 * k22 + 2 * k32 + k42)).

(** [N_steps = (t2 - t1) / TIME_STEP + 1;] assigned to an [int]. *)
Definition N_steps_of (K : macros) (t1 t2 : R) : Z :=
  trunc ((t2 - t1) / TIME_STEP K + 1).

(** [h = (t2 - t1) / N_steps;] *)
Definition step_size (K : macros) (t1 t2 : R) : R :=
  (t2 - t1) / IZR (N_steps_of K t1 t2).

(** The RK4 loop from epoch [t1] to epoch [t2]: [N_steps] passes with
    step [h]; no pass when [N_steps <= 0]. *)
Definition integrate (K : macros) (t1 t2 : R) (mu y : R * R * R) : R * R * R :=
  Nat.iter (Z.to_nat (N_steps_of K t1 t2)) (rk4_step (step_size K t1 t2) mu) y.

(** ** Orientation geometry *)

(** The angular-momentum frame (cuda.c 191-205): the unit vector M from
    the angles theta_M, phi_M, then XM = [y x M] normalised (XM_y = 0) and
    YM = [M x XM]. *)
Record mframe : Type := {
  M_x : R; M_y : R; M_z : R;
  XM_x : R; XM_z : R;
  YM_x : R; YM_y : R; YM_z : R
}.

Definition momentum_frame (theta_M phi_M : R) : mframe :=
  let M_x := sin theta_M * cos phi_M in
  let M_y := sin theta_M * sin phi_M in
  let M_z := cos theta_M in
  let XM := sqrt (M_z * M_z + M_x * M_x) in
  let XM_x := M_z / XM in
  let XM_z := - M_x / XM in
  let YM_x := M_y * XM_z in
  let YM_y := M_z * XM_x - M_x * XM_z in
  let YM_z := - M_y * XM_x in
  {| M_x := M_x; M_y := M_y; M_z := M_z;
     XM_x := XM_x; XM_z := XM_z;
     YM_x := YM_x; YM_y := YM_y; YM_z := YM_z |}.

(** The three body axes a, b, c (cuda.c 390-431) from the frame and the
    Euler angles phi, theta, psi. *)
Record axes : Type := {
  a_x : R; a_y : R; a_z : R;
  b_x : R; b_y : R; b_z : R;
  c_x : R; c_y : R; c_z : R
}.

Definition body_axes (fr : mframe) (phi theta psi : R) : axes :=
  let cos_phi := cos phi in
  let sin_phi := sin phi in
  let N_x := XM_x fr * cos_phi + YM_x fr * sin_phi in
  let N_y :=                     YM_y fr * sin_phi in
  let N_z := XM_z fr * cos_phi + YM_z fr * sin_phi in
  let p_x := N_y * M_z fr - N_z * M_y fr in
  let p_y := N_z * M_x fr - N_x * M_z fr in
  let p_z := N_x * M_y fr - N_y * M_x fr in
  let cos_theta := cos theta in
  let sin_theta := sin theta in
  let a_x := M_x fr * cos_theta + p_x * sin_theta in
  let a_y := M_y fr * cos_theta + p_y * sin_theta in
  let a_z := M_z fr * cos_theta + p_z * sin_theta in
  let w_x := a_y * N_z - a_z * N_y in
  let w_y := a_z * N_x - a_x * N_z in
  let w_z := a_x * N_y - a_y * N_x in
  let sin_psi := sin psi in
  let cos_psi := cos psi in
  let b_x := N_x * cos_psi + w_x * sin_psi in
  let b_y := N_y * cos_psi + w_y * sin_psi in
  let b_z := N_z * cos_psi + w_z * sin_psi in
  let c_x := a_y * b_z - a_z * b_y in
  let c_y := a_z * b_x - a_x * b_z in
  let c_z := a_x * b_y - a_y * b_x in
  {| a_x := a_x; a_y := a_y; a_z := a_z;
     b_x := b_x; b_y := b_y; b_z := b_z;
     c_x := c_x; c_y := c_y; c_z := c_z |}.

(** ** Brightness *)

(** The default formula (cuda.c 607-630): triaxial ellipsoid of
    Muinonen & Lumme 2015, from the body-frame Sun and Earth vectors. *)
Definition Vmod_ellipsoid (Ep_x Ep_y Ep_z Sp_x Sp_y Sp_z b c : R) : R :=
  let scalar_Sun := sqrt (Sp_x * Sp_x / (b * b) + Sp_y * Sp_y / (c * c) + Sp_z * Sp_z) in
  let scalar_Earth := sqrt (Ep_x * Ep_x / (b * b) + Ep_y * Ep_y / (c * c) + Ep_z * Ep_z) in
  let cos_alpha_p :=
    (Sp_x * Ep_x / (b * b) + Sp_y * Ep_y / (c * c) + Sp_z * Ep_z)
    / (scalar_Sun * scalar_Earth) in
  let sin_alpha_p := sqrt (1.0 - cos_alpha_p * cos_alpha_p) in
  let alpha_p := atan2 sin_alpha_p cos_alpha_p in
  let scalar :=
    sqrt (scalar_Sun * scalar_Sun + scalar_Earth * scalar_Earth
          + 2 * scalar_Sun * scalar_Earth * cos_alpha_p) in
  let cos_lambda_p := (scalar_Sun + scalar_Earth * cos_alpha_p) / scalar in
  let sin_lambda_p := scalar_Earth * sin_alpha_p / scalar in
  let lambda_p := atan2 sin_lambda_p cos_lambda_p in
  -2.5 * log10 (b * c * scalar_Sun * scalar_Earth / scalar
                * (cos (lambda_p - alpha_p) + cos_lambda_p
                   + sin_lambda_p * sin (lambda_p - alpha_p)
                     * ln (1.0 / tan (0.5 * lambda_p)
                               / tan (0.5 * (alpha_p - lambda_p))))).

(** BW_BALL (cuda.c 546-548): two-albedo ball. *)
Definition Vmod_bw_ball (ax : axes) (Ep_x Ep_y Ep_z kappa : R) : R :=
  let cos_alpha := a_x ax * Ep_x + a_y ax * Ep_y + a_z ax * Ep_z in
  -2.5 * log10 (0.5 * (kappa * (1 + cos_alpha) + (1 - cos_alpha))).

(** RECT (cuda.c 558-602): projected area of a rectangular prism. *)
Definition Vmod_rect (ax : axes) (Ep_x Ep_y Ep_z b c : R) : R :=
  let b_x := b * b_x ax in
  let b_y := b * b_y ax in
  let b_z := b * b_z ax in
  let c_x := c * c_x ax in
  let c_y := c * c_y ax in
  let c_z := c * c_z ax in
  let ap_x := a_y ax * Ep_z - a_z ax * Ep_y in
  let ap_y := a_z ax * Ep_x - a_x ax * Ep_z in
  let ap_z := a_x ax * Ep_y - a_y ax * Ep_x in
  let bp_x := b_y * Ep_z - b_z * Ep_y in
  let bp_y := b_z * Ep_x - b_x * Ep_z in
  let bp_z := b_x * Ep_y - b_y * Ep_x in
  let cp_x := c_y * Ep_z - c_z * Ep_y in
  let cp_y := c_z * Ep_x - c_x * Ep_z in
  let cp_z := c_x * Ep_y - c_y * Ep_x in
  let ab_x := ap_y * bp_z - ap_z * bp_y in
  let ab_y := ap_z * bp_x - ap_x * bp_z in
  let ab_z := ap_x * bp_y - ap_y * bp_x in
  let ac_x := ap_y * cp_z - ap_z * cp_y in
  let ac_y := ap_z * cp_x - ap_x * cp_z in
  let ac_z := ap_x * cp_y - ap_y * cp_x in
  let bc_x := bp_y * cp_z - bp_z * cp_y in
  let bc_y := bp_z * cp_x - bp_x * cp_z in
  let bc_z := bp_x * cp_y - bp_y * cp_x in
  let ab := ab_x * ab_x + ab_y * ab_y + ab_z * ab_z in
  let ac := ac_x * ac_x + ac_y * ac_y + ac_z * ac_z in
  let bc := bc_x * bc_x + bc_y * bc_y + bc_z * bc_z in
  let ab := if Rltb ab 0.0 then 0.0 else ab in
  let bc := if Rltb bc 0.0 then 0.0 else bc in
  let ac := if Rltb ac 0.0 then 0.0 else ac in
  -2.5 * log10 (4 * (sqrt ab + sqrt bc + sqrt ac)).

(** The modelled magnitude of one observation (cuda.c 390-631) for the
    rotation state (phi, theta, psi): axes, projection of the Earth and
    Sun vectors on (b, c, a), then the formula the build selects. *)
Definition model_magnitude (B : build) (fr : mframe) (b c kappa : R)
    (y : R * R * R) (o : obs_data) : R :=
  let '(phi, theta, psi) := y in
  let ax := body_axes fr phi theta psi in
  let Ep_x := b_x ax * E_x o + b_y ax * E_y o + b_z ax * E_z o in
  let Ep_y := c_x ax * E_x o + c_y ax * E_y o + c_z ax * E_z o in
  let Ep_z := a_x ax * E_x o + a_y ax * E_y o + a_z ax * E_z o in
  let Sp_x := b_x ax * S_x o + b_y ax * S_y o + b_z ax * S_z o in
  let Sp_y := c_x ax * S_x o + c_y ax * S_y o + c_z ax * S_z o in
  let Sp_z := a_x ax * S_x o + a_y ax * S_y o + a_z ax * S_z o in
  if BW_BALL B then Vmod_bw_ball ax Ep_x Ep_y Ep_z kappa
  else if RECT B then Vmod_rect ax Ep_x Ep_y Ep_z b c
  else Vmod_ellipsoid Ep_x Ep_y Ep_z Sp_x Sp_y Sp_z b c.

(** ** chi2one *)

(** The per-filter accumulators sum_y2[], sum_y[], sum_w[]. *)
Record sums : Type := {
  sum_y2 : nat -> R;
  sum_y : nat -> R;
  sum_w : nat -> R
}.

(** The MINIMA_TEST variables: N_minima, Vmin[], t_old[2], V_old[2]. *)
Record minima : Type := {
  N_minima : nat;
  Vmin : nat -> R;
  t_old : nat -> R;
  V_old : nat -> R
}.

(** What the loop over the data points carries from one point to the next:
    the Euler angles, the accumulators, the device array d_Vmod[] and the
    minima variables. *)
Record chi_state : Type := {
  rot : R * R * R;
  acc : sums;
  d_Vmod : nat -> R;
  mins : minima
}.

(** What a call of chi2one leaves: the value returned, delta_V[] and
    d_Vmod[]. *)
Record chi_result : Type := {
  chi_value : R;
  chi_delta_V : nat -> R;
  chi_d_Vmod : nat -> R
}.

(** The time intervals covered by observations (cuda.c 721-726). *)
Definition covered (t : R) : bool :=
  (Rgeb t 58051.044624 && Rleb t 58051.117754) ||
  (Rgeb t 58051.977665 && Rleb t 58052.185066) ||
  (Rgeb t 58053.078873 && Rleb t 58053.528586) ||
  (Rgeb t 58054.093274 && Rleb t 58054.514202) ||
  (Rgeb t 58055.234145 && Rleb t 58055.354832) ||
  (Rgeb t 58056.181290 && Rleb t 58056.278901).

(** The MINIMA_TEST block of the data loop (cuda.c 704-740) at point [i]
    with epoch [mjd] and model magnitude [Vmod]; [inl r] is [return r]. *)
Definition track_minima (K : macros) (delta_V0 : R) (i : nat) (mjd Vmod : R)
    (m : minima) : R + minima :=
  if (i <? 0 + 2)%nat then
    inr {| N_minima := N_minima m; Vmin := Vmin m;
           t_old := upd (t_old m) (i - 0) mjd;
           V_old := upd (V_old m) (i - 0) Vmod |}
  else
    let found : R + minima :=
      if Rgtb (V_old m 1%nat) (V_old m 0%nat) && Rgeb (V_old m 1%nat) Vmod then
        let t := 58051.044624 + t_old m 1%nat in
        if covered t then
          let n := S (N_minima m) in
          if (MAX_MINIMA K <? n)%nat then inl (-1)
          else inr {| N_minima := n;
                      Vmin := upd (Vmin m) (n - 1) (V_old m 1%nat + delta_V0);
                      t_old := t_old m; V_old := V_old m |}
        else inr m
      else inr m in
    match found with
    | inl r => inl r
    | inr m' =>
        inr {| N_minima := N_minima m'; Vmin := Vmin m';
               t_old := upd (upd (t_old m') 0 (t_old m' 1%nat)) 1 mjd;
               V_old := upd (upd (V_old m') 0 (V_old m' 1%nat)) 1 Vmod |}
    end.

(** The body of the loop over the data points (cuda.c 268-751) at point
    [i], with i1 = 0. *)
Definition data_point (K : macros) (B : build) (fr : mframe)
    (mu : R * R * R) (b c kappa : R) (sData : nat -> obs_data)
    (delta_V : nat -> R) (Nplot : nat) (i : nat) (s : chi_state)
    : R + chi_state :=
  let y :=
    if (0 <? i)%nat
    then integrate K (MJD (sData (i - 1)%nat)) (MJD (sData i)) mu (rot s)
    else rot s in
  let Vmod := model_magnitude B fr b c kappa y (sData i) in
  let '(acc', d_Vmod') :=
    if (0 <? Nplot)%nat then
      (acc s,
       if MINIMA_TEST B then d_Vmod s
       else upd (d_Vmod s) i (Vmod + delta_V 0%nat))
    else
      let m := Filter (sData i) in
      let y := V (sData i) - Vmod in
      ({| sum_y2 := upd (sum_y2 (acc s)) m (sum_y2 (acc s) m + y * y * w (sData i));
          sum_y := upd (sum_y (acc s)) m (sum_y (acc s) m + y * w (sData i));
          sum_w := upd (sum_w (acc s)) m (sum_w (acc s) m + w (sData i)) |},
       d_Vmod s) in
  if MINIMA_TEST B && (0 <? Nplot)%nat then
    match track_minima K (delta_V 0%nat) i (MJD (sData i)) Vmod (mins s) with
    | inl r => inl r
    | inr m' => inr {| rot := y; acc := acc'; d_Vmod := d_Vmod'; mins := m' |}
    end
  else inr {| rot := y; acc := acc'; d_Vmod := d_Vmod'; mins := mins s |}.

(** [for (i=i1; i<i2; i++)] over the listed points, leaving at the first
    [return]. *)
Fixpoint data_loop (K : macros) (B : build) (fr : mframe)
    (mu : R * R * R) (b c kappa : R) (sData : nat -> obs_data)
    (delta_V : nat -> R) (Nplot : nat) (points : list nat) (s : chi_state)
    : R + chi_state :=
  match points with
  | [] => inr s
  | i :: rest =>
      match data_point K B fr mu b c kappa sData delta_V Nplot i s with
      | inl r => inl r
      | inr s' => data_loop K B fr mu b c kappa sData delta_V Nplot rest s'
      end
  end.

(** One pass of the search for the deepest remaining minimum
    (cuda.c 770-779): [(Vmax, kmax)], with [None] for kmax = -1. *)
Definition deepest (N_minima : nat) (Vmin : nat -> R) : R * option nat :=
  fold_left
    (fun (a : R * option nat) (k : nat) =>
       if Rgtb (Vmin k) (fst a) then (Vmin k, Some k) else a)
    (seq 0 N_minima) (-1e30, None).

(** The loop filling Vbest[] (cuda.c 768-784), [None] for [return -1]. *)
Fixpoint deepest_loop (js : list nat) (N_minima : nat)
    (Vmin Vbest : nat -> R) : option (nat -> R) :=
  match js with
  | [] => Some Vbest
  | j :: rest =>
      match deepest N_minima Vmin with
      | (_, None) => None
      | (Vmax, Some kmax) =>
          deepest_loop rest N_minima (upd Vmin kmax (-2e30)) (upd Vbest j Vmax)
      end
  end.

(** The score (cuda.c 788-819). *)
Definition minima_score (N_minima : nat) (Vbest : nat -> R) : Z :=
  let score := 0%Z in
  if (N_minima =? 0)%nat then score else
  let score := if Rgeb (Vbest 0%nat) 25.715 then (score + 1)%Z else score in
  if (N_minima =? 1)%nat then score else
  let score := if Rgeb (Vbest 1%nat) 25.254 then (score + 1)%Z else score in
  if (N_minima =? 2)%nat then score else
  let score := if Rgeb (Vbest 2%nat) 25.234 then (score + 1)%Z else score in
  if (N_minima =? 3)%nat then score else
  let score := if Rgeb (Vbest 3%nat) 25.212 then (score + 1)%Z else score in
  if (N_minima =? 4)%nat then score else
  let score := if Rgeb (Vbest 4%nat) 24.940 then (score + 1)%Z else score in
  if (N_minima =? 5)%nat then score else
  let score := if Rgeb (Vbest 5%nat) 24.846 then (score + 1)%Z else score in
  if (N_minima =? 6)%nat then score else
  let score := if Rgeb (Vbest 6%nat) 24.834 then (score + 1)%Z else score in
  score.

(** The MINIMA_TEST block after the data loop (cuda.c 759-820). *)
Definition minima_result (m : minima) : R :=
  if (N_minima m =? 0)%nat then 0.0
  else
    let N_min := if (N_minima m <? 7)%nat then N_minima m else 7%nat in
    match deepest_loop (seq 0 N_min) (N_minima m) (Vmin m) (fun _ => 0) with
    | None => -1
    | Some Vbest => IZR (minima_score (N_minima m) Vbest)
    end.

(** The loop over the filters (cuda.c 829-838): [(chi2a, delta_V)]. *)
Definition filter_loop (N_filters : nat) (a : sums) (delta_V : nat -> R)
    : R * (nat -> R) :=
  fold_left
    (fun (st : R * (nat -> R)) (m : nat) =>
       let chi2m := sum_y2 a m - sum_y a m * sum_y a m / sum_w a m in
       (fst st + chi2m, upd (snd st) m (sum_y a m / sum_w a m)))
    (seq 0 N_filters) (0.0, delta_V).

(** The time-independent part of chi2one (cuda.c 207-248): the moments of
    inertia Is, Ii from the axes b_tumb, c_tumb, then the initial Euler
    angles (phi, theta, psi) and the ODE parameters mu = (L, Ip, Im). *)
Definition initial_angles (params : nat -> R) (sTypes : ptype -> nat -> nat)
    : R * R * R :=
  let P (t : ptype) := params (sTypes t 0%nat) in
  let Is := (1.0 + P T_b_tumb * P T_b_tumb)
            / (P T_b_tumb * P T_b_tumb + P T_c_tumb * P T_c_tumb) in
  let Ii := (1.0 + P T_c_tumb * P T_c_tumb)
            / (P T_b_tumb * P T_b_tumb + P T_c_tumb * P T_c_tumb) in
  let Is_inv := 1.0 / Is in
  let Ii_inv := 1.0 / Ii in
  let phi := P T_phi_0 in
  let theta :=
    asin (sqrt ((P T_Es - 1.0)
                / (sin (P T_psi_0) * sin (P T_psi_0) * (Ii_inv - Is_inv)
                   + Is_inv - 1.0))) in
  let psi := P T_psi_0 in
  (phi, theta, psi).

Definition ode_parameters (params : nat -> R) (sTypes : ptype -> nat -> nat)
    : R * R * R :=
  let P (t : ptype) := params (sTypes t 0%nat) in
  let Is := (1.0 + P T_b_tumb * P T_b_tumb)
            / (P T_b_tumb * P T_b_tumb + P T_c_tumb * P T_c_tumb) in
  let Ii := (1.0 + P T_c_tumb * P T_c_tumb)
            / (P T_b_tumb * P T_b_tumb + P T_c_tumb * P T_c_tumb) in
  let Is_inv := 1.0 / Is in
  let Ii_inv := 1.0 / Ii in
  let Ip := 0.5 * (Ii_inv + Is_inv) in
  let Im := 0.5 * (Ii_inv - Is_inv) in
  (P T_L, Ip, Im).

(** The state of the data loop on entry: the initial angles, the
    accumulators at zero, no minimum found.  C zeroes the accumulators of
    the filters below N_filters only and leaves the others, like Vmin[],
    t_old[] and V_old[], indeterminate; the code reads none of them before
    it has assigned it. *)
Definition initial_state (y0 : R * R * R) (d_Vmod0 : nat -> R) : chi_state :=
  {| rot := y0;
     acc := {| sum_y2 := fun _ => 0.0; sum_y := fun _ => 0.0;
               sum_w := fun _ => 0.0 |};
     d_Vmod := d_Vmod0;
     mins := {| N_minima := 0; Vmin := fun _ => 0; t_old := fun _ => 0;
                V_old := fun _ => 0 |} |}.

(** [chi2one]; [d_Vmod0] is the content of the device array d_Vmod[]
    before the call. *)
Definition chi2one (K : macros) (B : build) (params : nat -> R)
    (sData : nat -> obs_data) (N_data N_filters : nat) (delta_V : nat -> R)
    (Nplot : nat) (sTypes : ptype -> nat -> nat) (d_Vmod0 : nat -> R)
    : chi_result :=
  let P (t : ptype) := params (sTypes t 0%nat) in
  let fr := momentum_frame (P T_theta_M) (P T_phi_M) in
  let mu := ode_parameters params sTypes in
  let s0 := initial_state (initial_angles params sTypes) d_Vmod0 in
  match data_loop K B fr mu (P T_b_tumb) (P T_c_tumb) (P T_kappa) sData
          delta_V Nplot (seq 0 N_data) s0 with
  | inl r =>
      {| chi_value := r; chi_delta_V := delta_V; chi_d_Vmod := d_Vmod0 |}
  | inr s =>
      if MINIMA_TEST B && (0 <? Nplot)%nat then
        {| chi_value := minima_result (mins s); chi_delta_V := delta_V;
           chi_d_Vmod := d_Vmod s |}
      else if (0 <? Nplot)%nat then
        {| chi_value := 0.0; chi_delta_V := delta_V; chi_d_Vmod := d_Vmod s |}
      else
        let '(chi2a, delta_V') := filter_loop N_filters (acc s) delta_V in
        {| chi_value :=
             chi2a / IZR (Z.of_nat N_data - Z.of_nat N_PARAMS - Z.of_nat N_filters);
           chi_delta_V := delta_V'; chi_d_Vmod := d_Vmod s |}
  end.

(** ** The parameter codec *)

(** The automatic variables LAM and i_Es of params2x; C leaves them
    indeterminate until the T_Es slot assigns them. *)
Record p2x_locals : Type := {
  p_LAM : bool;
  p_i_Es : nat
}.

(** The body of the loop of params2x (cuda.c 960-1042) at slot [i]. *)
Definition params2x_slot (B : build) (params : nat -> R)
    (sLimits : nat -> ptype -> R) (sProperty : nat -> property)
    (Is Ii b_tumb c_tumb : R) (i : nat) (st : p2x_locals * (nat -> R))
    : p2x_locals * (nat -> R) :=
  let '(loc, x) := st in
  let param_type := P_type (sProperty i) in
  if negb (P_frozen (sProperty i) =? 0)%Z then (loc, upd x i 0)
  else if (P_independent (sProperty i) =? 1)%Z then
    let par := params i in
    if (P_periodic (sProperty i) =? 1)%Z then
      let xi := par / (2 * PI_macro) in
      (loc, upd x i (xi - floor xi))
    else
      let par := if ptype_eqb param_type T_c_tumb then ln par else par in
      let par :=
        if BW_BALL B && ptype_eqb param_type T_kappa then ln par else par in
      (loc, upd x i ((par - sLimits 0%nat param_type)
                     / (sLimits 1%nat param_type - sLimits 0%nat param_type)))
  else if ptype_eqb param_type T_b_tumb then
    let par := ln b_tumb / ln c_tumb in
    (loc, upd x i ((par - sLimits 0%nat param_type)
                   / (sLimits 1%nat param_type - sLimits 0%nat param_type)))
  else if ptype_eqb param_type T_Es then
    let LAM := Rgtb (params i) (1.0 / Ii) in
    ({| p_LAM := LAM; p_i_Es := i |},
     upd x i
       (if LAM
        then 0.5 * ((params i - 1.0 / Ii) / (1.0 - 1.0 / Ii) + 1.0)
        else 0.5 * (params i - 1.0 / Is) / (1.0 / Ii - 1.0 / Is)))
  else if ptype_eqb param_type T_psi_0 then
    let psi_max :=
      if p_LAM loc then 2.0 * PI_macro
      else atan (sqrt (Ii * (Is - 1.0 / params (p_i_Es loc)) / Is
                       / (1.0 / params (p_i_Es loc) - Ii))) in
    let psi_min := if p_LAM loc then 0.0 else - psi_max in
    (loc, upd x i ((params i - psi_min) / (psi_max - psi_min)))
  else (loc, x).

(** [params2x]: the array x[] after the call, from its content [x] and
    the indeterminate locals [loc] before. *)
Definition params2x (B : build) (loc : p2x_locals) (x : nat -> R)
    (params : nat -> R) (sLimits : nat -> ptype -> R)
    (sProperty : nat -> property) (sTypes : ptype -> nat -> nat)
    : nat -> R :=
  let b_tumb := params (sTypes T_b_tumb 0%nat) in
  let c_tumb := params (sTypes T_c_tumb 0%nat) in
  let Is := (1.0 + b_tumb * b_tumb) / (b_tumb * b_tumb + c_tumb * c_tumb) in
  let Ii := (1.0 + c_tumb * c_tumb) / (b_tumb * b_tumb + c_tumb * c_tumb) in
  snd (fold_left
         (fun st i => params2x_slot B params sLimits sProperty Is Ii b_tumb c_tumb i st)
         (seq 0 N_PARAMS) (loc, x)).

(** The test of the first loop of x2params (cuda.c 1069-1070) on one
    coordinate. *)
Definition breaches (K : macros) (LAM : bool) (pr : property) (xi : R) : bool :=
  (Rltb xi 0.0
   && ((P_periodic pr =? HARD_BOTH K)%Z || (P_periodic pr =? HARD_LEFT K)%Z
       || (negb LAM && (P_periodic pr =? PERIODIC_LAM K)%Z)))
  || (Rgtb xi 1.0
      && ((P_periodic pr =? HARD_BOTH K)%Z || (P_periodic pr =? HARD_RIGHT K)%Z
          || (negb LAM && (P_periodic pr =? PERIODIC_LAM K)%Z))).

(** The first loop of x2params (cuda.c 1058-1075): [None] for [return 1],
    otherwise the value of LAM after the loop. *)
Fixpoint check_limits (K : macros) (sProperty : nat -> property)
    (x : nat -> R) (slots : list nat) (LAM : bool) : option bool :=
  match slots with
  | [] => Some LAM
  | i :: rest =>
      let LAM :=
        if ptype_eqb (P_type (sProperty i)) T_Es then Rgeb (x i) 0.5 else LAM in
      if breaches K LAM (sProperty i) (x i) then None
      else check_limits K sProperty x rest LAM
  end.

(** The automatic variables of x2params that one slot sets for a later
    one; C leaves them indeterminate until then. *)
Record x2p_locals : Type := {
  log_c_tumb : R;
  log_b_tumb : R;
  Is : R;
  Ii : R;
  psi_min : R;
  psi_max : R
}.

(** The body of the second loop of x2params (cuda.c 1083-1240) at slot
    [i]. *)
Definition x2params_slot (K : macros) (B : build) (LAM : bool)
    (x : nat -> R) (sLimits : nat -> ptype -> R)
    (sProperty : nat -> property) (sTypes : ptype -> nat -> nat)
    (i : nat) (st : x2p_locals * (nat -> R)) : x2p_locals * (nat -> R) :=
  let '(loc, params) := st in
  let param_type := P_type (sProperty i) in
  let iseg := P_iseg (sProperty i) in
  if ptype_eqb param_type T_b_tumb then
    let log_b_tumb' :=
      log_c_tumb loc
      * (x i * (sLimits 1%nat param_type - sLimits 0%nat param_type)
         + sLimits 0%nat param_type) in
    let params := upd params i (exp log_b_tumb') in
    let b_tumb := params i in
    let c_tumb := params (sTypes T_c_tumb iseg) in
    ({| log_c_tumb := log_c_tumb loc; log_b_tumb := log_b_tumb';
        Is := (1.0 + b_tumb * b_tumb) / (b_tumb * b_tumb + c_tumb * c_tumb);
        Ii := (1.0 + c_tumb * c_tumb) / (b_tumb * b_tumb + c_tumb * c_tumb);
        psi_min := psi_min loc; psi_max := psi_max loc |}, params)
  else if ptype_eqb param_type T_Es then
    if LAM then
      let params :=
        upd params i (2.0 * (x i - 0.5) * (1.0 - 1.0 / Ii loc) + 1.0 / Ii loc) in
      ({| log_c_tumb := log_c_tumb loc; log_b_tumb := log_b_tumb loc;
          Is := Is loc; Ii := Ii loc;
          psi_min := 0.0; psi_max := 2.0 * PI_macro |}, params)
    else
      let params :=
        upd params i (2.0 * x i * (1.0 / Ii loc - 1.0 / Is loc) + 1.0 / Is loc) in
      let psi_max' :=
        atan (sqrt (Ii loc * (Is loc - 1.0 / params i) / Is loc
                    / (1.0 / params i - Ii loc))) in
      ({| log_c_tumb := log_c_tumb loc; log_b_tumb := log_b_tumb loc;
          Is := Is loc; Ii := Ii loc;
          psi_min := - psi_max'; psi_max := psi_max' |}, params)
  else if ptype_eqb param_type T_psi_0 then
    (loc, upd params i (x i * (psi_max loc - psi_min loc) + psi_min loc))
  else if (P_periodic (sProperty i) =? PERIODIC K)%Z then
    (loc, upd params i (x i * 2.0 * PI_macro))
  else if negb (P_periodic (sProperty i) =? PERIODIC K)%Z
          && (P_independent (sProperty i) =? 1)%Z then
    let v := x i * (sLimits 1%nat param_type - sLimits 0%nat param_type)
             + sLimits 0%nat param_type in
    if ptype_eqb param_type T_c_tumb then
      ({| log_c_tumb := v; log_b_tumb := log_b_tumb loc;
          Is := Is loc; Ii := Ii loc;
          psi_min := psi_min loc; psi_max := psi_max loc |},
       upd params i (exp v))
    else if BW_BALL B && ptype_eqb param_type T_kappa then
      (loc, upd params i (exp v))
    else (loc, upd params i v)
  else (loc, params).

(** [x2params]: the value returned (0, or 1 for a coordinate beyond a hard
    limit) and the array params[] after the call, from its content
    [params] and the indeterminate locals [loc] before. *)
Definition x2params (K : macros) (B : build) (loc : x2p_locals)
    (x : nat -> R) (params : nat -> R) (sLimits : nat -> ptype -> R)
    (sProperty : nat -> property) (sTypes : ptype -> nat -> nat)
    : Z * (nat -> R) :=
  match check_limits K sProperty x (seq 0 N_PARAMS) false with
  | None => (1%Z, params)
  | Some LAM =>
      (0%Z,
       snd (fold_left
              (fun st i => x2params_slot K B LAM x sLimits sProperty sTypes i st)
              (seq 0 N_PARAMS) (loc, params)))
  end.

(** ** chi2_gpu: the downhill simplex of one thread *)

(** The [__shared__] tables of a block, and the kernel arguments N_data
    and N_filters. *)
Record shared : Type := {
  sData : nat -> obs_data;
  sLimits : nat -> ptype -> R;
  sProperty : nat -> property;
  sTypes : ptype -> nat -> nat;
  N_data : nat;
  N_filters : nat
}.

(** The variables of one thread: the simplex x[][], its values f[], the
    ranking ind[], params[], delta_V[], the step counter l and the flag
    failed.  [th_calls] counts the calls of chi2one the thread has made. *)
Record thread : Type := {
  th_x : nat -> nat -> R;
  th_f : nat -> R;
  th_ind : nat -> nat;
  th_params : nat -> R;
  th_delta_V : nat -> R;
  th_l : Z;
  th_failed : bool;
  th_calls : nat
}.

(** [x2params(xv, params, ...)] followed, when it returns 0, by
    [chi2one(params, sData, N_data, N_filters, delta_V, 0, &sp, sTypes)]:
    the pair of the x2params result and the value, 1e30 standing for the
    value when x2params rejects (cuda.c 1562-1565). *)
Definition evaluate (K : macros) (B : build) (loc : x2p_locals) (sh : shared)
    (xv : nat -> R) (t : thread) : Z * R * thread :=
  let '(status, params') :=
    x2params K B loc xv (th_params t) (sLimits sh) (sProperty sh) (sTypes sh) in
  if negb (status =? 0)%Z then
    (status, 1e30,
     {| th_x := th_x t; th_f := th_f t; th_ind := th_ind t;
        th_params := params'; th_delta_V := th_delta_V t; th_l := th_l t;
        th_failed := th_failed t; th_calls := th_calls t |})
  else
    let r := chi2one K B params' (sData sh) (N_data sh) (N_filters sh)
               (th_delta_V t) 0 (sTypes sh) (fun _ => 0) in
    (status, chi_value r,
     {| th_x := th_x t; th_f := th_f t; th_ind := th_ind t;
        th_params := params'; th_delta_V := chi_delta_V r; th_l := th_l t;
        th_failed := th_failed t; th_calls := S (th_calls t) |}).

Definition set_f (t : thread) (j : nat) (v : R) : thread :=
  {| th_x := th_x t; th_f := upd (th_f t) j v; th_ind := th_ind t;
     th_params := th_params t; th_delta_V := th_delta_V t; th_l := th_l t;
     th_failed := th_failed t; th_calls := th_calls t |}.

Definition set_vertex (t : thread) (j : nat) (xv : nat -> R) : thread :=
  {| th_x := upd (th_x t) j xv; th_f := th_f t; th_ind := th_ind t;
     th_params := th_params t; th_delta_V := th_delta_V t; th_l := th_l t;
     th_failed := th_failed t; th_calls := th_calls t |}.

Definition set_failed (t : thread) (v : bool) : thread :=
  {| th_x := th_x t; th_f := th_f t; th_ind := th_ind t;
     th_params := th_params t; th_delta_V := th_delta_V t; th_l := th_l t;
     th_failed := v; th_calls := th_calls t |}.

(** The initial function values (cuda.c 1470-1480): the first vertex that
    x2params rejects sets failed and leaves the loop. *)
Fixpoint initial_values (K : macros) (B : build) (loc : x2p_locals)
    (sh : shared) (js : list nat) (t : thread) : thread :=
  match js with
  | [] => t
  | j :: rest =>
      let '(status, v, t') := evaluate K B loc sh (th_x t j) t in
      if negb (status =? 0)%Z then set_failed t' true
      else initial_values K B loc sh rest (set_f t' j v)
  end.

(** The inner loop of the sort (cuda.c 1503-1512) over [nv] vertices:
    [(fmin, jmin)], with [None] for jmin = -1. *)
Definition find_min (nv : nat) (f : nat -> R) (ind2 : nat -> bool)
    : R * option nat :=
  fold_left
    (fun (a : R * option nat) (j2 : nat) =>
       if negb (ind2 j2) && Rleb (f j2) (fst a) then (f j2, Some j2) else a)
    (seq 0 nv) (1e30, None).

(** The outer loop of the sort (cuda.c 1501-1521) on the triple
    (f, ind, ind2); when no vertex is found, f[ind[0]] = 1e30 and the loop
    is left. *)
Fixpoint sort_loop (nv : nat) (js : list nat)
    (s : (nat -> R) * (nat -> nat) * (nat -> bool))
    : (nat -> R) * (nat -> nat) * (nat -> bool) :=
  match js with
  | [] => s
  | j :: rest =>
      let '(f, ind, ind2) := s in
      match snd (find_min nv f ind2) with
      | None => (upd f (ind 0%nat) 1e30, ind, ind2)
      | Some jmin => sort_loop nv rest (f, upd ind j jmin, upd ind2 jmin true)
      end
  end.

(** Sorting the simplex (cuda.c 1495-1521): the arrays f[] and ind[]
    after it. *)
Definition sort_simplex (nv : nat) (f : nat -> R) (ind : nat -> nat)
    : (nat -> R) * (nat -> nat) :=
  fst (sort_loop nv (seq 0 nv) (f, ind, fun _ => false)).

(** The sum of [g j] for j = 0 .. n-1, added in that order from 0.0. *)
Definition sum_upto (n : nat) (g : nat -> R) : R :=
  fold_left (fun s j => s + g j) (seq 0 n) 0.0.

(** Simplex centroid (cuda.c 1523-1531). *)
Definition centroid (x : nat -> nat -> R) : nat -> R :=
  fun i => sum_upto (N_PARAMS + 1) (fun j => x j i) / INR (N_PARAMS + 1).

(** Simplex size squared (cuda.c 1533-1545). *)
Definition size2 (x : nat -> nat -> R) (x0 : nat -> R) : R :=
  sum_upto (N_PARAMS + 1)
    (fun j => sum_upto N_PARAMS
                (fun i => let dx := x j i - x0 i in dx * dx))
  / INR N_PARAMS.

(** A move [base[i] + coef*(to[i] - from[i])] written to the coordinates
    that are not frozen; [into] is the array before the move. *)
Definition move (sProperty : nat -> property) (coef : R)
    (base to from into : nat -> R) : nat -> R :=
  fun i =>
    if negb (P_frozen (sProperty i) =? 1)%Z
    then base i + coef * (to i - from i)
    else into i.

(** Reflection (cuda.c 1555-1560):
    x_r[i] = x0[i] + ALPHA_SIM*(x0[i] - x[ind[N_PARAMS]][i]). *)
Definition reflection (K : macros) (sProperty : nat -> property)
    (x : nat -> nat -> R) (ind : nat -> nat) (junk : nat -> R) : nat -> R :=
  let x0 := centroid x in
  move sProperty (ALPHA_SIM K) x0 x0 (x (ind N_PARAMS)) junk.

(** Expansion (cuda.c 1580-1585):
    x_e[i] = x0[i] + GAMMA_SIM*(x_r[i] - x0[i]). *)
Definition expansion (K : macros) (sProperty : nat -> property)
    (x : nat -> nat -> R) (x_r junk : nat -> R) : nat -> R :=
  let x0 := centroid x in
  move sProperty (GAMMA_SIM K) x0 x_r x0 junk.

(** Contraction (cuda.c 1614-1618), written over x_r:
    x_r[i] = x0[i] + RHO_SIM*(x[ind[N_PARAMS]][i] - x0[i]). *)
Definition contraction (K : macros) (sProperty : nat -> property)
    (x : nat -> nat -> R) (ind : nat -> nat) (x_r : nat -> R) : nat -> R :=
  let x0 := centroid x in
  move sProperty (RHO_SIM K) x0 (x (ind N_PARAMS)) x0 x_r.

(** Shrink (cuda.c 1636-1647): every vertex but the best moves toward
    the best one and is evaluated again; [bad] records a rejection. *)
Fixpoint shrink (K : macros) (B : build) (loc : x2p_locals) (sh : shared)
    (js : list nat) (bad : bool) (t : thread) : bool * thread :=
  match js with
  | [] => (bad, t)
  | j :: rest =>
      let xj := th_x t (th_ind t j) in
      let xb := th_x t (th_ind t 0%nat) in
      let t1 :=
        set_vertex t (th_ind t j)
          (move (sProperty sh) (SIGMA_SIM K) xb xj xb xj) in
      let '(status, v, t2) := evaluate K B loc sh (th_x t1 (th_ind t1 j)) t1 in
      if negb (status =? 0)%Z then shrink K B loc sh rest true t2
      else shrink K B loc sh rest bad (set_f t2 (th_ind t2 j) v)
  end.

(** Replacing the worst point by [xv] with value [v]. *)
Definition replace_worst (t : thread) (xv : nat -> R) (v : R) : thread :=
  set_f (set_vertex t (th_ind t N_PARAMS) xv) (th_ind t N_PARAMS) v.

(** One pass of the main simplex loop (cuda.c 1489-1655): [true] when the
    loop goes on to the next pass, [false] for [break].  [junk] is the
    indeterminate content of the fresh arrays x_r[] and x_e[]. *)
Definition simplex_step (K : macros) (B : build) (loc : x2p_locals)
    (sh : shared) (junk : nat -> R) (t : thread) : bool * thread :=
  if th_failed t then (false, t)
  else
    let '(f, ind) := sort_simplex (N_PARAMS + 1) (th_f t) (th_ind t) in
    let t :=
      {| th_x := th_x t; th_f := f; th_ind := ind; th_params := th_params t;
         th_delta_V := th_delta_V t; th_l := (th_l t + 1)%Z;
         th_failed := th_failed t; th_calls := th_calls t |} in
    let x0 := centroid (th_x t) in
    if Rltb (size2 (th_x t) x0) (SIZE2_MIN K) then (false, t)
    else if (N_STEPS K <? th_l t)%Z then (false, t)
    else
      let x_r := reflection K (sProperty sh) (th_x t) (th_ind t) junk in
      let '(_, f_r, t) := evaluate K B loc sh x_r t in
      if Rgeb f_r (th_f t (th_ind t 0%nat))
         && Rltb f_r (th_f t (th_ind t (N_PARAMS - 1)%nat))
      then (true, replace_worst t x_r f_r)
      else if Rltb f_r (th_f t (th_ind t 0%nat)) then
        let x_e := expansion K (sProperty sh) (th_x t) x_r junk in
        let '(_, f_e, t) := evaluate K B loc sh x_e t in
        if Rltb f_e f_r then (true, replace_worst t x_e f_e)
        else (true, replace_worst t x_r f_r)
      else
        let x_r := contraction K (sProperty sh) (th_x t) (th_ind t) x_r in
        let '(_, f_r, t) := evaluate K B loc sh x_r t in
        if Rltb f_r (th_f t (th_ind t N_PARAMS))
        then (true, replace_worst t x_r f_r)
        else
          let '(bad, t) := shrink K B loc sh (seq 1 N_PARAMS) false t in
          if bad then (false, set_failed t true) else (true, t).

(** ** chi2_gpu: the reduction over the block and the stored result *)

(** The value a thread leaves in s_f[] (cuda.c 1659-1662). *)
Definition s_f_of (t : thread) : R :=
  if th_failed t then 1e30 else th_f t (th_ind t 0%nat).

(** Serial reduction (cuda.c 1689-1702): [(thread_min, smin)]. *)
Definition reduction (K : macros) (s_f : nat -> R) (blockDim : nat)
    : nat * R :=
  fold_left
    (fun (a : nat * R) (j : nat) =>
       if Rltb (s_f j) (snd a) then (j, s_f j) else a)
    (seq 0 blockDim) (0%nat, HUGE K).

(** The entries d_f[blockIdx.x], d_params[blockIdx.x][] and
    d_dV[blockIdx.x][] of one block. *)
Record best : Type := {
  d_f : R;
  d_params : nat -> R;
  d_dV : nat -> R
}.

(** [setup_kernel]: d_f[blockIdx.x] = 1e30. *)
Definition setup_kernel (b : best) : best :=
  {| d_f := 1e30; d_params := d_params b; d_dV := d_dV b |}.

(** The end of chi2_gpu (cuda.c 1729-1742) for a block whose threads
    finished their last stage in the states [threads]: the thread whose
    index is thread_min -- there is one when thread_min < blockDim --
    stores its result when smin < d_f[blockIdx.x]. *)
Definition store_best (K : macros) (B : build) (loc : x2p_locals)
    (sh : shared) (blockDim : nat) (threads : nat -> thread) (old : best)
    : best :=
  let '(thread_min, smin) :=
    reduction K (fun j => s_f_of (threads j)) blockDim in
  if (thread_min <? blockDim)%nat && Rltb smin (d_f old) then
    let t := threads thread_min in
    let params' :=
      snd (x2params K B loc (th_x t (th_ind t 0%nat)) (th_params t)
             (sLimits sh) (sProperty sh) (sTypes sh)) in
    {| d_f := smin;
       d_params := fun i => if (i <? N_PARAMS)%nat then params' i else d_params old i;
       d_dV := fun m => if (m <? N_filters sh)%nat then th_delta_V t m else d_dV old m |}
  else old.

(** A sequence of kernel launches on one block, each launch given by the
    final states of its threads. *)
Definition launches (K : macros) (B : build) (loc : x2p_locals)
    (sh : shared) (blockDim : nat) (runs : list (nat -> thread)) (b : best)
    : best :=
  fold_left (fun b threads => store_best K B loc sh blockDim threads b) runs b.

(** ** chi2_gpu: the initial simplex and the search of one stage *)

(** Macros of the initial simplex whose definitions are not under
    [src/]. *)
Record init_macros : Type := {
  DX_INI : R;             (* largest initial step of the simplex *)
  D2X_INI : R;            (* log-range of the initial step *)
  DX_RAND : R             (* half-width of the restart interval *)
}.

(** [#define SMALL 1e-8] (cuda.c 1375). *)
Definition SMALL : R := 1e-8.

(** The generator state of a thread ([curandState]): the values that
    [curand_uniform] is going to return, and how many were drawn. *)
Record curandState : Type := {
  uniform : nat -> R;
  drawn : nat
}.

Definition curand_uniform (g : curandState) : R * curandState :=
  (uniform g (drawn g), {| uniform := uniform g; drawn := S (drawn g) |}).

(** The class tests of the initial simplex (cuda.c 1416-1418, 1448,
    1454): the coordinate has a hard limit on the left, on the right. *)
Definition hard_left (K : macros) (LAM : bool) (pr : property) : bool :=
  (P_periodic pr =? HARD_BOTH K)%Z || (P_periodic pr =? HARD_LEFT K)%Z
  || (negb LAM && (P_periodic pr =? PERIODIC_LAM K)%Z).

Definition hard_right (K : macros) (LAM : bool) (pr : property) : bool :=
  (P_periodic pr =? HARD_BOTH K)%Z || (P_periodic pr =? HARD_RIGHT K)%Z
  || (negb LAM && (P_periodic pr =? PERIODIC_LAM K)%Z).

(** The body of the loop setting x[0][i] (cuda.c 1379-1428) on the
    generator, the flag LAM and the vertex x[0]. *)
Definition initial_coordinate (K : macros) (I : init_macros) (reopt : Z)
    (sProperty : nat -> property) (i : nat)
    (st : curandState * bool * (nat -> R)) : curandState * bool * (nat -> R) :=
  let '(g, LAM, x0) := st in
  let '(r, g) := curand_uniform g in
  let x0 :=
    if (reopt =? 0)%Z
       || (negb (reopt =? 0)%Z && (P_frozen (sProperty i) =? -1)%Z)
    then upd x0 i (DX_INI I + SMALL + r * (1.0 - 2 * (SMALL + DX_INI I)))
    else
      let xmin := x0 i - DX_RAND I in
      let xmax := x0 i + DX_RAND I in
      let xmin :=
        if Rltb xmin SMALL && hard_left K LAM (sProperty i)
        then SMALL else xmin in
      let xmax :=
        if Rgtb xmax (1.0 - SMALL) && hard_right K LAM (sProperty i)
        then 1.0 - SMALL else xmax in
      upd x0 i (xmin + r * (xmax - xmin)) in
  let LAM :=
    if ptype_eqb (P_type (sProperty i)) T_Es then Rgeb (x0 i) 0.5 else LAM in
  (g, LAM, x0).

(** The initial point (cuda.c 1376-1428): LAM starts at 0. *)
Definition initial_point (K : macros) (I : init_macros) (reopt : Z)
    (sProperty : nat -> property) (g : curandState) (x0 : nat -> R)
    : curandState * bool * (nat -> R) :=
  fold_left (fun st i => initial_coordinate K I reopt sProperty i st)
    (seq 0 N_PARAMS) (g, false, x0).

(** The signed initial step of vertex j along its own coordinate
    (cuda.c 1440-1457), from the two values drawn for it. *)
Definition initial_step (K : macros) (I : init_macros) (LAM : bool)
    (pr : property) (x0i d2x u : R) : R :=
  let dx := DX_INI I * exp (D2X_INI I * d2x) in
  if Rltb u 0.5 then
    let dx := - dx in
    if Rltb (x0i + dx) SMALL && hard_left K LAM pr then - dx else dx
  else
    if Rgtb (x0i + dx) (1.0 - SMALL) && hard_right K LAM pr then - dx else dx.

(** The body of the coordinate loop of the simplex initialization
    (cuda.c 1436-1465) for vertex [j] at coordinate [i]. *)
Definition initial_vertex_coordinate (K : macros) (I : init_macros)
    (LAM : bool) (sProperty : nat -> property) (j i : nat)
    (st : curandState * (nat -> nat -> R)) : curandState * (nat -> nat -> R) :=
  let '(g, x) := st in
  if (i =? j - 1)%nat then
    let '(d2x, g) := curand_uniform g in
    let '(u, g) := curand_uniform g in
    let dx := initial_step K I LAM (sProperty i) (x 0%nat i) d2x u in
    (g, upd x j (upd (x j) i (x 0%nat i + dx)))
  else (g, upd x j (upd (x j) i (x 0%nat i))).

(** The initial simplex (cuda.c 1376-1466): the initial point, then the
    vertices 1 .. N_PARAMS.  [x] is the content of x[][] before. *)
Definition initial_simplex (K : macros) (I : init_macros) (reopt : Z)
    (sProperty : nat -> property) (g : curandState) (x : nat -> nat -> R)
    : curandState * (nat -> nat -> R) :=
  let '(g, LAM, x0) := initial_point K I reopt sProperty g (x 0%nat) in
  fold_left
    (fun st j =>
       fold_left
         (fun st i => initial_vertex_coordinate K I LAM sProperty j i st)
         (seq 0 N_PARAMS) st)
    (seq 1 N_PARAMS) (g, upd x 0 x0).

(** The main simplex loop (cuda.c 1489-1655): passes of [simplex_step]
    until one of them leaves the loop.  [fuel] bounds the number of
    passes ([None] when it runs out); [junk p] is the indeterminate
    content of x_r[] and x_e[] in pass [p]. *)
Fixpoint simplex_loop (K : macros) (B : build) (loc : x2p_locals)
    (sh : shared) (junk : nat -> nat -> R) (fuel pass : nat) (t : thread)
    : option thread :=
  match fuel with
  | O => None
  | S fuel' =>
      let '(go, t') := simplex_step K B loc sh (junk pass) t in
      if go then simplex_loop K B loc sh junk fuel' (S pass) t' else Some t'
  end.

(** One stage of a thread (cuda.c 1355-1662) without the reading of the
    previous stage's point: the step counter at 0, the initial simplex,
    its values, the main loop; the result is the generator, the thread
    and the value it leaves in s_f[]. *)
Definition thread_stage (K : macros) (I : init_macros) (B : build)
    (loc : x2p_locals) (sh : shared) (reopt : Z) (junk : nat -> nat -> R)
    (fuel : nat) (g : curandState) (t : thread)
    : option (curandState * thread * R) :=
  let '(g, x) := initial_simplex K I reopt (sProperty sh) g (th_x t) in
  let t :=
    {| th_x := x; th_f := th_f t; th_ind := th_ind t;
       th_params := th_params t; th_delta_V := th_delta_V t; th_l := 0%Z;
       th_failed := false; th_calls := th_calls t |} in
  let t := initial_values K B loc sh (seq 0 (N_PARAMS + 1)) t in
  match simplex_loop K B loc sh junk fuel 0 t with
  | None => None
  | Some t' => Some (g, t', s_f_of t')
  end.

(** ** chi2_plot *)

(** What [chi2_plot] leaves in device memory: d_chi2_plot, d_delta_V[]
    and d_Vmod[]. *)
Record plot_result : Type := {
  d_chi2_plot : R;
  d_delta_V : nat -> R;
  plot_d_Vmod : nat -> R
}.

(** The local array params[] after [params[i] = d_params0[i]] for
    i < N_PARAMS; [rest] is its indeterminate content. *)
Definition read_params0 (d_params0 rest : nat -> R) : nat -> R :=
  fun i => if (i <? N_PARAMS)%nat then d_params0 i else rest i.

(** [chi2_plot] (cuda.c 1784-1960) in a build without LSQ and PROFILES:
    thread 0 fits delta_V[] to the data, copies it to d_delta_V[], then
    computes the model at the plot points.  [rest] and [delta_V] are the
    indeterminate contents of the local arrays params[] and delta_V[],
    [old] the device memory before. *)
Definition chi2_plot (K : macros) (B : build) (d_params0 : nat -> R)
    (dTypes : ptype -> nat -> nat) (dData : nat -> obs_data)
    (N_data N_filters : nat) (dPlot : nat -> obs_data) (Nplot : nat)
    (rest delta_V : nat -> R) (old : plot_result) : plot_result :=
  let params := read_params0 d_params0 rest in
  let sTypes := dTypes in
  let r1 := chi2one K B params dData N_data N_filters delta_V 0 sTypes
              (plot_d_Vmod old) in
  let d_delta_V' :=
    fun m => if (m <? N_filters)%nat then chi_delta_V r1 m
             else d_delta_V old m in
  let r2 := chi2one K B params dPlot Nplot N_filters (chi_delta_V r1) Nplot
              sTypes (chi_d_Vmod r1) in
  {| d_chi2_plot := chi_value r1;
     d_delta_V := d_delta_V';
     plot_d_Vmod := chi_d_Vmod r2 |}.

(** ** chi2_minima (MINIMA_TEST builds) *)

(** The parameters of thread threadIdx.x of block (blockIdx.x,
    blockIdx.y) (cuda.c 2036-2041): phi_0 from the thread, theta_M and
    phi_M from the block.  The indices are unsigned; gridDim.x - 1 does
    not wrap because a running block has gridDim.x >= 1. *)
Definition minima_params (params : nat -> R) (sTypes : ptype -> nat -> nat)
    (threadIdx_x blockDim_x blockIdx_x gridDim_x blockIdx_y gridDim_y : nat)
    : nat -> R :=
  let params :=
    upd params (sTypes T_phi_0 0%nat)
      (2.0 * PI_macro * INR threadIdx_x / INR blockDim_x) in
  let params :=
    upd params (sTypes T_theta_M 0%nat)
      (acos ((INR blockIdx_x - INR (gridDim_x - 1) / 2.0)
             / (INR gridDim_x / 2.0))) in
  upd params (sTypes T_phi_M 0%nat)
    (INR blockIdx_y / INR gridDim_y * 2 * PI_macro).

(** The score of one thread (cuda.c 2003-2044): delta_V[] is the one
    thread 0 fitted to the data with the parameters read from
    d_params0[]; the value of chi2one at the plot points is converted to
    [int].  [rest tid] is the indeterminate content of params[] in
    thread [tid], [delta_V] that of the shared delta_V[]. *)
Definition thread_score (K : macros) (B : build) (d_params0 : nat -> R)
    (dTypes : ptype -> nat -> nat) (dData : nat -> obs_data)
    (N_data N_filters : nat) (dPlot : nat -> obs_data) (Nplot : nat)
    (rest : nat -> nat -> R) (delta_V d_Vmod0 : nat -> R)
    (blockDim_x blockIdx_x gridDim_x blockIdx_y gridDim_y threadIdx_x : nat)
    : Z :=
  let sTypes := dTypes in
  let r0 := chi2one K B (read_params0 d_params0 (rest 0%nat)) dData N_data
              N_filters delta_V 0 sTypes d_Vmod0 in
  let params :=
    minima_params (read_params0 d_params0 (rest threadIdx_x)) sTypes
      threadIdx_x blockDim_x blockIdx_x gridDim_x blockIdx_y gridDim_y in
  trunc (chi_value (chi2one K B params dPlot Nplot N_filters (chi_delta_V r0)
                      Nplot sTypes (chi_d_Vmod r0))).

(** Averaging the scores of a block (cuda.c 2049-2062): the mean over
    the threads of the positive scores, and the number N7 of threads
    with the score 7. *)
Definition average_scores (score : nat -> Z) (blockDim_x : nat) : R * Z :=
  let '(sum, N7) :=
    fold_left
      (fun (a : R * Z) (i : nat) =>
         let sum :=
           if (0 <? score i)%Z then fst a + IZR (score i) else fst a in
         let N7 := if (score i =? 7)%Z then (snd a + 1)%Z else snd a in
         (sum, N7))
      (seq 0 blockDim_x) (0.0, 0%Z) in
  (sum / INR blockDim_x, N7).

(** The device variables d_Scores[][] and d_N7all. *)
Record minima_out : Type := {
  d_Scores : nat -> nat -> R;
  d_N7all : Z
}.

(** [chi2_minima] (cuda.c 1985-2067) for the block (blockIdx.x,
    blockIdx.y): its mean score is stored, its N7 is added to
    d_N7all. *)
Definition chi2_minima (K : macros) (B : build) (d_params0 : nat -> R)
    (dTypes : ptype -> nat -> nat) (dData : nat -> obs_data)
    (N_data N_filters : nat) (dPlot : nat -> obs_data) (Nplot : nat)
    (rest : nat -> nat -> R) (delta_V d_Vmod0 : nat -> R)
    (blockDim_x blockIdx_x gridDim_x blockIdx_y gridDim_y : nat)
    (old : minima_out) : minima_out :=
  let score :=
    thread_score K B d_params0 dTypes dData N_data N_filters dPlot Nplot
      rest delta_V d_Vmod0 blockDim_x blockIdx_x gridDim_x blockIdx_y
      gridDim_y in
  let '(mean, N7) := average_scores score blockDim_x in
  {| d_Scores := upd (d_Scores old) blockIdx_x
                   (upd (d_Scores old blockIdx_x) blockIdx_y mean);
     d_N7all := (d_N7all old + N7)%Z |}.

(** ** Notions used in the statements *)

(** *** The modelled light curve *)

(** The Euler angles at data point [i]: the initial angles at point 0,
    then one integration per gap between consecutive epochs. *)
Fixpoint euler_at (K : macros) (mu y0 : R * R * R) (sData : nat -> obs_data)
    (i : nat) : R * R * R :=
  match i with
  | O => y0
  | S k => integrate K (MJD (sData k)) (MJD (sData (S k))) mu
             (euler_at K mu y0 sData k)
  end.

(** The modelled magnitude of data point [i] for the parameters
    [params]. *)
Definition Vmod_at (K : macros) (B : build) (params : nat -> R)
    (sTypes : ptype -> nat -> nat) (sData : nat -> obs_data) (i : nat) : R :=
  model_magnitude B
    (momentum_frame (params (sTypes T_theta_M 0%nat))
       (params (sTypes T_phi_M 0%nat)))
    (params (sTypes T_b_tumb 0%nat)) (params (sTypes T_c_tumb 0%nat))
    (params (sTypes T_kappa 0%nat))
    (euler_at K (ode_parameters params sTypes) (initial_angles params sTypes)
       sData i)
    (sData i).

(** The sum of [g i] over the data points i < n observed in filter [m]. *)
Definition sum_filter (sData : nat -> obs_data) (n m : nat) (g : nat -> R)
    : R :=
  sum_upto n (fun i => if Nat.eqb (Filter (sData i)) m then g i else 0).

(** The state of the data loop in fit mode before point [i]: the angles
    of the previous point and, per filter, the sums over the points
    below [i] of w y^2, w y and w, with y the observed minus the modelled
    magnitude. *)
Definition fit_state (K : macros) (B : build) (fr : mframe)
    (mu : R * R * R) (b c kappa : R) (y0 : R * R * R)
    (sData : nat -> obs_data) (i : nat) (s : chi_state) : Prop :=
  let y k := V (sData k)
             - model_magnitude B fr b c kappa (euler_at K mu y0 sData k)
                 (sData k) in
  rot s = match i with O => y0 | S k => euler_at K mu y0 sData k end /\
  (forall m, sum_y2 (acc s) m
             = sum_filter sData i m (fun k => y k * y k * w (sData k))) /\
  (forall m, sum_y (acc s) m
             = sum_filter sData i m (fun k => y k * w (sData k))) /\
  (forall m, sum_w (acc s) m = sum_filter sData i m (fun k => w (sData k))).

(** Data point [i] closes a tracked minimum of the light curve [Vm]: the
    magnitude at i-1 is above the one at i-2 and not below the one at i,
    and the epoch of i-1 falls in an interval covered by observations. *)
Definition tracked (Vm : nat -> R) (sData : nat -> obs_data) (i : nat) : bool :=
  (2 <=? i)%nat
  && (Rgtb (Vm (i - 1)%nat) (Vm (i - 2)%nat) && Rgeb (Vm (i - 1)%nat) (Vm i))
  && covered (58051.044624 + MJD (sData (i - 1)%nat)).

(** The number of tracked minima among the data points below [n]. *)
Definition minima_upto (Vm : nat -> R) (sData : nat -> obs_data) (n : nat)
    : nat :=
  length (filter (tracked Vm sData) (seq 0 n)).

(** The state of the data loop in minima-scoring mode before point [i],
    when no more than MAX_MINIMA minima were tracked so far: the angles
    and the last two points are those of the light curve [Vm], N_minima
    counts the tracked minima, and each recorded Vmin[k] is a magnitude of
    the curve shifted by [dV]. *)
Definition minima_state (K : macros) (Vm : nat -> R) (mu y0 : R * R * R)
    (sData : nat -> obs_data) (dV : R) (i : nat) (s : chi_state) : Prop :=
  rot s = match i with O => y0 | S k => euler_at K mu y0 sData k end /\
  (i = 1%nat -> V_old (mins s) 0%nat = Vm 0%nat) /\
  ((2 <= i)%nat ->
   V_old (mins s) 0%nat = Vm (i - 2)%nat /\
   V_old (mins s) 1%nat = Vm (i - 1)%nat /\
   t_old (mins s) 1%nat = MJD (sData (i - 1)%nat)) /\
  N_minima (mins s) = minima_upto Vm sData i /\
  (N_minima (mins s) <= MAX_MINIMA K)%nat /\
  (forall k, (k < N_minima (mins s))%nat ->
     exists j, (j < i)%nat /\ Vmin (mins s) k = Vm j + dV).

(** *** Geometry *)

(** The three axes are of unit length and pairwise orthogonal. *)
Definition orthonormal (ax : axes) : Prop :=
  a_x ax * a_x ax + a_y ax * a_y ax + a_z ax * a_z ax = 1 /\
  b_x ax * b_x ax + b_y ax * b_y ax + b_z ax * b_z ax = 1 /\
  c_x ax * c_x ax + c_y ax * c_y ax + c_z ax * c_z ax = 1 /\
  a_x ax * b_x ax + a_y ax * b_y ax + a_z ax * b_z ax = 0 /\
  a_x ax * c_x ax + a_y ax * c_y ax + a_z ax * c_z ax = 0 /\
  b_x ax * c_x ax + b_y ax * c_y ax + b_z ax * c_z ax = 0.

(** The frame (XM, YM, M) is orthonormal and right-handed, with XM_y = 0. *)
Definition frame_ok (fr : mframe) : Prop :=
  M_x fr * M_x fr + M_y fr * M_y fr + M_z fr * M_z fr = 1 /\
  XM_x fr * XM_x fr + XM_z fr * XM_z fr = 1 /\
  XM_x fr * M_x fr + XM_z fr * M_z fr = 0 /\
  YM_x fr = M_y fr * XM_z fr /\
  YM_y fr = M_z fr * XM_x fr - M_x fr * XM_z fr /\
  YM_z fr = - M_y fr * XM_x fr.

(** *** The codec *)

(** The types whose limits are declared for the logarithm of the value. *)
Definition log_scaled (B : build) (t : ptype) : bool :=
  ptype_eqb t T_c_tumb || (BW_BALL B && ptype_eqb t T_kappa).

(** The regime flag LAM of the first loop of x2params after the slots
    below [n]: SAM ([false]) until a T_Es slot is met, then LAM exactly
    when the coordinate of the last T_Es slot met is at least 0.5. *)
Fixpoint LAM_upto (sProperty : nat -> property) (x : nat -> R) (n : nat)
    : bool :=
  match n with
  | O => false
  | S k =>
      if ptype_eqb (P_type (sProperty k)) T_Es then Rgeb (x k) 0.5
      else LAM_upto sProperty x k
  end.

(** The regime in force when coordinate [i] is tested. *)
Definition LAM_at (sProperty : nat -> property) (x : nat -> R) (i : nat)
    : bool :=
  LAM_upto sProperty x (S i).

(** Coordinate [i] strictly breaches its boundary class. *)
Definition breach (K : macros) (sProperty : nat -> property) (x : nat -> R)
    (i : nat) : Prop :=
  (x i < 0 /\
   (P_periodic (sProperty i) = HARD_BOTH K \/
    P_periodic (sProperty i) = HARD_LEFT K \/
    (LAM_at sProperty x i = false /\
     P_periodic (sProperty i) = PERIODIC_LAM K))) \/
  (x i > 1 /\
   (P_periodic (sProperty i) = HARD_BOTH K \/
    P_periodic (sProperty i) = HARD_RIGHT K \/
    (LAM_at sProperty x i = false /\
     P_periodic (sProperty i) = PERIODIC_LAM K))).

(** *** The simplex and the reduction *)

(** The number of vertices below [n] that the sort has not ranked yet. *)
Definition count_unmarked (n : nat) (ind2 : nat -> bool) : nat :=
  length (filter (fun k => negb (ind2 k)) (seq 0 n)).

(** What one scan of the sort has found after the vertices below [b]:
    nothing, every unmarked vertex being above [top]; or the vertex [k],
    the last of the unmarked vertices of least value. *)
Definition scanned (f : nat -> R) (ind2 : nat -> bool) (top : R) (b : nat)
    (a : R * option nat) : Prop :=
  match snd a with
  | None =>
      fst a = top /\
      forall j, (j < b)%nat -> ind2 j = false -> top < f j
  | Some k =>
      (k < b)%nat /\ ind2 k = false /\ fst a = f k /\ f k <= top /\
      forall j, (j < b)%nat -> ind2 j = false ->
        f k <= f j /\ ((k < j)%nat -> f k < f j)
  end.

(** The state of the sort after [j0] rounds on [nv] vertices with values
    [f]: the ranks below [j0] hold distinct marked vertices, each ranked
    vertex is at most every later-ranked and every unmarked vertex, and
    strictly below those of them that have a higher index. *)
Definition ranked (f : nat -> R) (nv j0 : nat) (ind : nat -> nat)
    (ind2 : nat -> bool) : Prop :=
  (count_unmarked nv ind2 + j0 = nv)%nat /\
  (forall p, (p < j0)%nat -> (ind p < nv)%nat /\ ind2 (ind p) = true) /\
  (forall p k, (p < j0)%nat -> (k < nv)%nat -> ind2 k = false ->
     f (ind p) <= f k /\ ((ind p < k)%nat -> f (ind p) < f k)) /\
  (forall p q, (p < q < j0)%nat ->
     f (ind p) <= f (ind q) /\
     ((ind p < ind q)%nat -> f (ind p) < f (ind q)) /\
     ind p <> ind q).

(** The centroid as the specification words it: the mean of the vertices
    other than the worst one, ind[N_PARAMS]. *)
Definition centroid_excluding_worst (x : nat -> nat -> R) (ind : nat -> nat)
    : nat -> R :=
  fun i =>
    sum_upto (N_PARAMS + 1)
      (fun j => if Nat.eqb j (ind N_PARAMS) then 0 else x j i)
    / INR N_PARAMS.

(** What the serial reduction holds after the threads below [b]: the
    start value when no thread is below it, otherwise the first thread
    of least value. *)
Definition reduced (s_f : nat -> R) (top : R) (b : nat) (a : nat * R) : Prop :=
  (a = (0%nat, top) /\ forall j, (j < b)%nat -> top <= s_f j) \/
  ((fst a < b)%nat /\ snd a = s_f (fst a) /\ snd a < top /\
   (forall j, (j < b)%nat -> snd a <= s_f j) /\
   (forall j, (j < fst a)%nat -> snd a < s_f j)).

(** ** Sample configurations and inputs *)

(** A build configuration used to instantiate the theorems: a step of
    0.01 day, room for 20 minima, the usual Nelder-Mead coefficients. *)
Definition K_sample : macros :=
  {| TIME_STEP := 0.01; MAX_MINIMA := 20; HUGE := 1e38;
     ALPHA_SIM := 1; GAMMA_SIM := 2; RHO_SIM := 0.5; SIGMA_SIM := 0.5;
     SIZE2_MIN := 1e-10; N_STEPS := 5000;
     PERIODIC := 1; PERIODIC_LAM := 2; HARD_BOTH := 3; HARD_LEFT := 4;
     HARD_RIGHT := 5 |}.

Definition B_default : build :=
  {| BW_BALL := false; RECT := false; MINIMA_TEST := false |}.

(** A minima-scoring build with the two-albedo ball. *)
Definition B_bw : build :=
  {| BW_BALL := true; RECT := false; MINIMA_TEST := true |}.

(** Tables of a block with no observation and every slot a free,
    independent, unbounded parameter of type T_L with limits 0 and 1. *)
Definition sh_sample : shared :=
  {| sData := fun _ =>
       {| V := 0; w := 1; E_x := 1; E_y := 0; E_z := 0;
          S_x := 1; S_y := 0; S_z := 0; MJD := 0; Filter := 0 |};
     sLimits := fun k _ => match k with 0%nat => 0 | _ => 1 end;
     sProperty := fun _ =>
       {| P_type := T_L; P_independent := 1; P_frozen := 0; P_iseg := 0;
          P_periodic := 0 |};
     sTypes := fun _ _ => 0%nat;
     N_data := 0; N_filters := 1 |}.

(** The tables of [sh_sample] with every slot bounded on both sides. *)
Definition sh_hard : shared :=
  {| sData := sData sh_sample;
     sLimits := sLimits sh_sample;
     sProperty := fun _ =>
       {| P_type := T_L; P_independent := 1; P_frozen := 0; P_iseg := 0;
          P_periodic := 3 |};
     sTypes := sTypes sh_sample;
     N_data := 0; N_filters := 1 |}.

Definition loc_sample : x2p_locals :=
  {| log_c_tumb := 0; log_b_tumb := 0; Is := 0; Ii := 0;
     psi_min := 0; psi_max := 0 |}.

Definition p2x_sample : p2x_locals := {| p_LAM := false; p_i_Es := 0 |}.

(** A table of a tumbling model: theta_M, phi_M, phi_0, L and c_tumb are
    independent, b_tumb and Es are derived; phi_M and phi_0 are periodic,
    the others bounded on both sides. *)
Definition props_tumb : nat -> property :=
  fun i =>
    match i with
    | 0%nat => {| P_type := T_theta_M; P_independent := 1; P_frozen := 0;
                  P_iseg := 0; P_periodic := 3 |}
    | 1%nat => {| P_type := T_phi_M; P_independent := 1; P_frozen := 0;
                  P_iseg := 0; P_periodic := 1 |}
    | 2%nat => {| P_type := T_phi_0; P_independent := 1; P_frozen := 0;
                  P_iseg := 0; P_periodic := 1 |}
    | 3%nat => {| P_type := T_L; P_independent := 1; P_frozen := 0;
                  P_iseg := 0; P_periodic := 3 |}
    | 4%nat => {| P_type := T_c_tumb; P_independent := 1; P_frozen := 0;
                  P_iseg := 0; P_periodic := 3 |}
    | 5%nat => {| P_type := T_b_tumb; P_independent := 0; P_frozen := 0;
                  P_iseg := 0; P_periodic := 3 |}
    | _ => {| P_type := T_Es; P_independent := 0; P_frozen := 0;
              P_iseg := 0; P_periodic := 3 |}
    end.

Definition types_tumb : ptype -> nat -> nat :=
  fun t _ =>
    match t with
    | T_theta_M => 0 | T_phi_M => 1 | T_phi_0 => 2 | T_L => 3
    | T_c_tumb => 4 | T_b_tumb => 5 | T_Es => 6 | _ => 0
    end%nat.

(** Limits: L in [0, 10], ln c_tumb in [-3, 0], everything else in
    [0, 1]. *)
Definition limits_tumb : nat -> ptype -> R :=
  fun k t =>
    match k, t with
    | 0%nat, T_c_tumb => -3
    | 0%nat, _ => 0
    | _, T_L => 10
    | _, T_c_tumb => 0
    | _, _ => 1
    end.

(** Parameters with L = 5, c_tumb = 0.25, b_tumb = 0.5 and the energy
    parameter [Es]. *)
Definition params_tumb (Es : R) : nat -> R :=
  fun i =>
    match i with
    | 0%nat => 1 | 1%nat => 2 | 2%nat => 3 | 3%nat => 5
    | 4%nat => 0.25 | 5%nat => 0.5 | _ => Es
    end.

Definition types_bw : ptype -> nat -> nat :=
  fun t _ =>
    match t with
    | T_theta_M => 0 | T_phi_M => 1 | T_phi_0 => 2 | T_L => 3
    | T_c_tumb => 4 | T_b_tumb => 5 | T_Es => 6 | T_psi_0 => 7
    | T_kappa => 8 | _ => 0
    end%nat.

(** A body at rest (L = 0) with its momentum along the z axis, all Euler
    angles 0 (Es = 1, psi_0 = 0), axes c_tumb = 0.25, b_tumb = 0.5 and
    albedo kappa = 0.1. *)
Definition params_bw : nat -> R :=
  fun i =>
    match i with
    | 4%nat => 0.25 | 5%nat => 0.5 | 6%nat => 1 | 8%nat => 0.1 | _ => 0
    end.

(** Three points at the epochs 0, 0.01 and 0.02, the Earth seen along
    -z, +z and -z. *)
Definition obs_bw : nat -> obs_data :=
  fun i =>
    match i with
    | 0%nat => {| V := 0; w := 1; E_x := 0; E_y := 0; E_z := -1;
                  S_x := 0; S_y := 0; S_z := -1; MJD := 0; Filter := 0 |}
    | 1%nat => {| V := 0; w := 1; E_x := 0; E_y := 0; E_z := 1;
                  S_x := 0; S_y := 0; S_z := 1; MJD := 0.01; Filter := 0 |}
    | _ => {| V := 0; w := 1; E_x := 0; E_y := 0; E_z := -1;
              S_x := 0; S_y := 0; S_z := -1; MJD := 0.02; Filter := 0 |}
    end.

(** Eight fit values of which the first two are equal. *)
Definition f_tie : nat -> R :=
  fun j => match j with
           | 0%nat => 1 | 1%nat => 1 | 2%nat => 2 | 3%nat => 3
           | 4%nat => 4 | 5%nat => 5 | 6%nat => 6 | _ => 7
           end.

(** A simplex whose vertices are at the origin, but for vertex 7, at 8 on
    the first axis; the ranking 0, 1, ..., 7 makes vertex 7 the worst. *)
Definition x_far : nat -> nat -> R :=
  fun j i => match j, i with 7%nat, 0%nat => 8 | _, _ => 0 end.

Definition ind_id : nat -> nat := fun j => j.

(** A thread about to evaluate its first candidate. *)
Definition thread_start : thread :=
  {| th_x := fun _ _ => 0.5; th_f := fun _ => 0; th_ind := fun j => j;
     th_params := fun _ => 0; th_delta_V := fun _ => 0; th_l := 0%Z;
     th_failed := false; th_calls := 0 |}.

(** A thread that failed, and a thread that ended with the value [v] at
    its best vertex. *)
Definition thread_failed : thread :=
  {| th_x := fun _ _ => 0; th_f := fun _ => 0; th_ind := fun _ => 0%nat;
     th_params := fun _ => 0; th_delta_V := fun _ => 0; th_l := 0%Z;
     th_failed := true; th_calls := 0 |}.

Definition thread_done (v : R) : thread :=
  {| th_x := fun _ _ => 0; th_f := fun _ => v; th_ind := fun _ => 0%nat;
     th_params := fun _ => 0; th_delta_V := fun _ => 0; th_l := 0%Z;
     th_failed := false; th_calls := 0 |}.

(** A block of two threads of which the first failed and the second
    ended at the value 3; a block whose threads all failed. *)
Definition block_mixed : nat -> thread :=
  fun j => match j with 0%nat => thread_failed | _ => thread_done 3 end.

Definition block_failed : nat -> thread := fun _ => thread_failed.

Definition best_empty : best :=
  {| d_f := 0; d_params := fun _ => 0; d_dV := fun _ => 0 |}.

(** *** Plot mode *)

(** The state of the data loop in plot mode of a build without
    MINIMA_TEST before point [i]: the angles of the previous point, and
    d_Vmod[] rewritten below [i] with the modelled magnitudes shifted by
    [dV]. *)
Definition plot_state (K : macros) (Vm : nat -> R) (mu y0 : R * R * R)
    (sData : nat -> obs_data) (dV : R) (d_Vmod0 : nat -> R) (i : nat)
    (s : chi_state) : Prop :=
  rot s = match i with O => y0 | S k => euler_at K mu y0 sData k end /\
  forall j, d_Vmod s j = if (j <? i)%nat then Vm j + dV else d_Vmod0 j.

(** *** Sample builds *)

(** A build with the rectangular prism. *)
Definition B_rect : build :=
  {| BW_BALL := false; RECT := true; MINIMA_TEST := false |}.

(** *** The record of minima *)

(** What one data point may do to the record of minima. *)
Definition minima_grown (K : macros) (m m' : minima) : Prop :=
  (N_minima m <= N_minima m')%nat /\
  (N_minima m' <= MAX_MINIMA K)%nat /\
  (forall k, (k < N_minima m)%nat -> Vmin m' k = Vmin m k) /\
  (forall k, (MAX_MINIMA K <= k)%nat -> Vmin m' k = Vmin m k).

(** The state of the data loop on entry for a body at rest with all
    angles 0. *)
Definition state_rest : chi_state := initial_state (0, 0, 0) (fun _ => 0).

(** *** The scores of a block *)

(** The sum over the threads below [n] of their positive scores, and the
    number of those threads with the score 7. *)
Definition positive_sum (score : nat -> Z) (n : nat) : R :=
  sum_upto n (fun i => if (0 <? score i)%Z then IZR (score i) else 0).

Definition count_7 (score : nat -> Z) (n : nat) : nat :=
  length (filter (fun i => (score i =? 7)%Z) (seq 0 n)).

(** Device memory of the minima test before any block has written. *)
Definition scores_empty : minima_out :=
  {| d_Scores := fun _ _ => 0; d_N7all := 0 |}.

(** *** Sample tables *)

(** A table whose slots are all frozen, independent parameters of type
    T_L without hard limits. *)
Definition props_frozen : nat -> property :=
  fun _ =>
    {| P_type := T_L; P_independent := 1; P_frozen := 1; P_iseg := 0;
       P_periodic := 0 |}.

(** *** The simplex loop *)

(** The thread after the sort and the increment of the step counter with
    which a pass of the main loop begins. *)
Definition after_sort (t : thread) : thread :=
  {| th_x := th_x t;
     th_f := fst (sort_simplex (N_PARAMS + 1) (th_f t) (th_ind t));
     th_ind := snd (sort_simplex (N_PARAMS + 1) (th_f t) (th_ind t));
     th_params := th_params t; th_delta_V := th_delta_V t;
     th_l := (th_l t + 1)%Z;
     th_failed := th_failed t; th_calls := th_calls t |}.

(** What the moves of a pass may change from [t] to [t']: not the
    ranking, the step counter or the flag failed; at most [n] more calls
    of chi2one; and of the simplex only the vertices ranked 1 to
    N_PARAMS. *)
Definition pass_frame (n : nat) (t t' : thread) : Prop :=
  th_ind t' = th_ind t /\ th_l t' = th_l t /\
  th_failed t' = th_failed t /\
  (th_calls t <= th_calls t' <= th_calls t + n)%nat /\
  forall k, (forall j, (1 <= j <= N_PARAMS)%nat -> th_ind t j <> k) ->
    th_x t' k = th_x t k /\ th_f t' k = th_f t k.

(** *** Sample initial simplex *)

(** An initial step of at most 0.1 spread over a log-range of 2, and a
    generator that returns 0.5 every time. *)
Definition I_sample : init_macros :=
  {| DX_INI := 0.1; D2X_INI := -2; DX_RAND := 0.01 |}.

Definition g_half : curandState := {| uniform := fun _ => 0.5; drawn := 0 |}.

(** *** The order of the slots *)

(** The slot sets log_c_tumb in x2params: an independent, non-periodic
    slot of type c_tumb. *)
Definition sets_log_c (K : macros) (pr : property) : bool :=
  ptype_eqb (P_type pr) T_c_tumb
  && negb (P_periodic pr =? PERIODIC K)%Z
  && (P_independent pr =? 1)%Z.

(** The order that the comment of params2x asks for (cuda.c 949):
    c_tumb decoded before b_tumb, b_tumb before Es, Es before psi_0. *)
Definition slot_order (K : macros) (sProperty : nat -> property) : Prop :=
  forall i, (i < N_PARAMS)%nat ->
    (P_type (sProperty i) = T_b_tumb ->
     exists j, (j < i)%nat /\ sets_log_c K (sProperty j) = true) /\
    (P_type (sProperty i) = T_Es ->
     exists j, (j < i)%nat /\ P_type (sProperty j) = T_b_tumb) /\
    (P_type (sProperty i) = T_psi_0 ->
     exists j, (j < i)%nat /\ P_type (sProperty j) = T_Es).

(** Two values of the locals of x2params agree, before slot [n], on the
    variables that a slot below [n] has assigned. *)
Definition locals_agree (K : macros) (sProperty : nat -> property) (n : nat)
    (l1 l2 : x2p_locals) : Prop :=
  ((exists j, (j < n)%nat /\ sets_log_c K (sProperty j) = true) ->
   log_c_tumb l1 = log_c_tumb l2) /\
  ((exists j, (j < n)%nat /\ P_type (sProperty j) = T_b_tumb) ->
   Is l1 = Is l2 /\ Ii l1 = Ii l2) /\
  ((exists j, (j < n)%nat /\ P_type (sProperty j) = T_Es) ->
   psi_min l1 = psi_min l2 /\ psi_max l1 = psi_max l2).

(** *** Epochs clear of the windows of the minima test *)

(** The six windows of [covered], each widened by [d] days on both
    sides. *)
Definition near_covered (d t : R) : bool :=
  (Rgeb t (58051.044624 - d) && Rleb t (58051.117754 + d)) ||
  (Rgeb t (58051.977665 - d) && Rleb t (58052.185066 + d)) ||
  (Rgeb t (58053.078873 - d) && Rleb t (58053.528586 + d)) ||
  (Rgeb t (58054.093274 - d) && Rleb t (58054.514202 + d)) ||
  (Rgeb t (58055.234145 - d) && Rleb t (58055.354832 + d)) ||
  (Rgeb t (58056.181290 - d) && Rleb t (58056.278901 + d)).

(** *** The sort when a value exceeds 1e30 *)

(** The vertices that a scan of the sort cannot select: those already
    ranked and those whose value is above 1e30. *)
Definition unselectable (f : nat -> R) (ind2 : nat -> bool) : nat -> bool :=
  fun k => ind2 k || Rltb 1e30 (f k).

(** Eight fit values of which the last is above 1e30. *)
Definition f_over : nat -> R :=
  fun j => match j with
           | 0%nat => 3 | 1%nat => 1 | 2%nat => 2 | 3%nat => 4
           | 4%nat => 5 | 5%nat => 6 | 6%nat => 7 | _ => 2e30
           end.

(** * Properties *)

(** ** Comparisons, arrays and constants *)

Lemma Rltb_true (a b : R) : a < b -> Rltb a b = true.
Proof. intros H. unfold Rltb. destruct (Rlt_dec a b); [reflexivity | contradiction]. Qed.

Lemma Rltb_false (a b : R) : b <= a -> Rltb a b = false.
Proof. intros H. unfold Rltb. destruct (Rlt_dec a b); [lra | reflexivity]. Qed.

Lemma Rleb_true (a b : R) : a <= b -> Rleb a b = true.
Proof. intros H. unfold Rleb. destruct (Rle_dec a b); [reflexivity | contradiction]. Qed.

Lemma Rleb_false (a b : R) : b < a -> Rleb a b = false.
Proof. intros H. unfold Rleb. destruct (Rle_dec a b); [lra | reflexivity]. Qed.

Lemma Rltb_spec (a b : R) : Rltb a b = true <-> a < b.
Proof.
  unfold Rltb. destruct (Rlt_dec a b); split; intros; try assumption;
    try reflexivity; try discriminate; contradiction.
Qed.

Lemma Rleb_spec (a b : R) : Rleb a b = true <-> a <= b.
Proof.
  unfold Rleb. destruct (Rle_dec a b); split; intros; try assumption;
    try reflexivity; try discriminate; contradiction.
Qed.

Lemma Rltb_nspec (a b : R) : Rltb a b = false <-> b <= a.
Proof.
  unfold Rltb. destruct (Rlt_dec a b); split; intros; try lra;
    try reflexivity; try discriminate.
Qed.

Lemma Rleb_nspec (a b : R) : Rleb a b = false <-> b < a.
Proof.
  unfold Rleb. destruct (Rle_dec a b); split; intros; try lra;
    try reflexivity; try discriminate.
Qed.

(** Evaluation of the comparisons on closed numerals. *)
Ltac Rcmp :=
  repeat
    (first
       [ rewrite Rltb_true by lra
       | rewrite Rltb_false by lra
       | rewrite Rleb_true by lra
       | rewrite Rleb_false by lra ]).

Lemma upd_same {A : Type} (a : nat -> A) (k : nat) (v : A) : upd a k v k = v.
Proof. unfold upd. now rewrite Nat.eqb_refl. Qed.

Lemma upd_other {A : Type} (a : nat -> A) (k i : nat) (v : A) :
  i <> k -> upd a k v i = a i.
Proof. intros H. unfold upd. apply Nat.eqb_neq in H. now rewrite H. Qed.

(** One pass of a loop written with [fold_left], on an explicit state. *)
Ltac fold_step :=
  match goal with
  | |- context [fold_left ?g (?j :: ?l) ?a] =>
      change (fold_left g (j :: l) a) with (fold_left g l (g a j));
      cbn [fst snd negb andb orb upd Nat.eqb]; Rcmp; cbv iota
  end.

(** The decimal constants of the source as fractions. *)
Lemma dec_0_0 : 0.0 = 0.
Proof. lra. Qed.

Lemma dec_1_0 : 1.0 = 1.
Proof. lra. Qed.

Lemma dec_2_0 : 2.0 = 2.
Proof. lra. Qed.

Lemma dec_0_5 : 0.5 = 1 / 2.
Proof. lra. Qed.

(** ** The number of RK4 steps *)

Lemma trunc_nonneg (x : R) : 0 <= x -> trunc x = Zfloor x.
Proof. intros H. unfold trunc. destruct (Rle_dec 0 x); [reflexivity | contradiction]. Qed.

Lemma N_steps_floor (K : macros) (t1 t2 : R) :
  0 < TIME_STEP K -> t1 <= t2 ->
  N_steps_of K t1 t2 = (Zfloor ((t2 - t1) / TIME_STEP K) + 1)%Z.
Proof.
  intros HT Ht. unfold N_steps_of.
  assert (Hq : 0 <= (t2 - t1) / TIME_STEP K).
  { apply Rmult_le_pos; [lra |]. left. now apply Rinv_0_lt_compat. }
  rewrite trunc_nonneg by lra.
  replace 1 with (IZR 1) by reflexivity.
  apply Zfloor_addz.
Qed.

(** C5, as the code has it: between two epochs t1 < t2 the integrator
    makes N_steps = floor((t2 - t1)/TIME_STEP) + 1 passes of equal size
    h = (t2 - t1)/N_steps; N_steps is at least 1, h is strictly below
    TIME_STEP, and N_steps passes of size h cover the gap exactly.  The
    count is ceil((t2 - t1)/TIME_STEP) when the gap is not a multiple of
    TIME_STEP, and one more than that when it is. *)
Theorem C5_rk4_step_count (K : macros) (t1 t2 : R) (mu y : R * R * R) :
  0 < TIME_STEP K -> t1 < t2 ->
  let N := N_steps_of K t1 t2 in
  let h := step_size K t1 t2 in
  N = (Zfloor ((t2 - t1) / TIME_STEP K) + 1)%Z /\
  (1 <= N)%Z /\
  h = (t2 - t1) / IZR N /\
  0 < h < TIME_STEP K /\
  IZR N * h = t2 - t1 /\
  integrate K t1 t2 mu y = Nat.iter (Z.to_nat N) (rk4_step h mu) y /\
  ((forall k : Z, (t2 - t1) / TIME_STEP K <> IZR k) ->
     N = Zceil ((t2 - t1) / TIME_STEP K)) /\
  (forall k : Z, (t2 - t1) / TIME_STEP K = IZR k ->
     N = (Zceil ((t2 - t1) / TIME_STEP K) + 1)%Z).
Proof.
  intros HT Ht N h.
  assert (HN : N = (Zfloor ((t2 - t1) / TIME_STEP K) + 1)%Z)
    by (apply N_steps_floor; lra).
  set (q := (t2 - t1) / TIME_STEP K) in *.
  assert (Hq : 0 < q).
  { unfold q. apply Rmult_lt_0_compat; [lra |]. now apply Rinv_0_lt_compat. }
  destruct (Zfloor_bound q) as [Hlo Hhi].
  assert (Hf0 : (0 <= Zfloor q)%Z).
  { apply Zfloor_lub. simpl. lra. }
  assert (HN1 : (1 <= N)%Z) by lia.
  assert (HNR : IZR N = IZR (Zfloor q) + 1).
  { rewrite HN, plus_IZR. reflexivity. }
  assert (HNpos : 0 < IZR N).
  { rewrite HNR. apply IZR_le in Hf0. lra. }
  assert (Hh : h = (t2 - t1) / IZR N) by reflexivity.
  assert (Hgap : t2 - t1 = q * TIME_STEP K).
  { unfold q. field. lra. }
  split; [exact HN |]. split; [exact HN1 |]. split; [exact Hh |].
  split.
  { rewrite Hh. split.
    - apply Rmult_lt_0_compat; [lra |]. now apply Rinv_0_lt_compat.
    - apply Rmult_lt_reg_r with (IZR N); [exact HNpos |].
      unfold Rdiv. rewrite Rmult_assoc, Rinv_l by lra.
      rewrite Rmult_1_r, Hgap, HNR.
      rewrite (Rmult_comm (TIME_STEP K)).
      apply Rmult_lt_compat_r; lra. }
  split.
  { rewrite Hh. field. lra. }
  split; [reflexivity |].
  split.
  - intros Hni. rewrite HN. unfold Zceil.
    assert (Hc : Zfloor (- q) = (- Zfloor q - 1)%Z).
    { apply Zfloor_eq. rewrite minus_IZR, opp_IZR.
      assert (IZR (Zfloor q) <> q) by (intro E; apply (Hni (Zfloor q)); now rewrite E).
      simpl. lra. }
    rewrite Hc. lia.
  - intros k Hk. rewrite HN. unfold Zceil.
    rewrite Hk, ZfloorZ, ZfloorNZ. lia.
Qed.

(** With TIME_STEP = 0.01, the gap from epoch 0 to epoch 0.035 takes 4
    passes of size 0.00875. *)
Lemma C5_rk4_step_count_witness :
  N_steps_of K_sample 0 0.035 = 4%Z /\
  step_size K_sample 0 0.035 = 0.00875.
Proof.
  assert (HT : 0 < TIME_STEP K_sample) by (simpl; lra).
  assert (Ht : 0 < 0.035) by lra.
  destruct (C5_rk4_step_count K_sample 0 0.035 (0, 0, 0) (0, 0, 0) HT Ht)
    as (HN & _ & Hh & _).
  assert (E : N_steps_of K_sample 0 0.035 = 4%Z).
  { rewrite HN. simpl TIME_STEP.
    assert (Zfloor ((0.035 - 0) / 0.01) = 3%Z) by (apply Zfloor_eq; simpl; lra).
    lia. }
  split; [exact E |].
  rewrite Hh, E. lra.
Defined.

(** C5 as the claim words it fails when the gap is a multiple of
    TIME_STEP: from epoch 0 to epoch 0.01 = TIME_STEP the code takes 2
    passes, while ceil((t2 - t1)/TIME_STEP) = 1. *)
Lemma C5_counterexample :
  N_steps_of K_sample 0 0.01 = 2%Z /\
  Zceil ((0.01 - 0) / TIME_STEP K_sample) = 1%Z /\
  N_steps_of K_sample 0 0.01 <> Zceil ((0.01 - 0) / TIME_STEP K_sample).
Proof.
  assert (E1 : N_steps_of K_sample 0 0.01 = 2%Z).
  { unfold N_steps_of. simpl TIME_STEP.
    rewrite trunc_nonneg by lra. apply Zfloor_eq. simpl. lra. }
  assert (E2 : Zceil ((0.01 - 0) / TIME_STEP K_sample) = 1%Z).
  { simpl TIME_STEP. unfold Zceil.
    assert (Zfloor (- ((0.01 - 0) / 0.01)) = (-1)%Z) by (apply Zfloor_eq; simpl; lra).
    lia. }
  split; [exact E1 |]. split; [exact E2 |].
  rewrite E1, E2. lia.
Qed.

(** ** Sums *)

Lemma sum_upto_S (n : nat) (g : nat -> R) :
  sum_upto (S n) g = sum_upto n g + g n.
Proof. unfold sum_upto. rewrite seq_S, fold_left_app. reflexivity. Qed.

Lemma sum_upto_0 (g : nat -> R) : sum_upto 0 g = 0.
Proof. unfold sum_upto. simpl. lra. Qed.

Lemma sum_upto_ext (n : nat) (g h : nat -> R) :
  (forall j, (j < n)%nat -> g j = h j) -> sum_upto n g = sum_upto n h.
Proof.
  induction n as [| n IH]; intros E.
  - now rewrite !sum_upto_0.
  - rewrite !sum_upto_S, IH, E by (intros; try apply E; lia). reflexivity.
Qed.

(** Taking one term out of a sum. *)
Lemma sum_upto_split (n k : nat) (g : nat -> R) :
  (k < n)%nat ->
  sum_upto n g = sum_upto n (fun j => if Nat.eqb j k then 0 else g j) + g k.
Proof.
  induction n as [| n IH]; intros Hk; [lia |].
  rewrite !sum_upto_S.
  destruct (Nat.eq_dec k n) as [-> | Hne].
  - rewrite Nat.eqb_refl.
    rewrite (sum_upto_ext n (fun j => if Nat.eqb j n then 0 else g j) g).
    + lra.
    + intros j Hj. destruct (Nat.eqb_spec j n); [lia | reflexivity].
  - rewrite (IH ltac:(lia)).
    destruct (Nat.eqb_spec n k); [lia |]. lra.
Qed.

(** ** Counting the entries a loop has not marked *)

Lemma count_unmarked_S (n : nat) (ind2 : nat -> bool) :
  count_unmarked (S n) ind2 =
  (count_unmarked n ind2 + if ind2 n then 0 else 1)%nat.
Proof.
  unfold count_unmarked. rewrite seq_S, filter_app, length_app. simpl.
  destruct (ind2 n); reflexivity.
Qed.

Lemma count_unmarked_upd_out (n k : nat) (ind2 : nat -> bool) :
  (n <= k)%nat -> count_unmarked n (upd ind2 k true) = count_unmarked n ind2.
Proof.
  induction n as [| n IH]; intros Hk; [reflexivity |].
  rewrite !count_unmarked_S, IH by lia.
  rewrite upd_other by lia. reflexivity.
Qed.

Lemma count_unmarked_upd (n k : nat) (ind2 : nat -> bool) :
  (k < n)%nat -> ind2 k = false ->
  (count_unmarked n (upd ind2 k true) + 1 = count_unmarked n ind2)%nat.
Proof.
  induction n as [| n IH]; intros Hk Hu; [lia |].
  rewrite !count_unmarked_S.
  destruct (Nat.eq_dec k n) as [-> | Hne].
  - rewrite count_unmarked_upd_out by lia.
    rewrite upd_same, Hu. lia.
  - rewrite upd_other by lia.
    specialize (IH ltac:(lia) Hu). lia.
Qed.

Lemma count_unmarked_pos (n : nat) (ind2 : nat -> bool) :
  (0 < count_unmarked n ind2)%nat ->
  exists k, (k < n)%nat /\ ind2 k = false.
Proof.
  induction n as [| n IH]; intros Hc.
  - unfold count_unmarked in Hc. simpl in Hc. lia.
  - rewrite count_unmarked_S in Hc.
    destruct (ind2 n) eqn:Hn.
    + destruct IH as (k & Hk & Hu); [lia |]. exists k. split; [lia | assumption].
    + exists n. split; [lia | assumption].
Qed.

Lemma count_unmarked_ext (n : nat) (m1 m2 : nat -> bool) :
  (forall k, (k < n)%nat -> m1 k = m2 k) ->
  count_unmarked n m1 = count_unmarked n m2.
Proof.
  induction n as [| n IH]; intros E; [reflexivity |].
  rewrite !count_unmarked_S, IH, E by (intros; try apply E; lia). reflexivity.
Qed.

Lemma count_unmarked_all (n : nat) (m : nat -> bool) :
  (forall k, (k < n)%nat -> m k = false) -> count_unmarked n m = n.
Proof.
  induction n as [| n IH]; intros E; [reflexivity |].
  rewrite count_unmarked_S, IH, E by (intros; try apply E; lia). lia.
Qed.

(** ** chi2one in fit mode *)

Lemma sum_filter_S (sData : nat -> obs_data) (n m : nat) (g : nat -> R) :
  sum_filter sData (S n) m g
  = sum_filter sData n m g + (if Nat.eqb (Filter (sData n)) m then g n else 0).
Proof. unfold sum_filter. apply sum_upto_S. Qed.

Lemma upd_add_filter (a : nat -> R) (k m : nat) (v : R) :
  upd a k (a k + v) m = a m + (if Nat.eqb k m then v else 0).
Proof.
  unfold upd. rewrite (Nat.eqb_sym k m).
  destruct (Nat.eqb_spec m k) as [-> | Hne]; lra.
Qed.

Section FitMode.

(** The data loop in fit mode (Nplot = 0) for a frame [fr], ODE
    parameters [mu], axes [b], [c], albedo [kappa] and initial angles
    [y0]. *)
Variables (K : macros) (B : build) (fr : mframe) (mu : R * R * R).
Variables (b c kappa : R) (y0 : R * R * R).
Variables (sData : nat -> obs_data) (delta_V : nat -> R).

(** One data point. *)
Lemma data_point_fit (i : nat) (s : chi_state) :
  fit_state K B fr mu b c kappa y0 sData i s ->
  exists s',
    data_point K B fr mu b c kappa sData delta_V 0 i s = inr s' /\
    fit_state K B fr mu b c kappa y0 sData (S i) s'.
Proof.
  intros (Hrot & H2 & H1 & H0).
  unfold data_point.
  change (0 <? 0)%nat with false. rewrite andb_false_r. cbv iota.
  assert (Hy : (if (0 <? i)%nat
                then integrate K (MJD (sData (i - 1)%nat)) (MJD (sData i)) mu (rot s)
                else rot s) = euler_at K mu y0 sData i).
  { rewrite Hrot. destruct i as [| k]; [reflexivity |].
    simpl Nat.ltb. cbv iota. simpl euler_at.
    replace (S k - 1)%nat with k by lia. reflexivity. }
  rewrite Hy.
  eexists. split; [reflexivity |].
  unfold fit_state. simpl rot. simpl acc.
  split; [reflexivity |].
  split; [| split]; intros m; simpl; rewrite sum_filter_S, upd_add_filter;
    [rewrite H2 | rewrite H1 | rewrite H0]; reflexivity.
Qed.

(** The points a, ..., a+n-1. *)
Lemma data_loop_fit :
  forall (n a : nat) (s : chi_state),
    fit_state K B fr mu b c kappa y0 sData a s ->
    exists s',
      data_loop K B fr mu b c kappa sData delta_V 0 (seq a n) s = inr s' /\
      fit_state K B fr mu b c kappa y0 sData (a + n) s'.
Proof.
  induction n as [| n IH]; intros a s Hs.
  - exists s. rewrite Nat.add_0_r. split; [reflexivity | assumption].
  - simpl seq. simpl data_loop.
    destruct (data_point_fit a s Hs) as (s1 & E & Hs1).
    rewrite E. replace (a + S n)%nat with (S a + n)%nat by lia.
    apply IH. assumption.
Qed.

End FitMode.

(** The loop over the filters. *)
Lemma filter_loop_spec (a : sums) (delta_V : nat -> R) (n : nat) :
  fst (filter_loop n a delta_V)
  = sum_upto n (fun m => sum_y2 a m - sum_y a m * sum_y a m / sum_w a m) /\
  forall m,
    snd (filter_loop n a delta_V) m
    = if (m <? n)%nat then sum_y a m / sum_w a m else delta_V m.
Proof.
  induction n as [| n [IH1 IH2]].
  - unfold filter_loop, sum_upto. simpl. split; [reflexivity |].
    intros m. reflexivity.
  - unfold filter_loop in *. rewrite seq_S, fold_left_app. simpl.
    rewrite sum_upto_S. split.
    + rewrite IH1. reflexivity.
    + intros m. unfold upd.
      destruct (Nat.eqb_spec m n) as [-> | Hne].
      * destruct (Nat.ltb_spec n (S n)); [reflexivity | lia].
      * rewrite IH2.
        destruct (Nat.ltb_spec m n); destruct (Nat.ltb_spec m (S n));
          try reflexivity; lia.
Qed.

(** C1: in fit mode (Nplot = 0), when N_data - 7 - N_filters > 0, chi2one
    leaves in delta_V[m], for each filter m < N_filters, the quotient
    S1_m / S0_m, and returns the sum over the filters of
    S2_m - S1_m^2 / S0_m divided by N_data - 7 - N_filters, where S2_m,
    S1_m and S0_m are the sums of w y^2, w y and w over the data points
    of filter m and y is the observed minus the modelled magnitude.  This
    holds for every brightness formula and with or without MINIMA_TEST. *)
Theorem C1_chi2one_fit (K : macros) (B : build) (params : nat -> R)
    (sData : nat -> obs_data) (N_data N_filters : nat) (delta_V : nat -> R)
    (sTypes : ptype -> nat -> nat) (d_Vmod0 : nat -> R) :
  (Z.of_nat N_data - 7 - Z.of_nat N_filters > 0)%Z ->
  let y i := V (sData i) - Vmod_at K B params sTypes sData i in
  let S2 m := sum_filter sData N_data m (fun i => y i * y i * w (sData i)) in
  let S1 m := sum_filter sData N_data m (fun i => y i * w (sData i)) in
  let S0 m := sum_filter sData N_data m (fun i => w (sData i)) in
  let r := chi2one K B params sData N_data N_filters delta_V 0 sTypes d_Vmod0 in
  (forall m, (m < N_filters)%nat -> chi_delta_V r m = S1 m / S0 m) /\
  (forall m, (N_filters <= m)%nat -> chi_delta_V r m = delta_V m) /\
  chi_value r
  = sum_upto N_filters (fun m => S2 m - S1 m * S1 m / S0 m)
    / IZR (Z.of_nat N_data - 7 - Z.of_nat N_filters).
Proof.
  intros Hdof y S2 S1 S0 r.
  unfold r, chi2one.
  set (fr := momentum_frame _ _).
  set (mu := ode_parameters params sTypes).
  set (y0 := initial_angles params sTypes).
  set (b := params (sTypes T_b_tumb 0%nat)).
  set (c := params (sTypes T_c_tumb 0%nat)).
  set (kappa := params (sTypes T_kappa 0%nat)).
  assert (H0 : fit_state K B fr mu b c kappa y0 sData 0 (initial_state y0 d_Vmod0)).
  { unfold fit_state, initial_state, sum_filter, sum_upto. simpl.
    repeat split; reflexivity. }
  destruct (data_loop_fit K B fr mu b c kappa y0 sData delta_V N_data 0 _ H0)
    as (s & E & (_ & H2 & H1 & Hw)).
  rewrite E. simpl Nat.add in *.
  change (0 <? 0)%nat with false. rewrite andb_false_r. cbv iota.
  destruct (filter_loop_spec (acc s) delta_V N_filters) as [Hc Hd].
  destruct (filter_loop N_filters (acc s) delta_V) as [chi2a delta_V'].
  simpl fst in Hc. simpl snd in Hd. simpl.
  split; [| split].
  - intros m Hm. rewrite Hd.
    destruct (Nat.ltb_spec m N_filters); [| lia].
    rewrite H1, Hw. reflexivity.
  - intros m Hm. rewrite Hd.
    destruct (Nat.ltb_spec m N_filters); [lia | reflexivity].
  - rewrite Hc. f_equal.
    apply sum_upto_ext. intros m Hm.
    rewrite H2, H1, Hw. reflexivity.
Qed.

(** Ten data points in one filter leave 10 - 7 - 1 = 2 degrees of
    freedom. *)
Lemma C1_chi2one_fit_witness :
  (Z.of_nat 10 - 7 - Z.of_nat 1 > 0)%Z /\
  (let y i := V (sData sh_sample i)
              - Vmod_at K_sample B_default (fun _ => 0.5) (sTypes sh_sample)
                  (sData sh_sample) i in
   let S2 m := sum_filter (sData sh_sample) 10 m
                 (fun i => y i * y i * w (sData sh_sample i)) in
   let S1 m := sum_filter (sData sh_sample) 10 m
                 (fun i => y i * w (sData sh_sample i)) in
   let S0 m := sum_filter (sData sh_sample) 10 m
                 (fun i => w (sData sh_sample i)) in
   chi_value
     (chi2one K_sample B_default (fun _ => 0.5) (sData sh_sample) 10 1
        (fun _ => 0) 0 (sTypes sh_sample) (fun _ => 0))
   = sum_upto 1 (fun m => S2 m - S1 m * S1 m / S0 m)
     / IZR (Z.of_nat 10 - 7 - Z.of_nat 1)).
Proof.
  assert (Hdof : (Z.of_nat 10 - 7 - Z.of_nat 1 > 0)%Z) by lia.
  split; [exact Hdof |].
  exact (proj2 (proj2
           (C1_chi2one_fit K_sample B_default (fun _ => 0.5) (sData sh_sample)
              10 1 (fun _ => 0) (sTypes sh_sample) (fun _ => 0) Hdof))).
Defined.

(** ** The body axes are orthonormal *)

(** The length of [u cos t + v sin t] for orthonormal u, v. *)
Lemma rot_unit (ux uy uz vx vy vz c s : R) :
  ux * ux + uy * uy + uz * uz = 1 ->
  vx * vx + vy * vy + vz * vz = 1 ->
  ux * vx + uy * vy + uz * vz = 0 ->
  s * s + c * c = 1 ->
  (ux * c + vx * s) * (ux * c + vx * s)
  + (uy * c + vy * s) * (uy * c + vy * s)
  + (uz * c + vz * s) * (uz * c + vz * s) = 1.
Proof.
  intros Hu Hv Huv Hcs.
  replace ((ux * c + vx * s) * (ux * c + vx * s)
           + (uy * c + vy * s) * (uy * c + vy * s)
           + (uz * c + vz * s) * (uz * c + vz * s))
    with (c * c * (ux * ux + uy * uy + uz * uz)
          + s * s * (vx * vx + vy * vy + vz * vz)
          + 2 * c * s * (ux * vx + uy * vy + uz * vz)) by ring.
  rewrite Hu, Hv, Huv. lra.
Qed.

(** [u cos t + v sin t] is orthogonal to what u and v are orthogonal to. *)
Lemma rot_orth (ux uy uz vx vy vz nx ny nz c s : R) :
  ux * nx + uy * ny + uz * nz = 0 ->
  vx * nx + vy * ny + vz * nz = 0 ->
  (ux * c + vx * s) * nx + (uy * c + vy * s) * ny + (uz * c + vz * s) * nz = 0.
Proof.
  intros Hu Hv.
  replace ((ux * c + vx * s) * nx + (uy * c + vy * s) * ny
           + (uz * c + vz * s) * nz)
    with (c * (ux * nx + uy * ny + uz * nz)
          + s * (vx * nx + vy * ny + vz * nz)) by ring.
  rewrite Hu, Hv. ring.
Qed.

(** The length of the vector product of orthonormal u, v. *)
Lemma cross_unit (ux uy uz vx vy vz : R) :
  ux * ux + uy * uy + uz * uz = 1 ->
  vx * vx + vy * vy + vz * vz = 1 ->
  ux * vx + uy * vy + uz * vz = 0 ->
  (uy * vz - uz * vy) * (uy * vz - uz * vy)
  + (uz * vx - ux * vz) * (uz * vx - ux * vz)
  + (ux * vy - uy * vx) * (ux * vy - uy * vx) = 1.
Proof.
  intros Hu Hv Huv.
  replace ((uy * vz - uz * vy) * (uy * vz - uz * vy)
           + (uz * vx - ux * vz) * (uz * vx - ux * vz)
           + (ux * vy - uy * vx) * (ux * vy - uy * vx))
    with ((ux * ux + uy * uy + uz * uz) * (vx * vx + vy * vy + vz * vz)
          - (ux * vx + uy * vy + uz * vz) * (ux * vx + uy * vy + uz * vz))
    by ring.
  rewrite Hu, Hv, Huv. ring.
Qed.

Lemma sin_cos_unit (t : R) : sin t * sin t + cos t * cos t = 1.
Proof. pose proof (sin2_cos2 t) as H. unfold Rsqr in H. exact H. Qed.

(** The frame of a momentum direction off the y axis. *)
Lemma momentum_frame_ok (theta_M phi_M : R) :
  cos theta_M * cos theta_M
  + sin theta_M * cos phi_M * (sin theta_M * cos phi_M) <> 0 ->
  frame_ok (momentum_frame theta_M phi_M).
Proof.
  intros Hd. unfold frame_ok, momentum_frame. simpl.
  set (mx := sin theta_M * cos phi_M) in *.
  set (my := sin theta_M * sin phi_M).
  set (mz := cos theta_M) in *.
  set (d := mz * mz + mx * mx) in *.
  assert (Hd0 : 0 < d).
  { assert (0 <= mz * mz) by nra. assert (0 <= mx * mx) by nra.
    unfold d in *. lra. }
  assert (Hs : sqrt d * sqrt d = d) by (apply sqrt_sqrt; lra).
  assert (Hs0 : sqrt d <> 0).
  { intros E. rewrite E in Hs. lra. }
  repeat split.
  - unfold mx, my, mz.
    pose proof (sin_cos_unit theta_M). pose proof (sin_cos_unit phi_M). nra.
  - replace (mz / sqrt d * (mz / sqrt d) + - mx / sqrt d * (- mx / sqrt d))
      with (d / (sqrt d * sqrt d)) by (unfold d; field; assumption).
    rewrite Hs. field. lra.
  - field. assumption.
Qed.

(** The axes built on an orthonormal frame are orthonormal. *)
Lemma body_axes_orthonormal (fr : mframe) (phi theta psi : R) :
  frame_ok fr -> orthonormal (body_axes fr phi theta psi).
Proof.
  intros (HM & HX & HXM & EYx & EYy & EYz).
  destruct fr as [Mx My Mz Xx Xz Yx Yy Yz]. simpl in *. subst Yx Yy Yz.
  unfold orthonormal, body_axes. simpl.
  (* the node vector N *)
  set (Nx := Xx * cos phi + My * Xz * sin phi).
  set (Ny := (Mz * Xx - Mx * Xz) * sin phi).
  set (Nz := Xz * cos phi + - My * Xx * sin phi).
  assert (HYM : My * Xz * (My * Xz) + (Mz * Xx - Mx * Xz) * (Mz * Xx - Mx * Xz)
                + - My * Xx * (- My * Xx) = 1).
  { replace (My * Xz * (My * Xz) + (Mz * Xx - Mx * Xz) * (Mz * Xx - Mx * Xz)
             + - My * Xx * (- My * Xx))
      with ((Mx * Mx + My * My + Mz * Mz) * (Xx * Xx + Xz * Xz)
            - (Xx * Mx + Xz * Mz) * (Xx * Mx + Xz * Mz)) by ring.
    rewrite HM, HX, HXM. ring. }
  assert (HN : Nx * Nx + Ny * Ny + Nz * Nz = 1).
  { pose proof (rot_unit Xx 0 Xz (My * Xz) (Mz * Xx - Mx * Xz) (- My * Xx)
                  (cos phi) (sin phi)) as H.
    unfold Nx, Ny, Nz.
    replace ((Mz * Xx - Mx * Xz) * sin phi)
      with (0 * cos phi + (Mz * Xx - Mx * Xz) * sin phi) by ring.
    apply H.
    - rewrite <- HX. ring.
    - exact HYM.
    - ring.
    - apply sin_cos_unit. }
  assert (HNM : Nx * Mx + Ny * My + Nz * Mz = 0).
  { unfold Nx, Ny, Nz.
    replace ((Xx * cos phi + My * Xz * sin phi) * Mx
             + (Mz * Xx - Mx * Xz) * sin phi * My
             + (Xz * cos phi + - My * Xx * sin phi) * Mz)
      with (cos phi * (Xx * Mx + Xz * Mz)) by ring.
    rewrite HXM. ring. }
  clearbody Nx Ny Nz. clear HYM HX HXM Xx Xz.
  (* p = [N x M] *)
  set (px := Ny * Mz - Nz * My).
  set (py := Nz * Mx - Nx * Mz).
  set (pz := Nx * My - Ny * Mx).
  assert (Hp : px * px + py * py + pz * pz = 1)
    by (apply cross_unit; assumption).
  assert (HpN : px * Nx + py * Ny + pz * Nz = 0) by (unfold px, py, pz; ring).
  assert (HpM : Mx * px + My * py + Mz * pz = 0) by (unfold px, py, pz; ring).
  clearbody px py pz.
  (* the axis a *)
  set (ax := Mx * cos theta + px * sin theta).
  set (ay := My * cos theta + py * sin theta).
  set (az := Mz * cos theta + pz * sin theta).
  assert (Ha : ax * ax + ay * ay + az * az = 1).
  { apply rot_unit; try assumption. apply sin_cos_unit. }
  assert (HaN : ax * Nx + ay * Ny + az * Nz = 0).
  { apply rot_orth; [| assumption]. rewrite <- HNM. ring. }
  clearbody ax ay az. clear HM HNM Hp HpN HpM px py pz Mx My Mz.
  (* w = [a x N] *)
  set (wx := ay * Nz - az * Ny).
  set (wy := az * Nx - ax * Nz).
  set (wz := ax * Ny - ay * Nx).
  assert (Hw : wx * wx + wy * wy + wz * wz = 1)
    by (apply cross_unit; assumption).
  assert (HNw : Nx * wx + Ny * wy + Nz * wz = 0) by (unfold wx, wy, wz; ring).
  assert (Hwa : wx * ax + wy * ay + wz * az = 0) by (unfold wx, wy, wz; ring).
  clearbody wx wy wz.
  (* the axis b *)
  set (bx := Nx * cos psi + wx * sin psi).
  set (by_ := Ny * cos psi + wy * sin psi).
  set (bz := Nz * cos psi + wz * sin psi).
  assert (Hb : bx * bx + by_ * by_ + bz * bz = 1).
  { apply rot_unit; try assumption. apply sin_cos_unit. }
  assert (Hba : bx * ax + by_ * ay + bz * az = 0).
  { apply rot_orth; [| assumption]. rewrite <- HaN. ring. }
  assert (Hab : ax * bx + ay * by_ + az * bz = 0) by (rewrite <- Hba; ring).
  clearbody bx by_ bz.
  (* the axis c = [a x b] *)
  split; [exact Ha |]. split; [exact Hb |].
  split; [apply cross_unit; assumption |].
  split; [exact Hab |].
  split; ring.
Qed.

(** C9, in exact real arithmetic and as the code has it: for every
    momentum direction (theta_M, phi_M) off the y axis, that is with
    M_z^2 + M_x^2 <> 0 -- the quantity whose square root the code divides
    by -- and for all Euler angles phi, theta, psi, the axes a, b, c are
    of unit length and pairwise orthogonal. *)
Theorem C9_axes_orthonormal (theta_M phi_M phi theta psi : R) :
  cos theta_M * cos theta_M
  + sin theta_M * cos phi_M * (sin theta_M * cos phi_M) <> 0 ->
  orthonormal (body_axes (momentum_frame theta_M phi_M) phi theta psi).
Proof.
  intros Hd. apply body_axes_orthonormal. now apply momentum_frame_ok.
Qed.

(** The momentum direction theta_M = 0 (the z axis) is off the y axis. *)
Lemma C9_axes_orthonormal_witness :
  cos 0 * cos 0 + sin 0 * cos 0 * (sin 0 * cos 0) <> 0 /\
  orthonormal (body_axes (momentum_frame 0 0) 0 0 0).
Proof.
  assert (Hd : cos 0 * cos 0 + sin 0 * cos 0 * (sin 0 * cos 0) <> 0).
  { rewrite cos_0, sin_0. lra. }
  split; [exact Hd |].
  exact (C9_axes_orthonormal 0 0 0 0 0 Hd).
Defined.

(** ** The domain check of x2params *)

Lemma breaches_spec (K : macros) (sProperty : nat -> property)
    (x : nat -> R) (i : nat) :
  breaches K (LAM_at sProperty x i) (sProperty i) (x i) = true
  <-> breach K sProperty x i.
Proof.
  unfold breaches, breach, Rgtb.
  rewrite orb_true_iff, !andb_true_iff, !orb_true_iff, !andb_true_iff,
    !Rltb_spec, !Z.eqb_eq, negb_true_iff.
  replace 0.0 with 0 by lra. replace 1.0 with 1 by lra.
  unfold Rgt. tauto.
Qed.

(** The first loop of x2params over the slots a, ..., a+n-1. *)
Lemma check_limits_spec (K : macros) (sProperty : nat -> property)
    (x : nat -> R) :
  forall n a : nat,
    (check_limits K sProperty x (seq a n) (LAM_upto sProperty x a) = None
     <-> exists i, (a <= i < a + n)%nat /\ breach K sProperty x i) /\
    (check_limits K sProperty x (seq a n) (LAM_upto sProperty x a) <> None ->
     check_limits K sProperty x (seq a n) (LAM_upto sProperty x a)
     = Some (LAM_upto sProperty x (a + n))).
Proof.
  induction n as [| n IH]; intros a.
  - simpl. rewrite Nat.add_0_r. split; [split |].
    + discriminate.
    + intros (i & Hi & _). lia.
    + reflexivity.
  - simpl seq. simpl check_limits.
    change (if ptype_eqb (P_type (sProperty a)) T_Es
            then Rgeb (x a) 0.5 else LAM_upto sProperty x a)
      with (LAM_upto sProperty x (S a)).
    change (LAM_upto sProperty x (S a)) with (LAM_at sProperty x a) at 1 3 5.
    destruct (breaches K (LAM_at sProperty x a) (sProperty a) (x a)) eqn:Hb.
    + apply breaches_spec in Hb. split; [split |].
      * intros _. exists a. split; [lia | assumption].
      * reflexivity.
      * intros H. contradiction.
    + destruct (IH (S a)) as [IH1 IH2].
      replace (a + S n)%nat with (S a + n)%nat by lia.
      split; [split |].
      * intros H. apply IH1 in H. destruct H as (i & Hi & Hbr).
        exists i. split; [lia | assumption].
      * intros (i & Hi & Hbr). apply IH1.
        destruct (Nat.eq_dec i a) as [-> | Hne].
        -- apply breaches_spec in Hbr. congruence.
        -- exists i. split; [lia | assumption].
      * exact IH2.
Qed.

Lemma x2params_status (K : macros) (B : build) (loc : x2p_locals)
    (x params : nat -> R) (sLimits : nat -> ptype -> R)
    (sProperty : nat -> property) (sTypes : ptype -> nat -> nat) :
  (fst (x2params K B loc x params sLimits sProperty sTypes) = 1%Z
   <-> exists i, (i < N_PARAMS)%nat /\ breach K sProperty x i) /\
  (fst (x2params K B loc x params sLimits sProperty sTypes) = 0%Z \/
   fst (x2params K B loc x params sLimits sProperty sTypes) = 1%Z).
Proof.
  unfold x2params.
  destruct (check_limits_spec K sProperty x N_PARAMS 0) as [[H1 H2] _].
  simpl LAM_upto in H1, H2. simpl Nat.add in H1, H2.
  destruct (check_limits K sProperty x (seq 0 N_PARAMS) false) as [LAM |].
  - simpl fst. split; [split | now left].
    + discriminate.
    + intros (i & Hi & Hbr).
      exfalso. assert (Some LAM = None); [| discriminate].
      apply H2. exists i. split; [lia | assumption].
  - simpl fst. split; [split | now right].
    + intros _. destruct (H1 eq_refl) as (i & Hi & Hbr).
      exists i. split; [lia | assumption].
    + reflexivity.
Qed.

(** The regime at coordinate [i] is that of the last T_Es slot at or
    before [i]. *)
Lemma LAM_at_last_Es (sProperty : nat -> property) (x : nat -> R) (e : nat) :
  P_type (sProperty e) = T_Es ->
  forall i : nat,
    (e <= i)%nat ->
    (forall k, (e < k <= i)%nat -> P_type (sProperty k) <> T_Es) ->
    LAM_at sProperty x i = Rgeb (x e) 0.5.
Proof.
  intros He. unfold LAM_at.
  induction i as [| i IH]; intros Hi Hno.
  - assert (e = 0%nat) by lia. subst e. simpl. rewrite He. reflexivity.
  - destruct (Nat.eq_dec e (S i)) as [-> | Hne].
    + simpl. rewrite He. reflexivity.
    + change (LAM_upto sProperty x (S (S i)))
        with (if ptype_eqb (P_type (sProperty (S i))) T_Es
              then Rgeb (x (S i)) 0.5 else LAM_upto sProperty x (S i)).
      assert (Hn : P_type (sProperty (S i)) <> T_Es) by (apply Hno; lia).
      destruct (P_type (sProperty (S i))); try contradiction;
        simpl ptype_eqb; cbv iota; apply IH; try lia;
        intros k Hk; apply Hno; lia.
Qed.

Lemma LAM_at_no_Es (sProperty : nat -> property) (x : nat -> R) :
  forall i : nat,
    (forall k, (k <= i)%nat -> P_type (sProperty k) <> T_Es) ->
    LAM_at sProperty x i = false.
Proof.
  unfold LAM_at. induction i as [| i IH]; intros Hno.
  - simpl. assert (Hn : P_type (sProperty 0%nat) <> T_Es) by (apply Hno; lia).
    destruct (P_type (sProperty 0%nat)); try contradiction; reflexivity.
  - change (LAM_upto sProperty x (S (S i)))
      with (if ptype_eqb (P_type (sProperty (S i))) T_Es
            then Rgeb (x (S i)) 0.5 else LAM_upto sProperty x (S i)).
    assert (Hn : P_type (sProperty (S i)) <> T_Es) by (apply Hno; lia).
    destruct (P_type (sProperty (S i))); try contradiction;
      simpl ptype_eqb; cbv iota; apply IH; intros k Hk; apply Hno; lia.
Qed.

(** C3: in the default build x2params returns 1, and otherwise 0, exactly
    when some coordinate i < N_PARAMS strictly breaches its boundary
    class: x[i] < 0 with class HARD_BOTH or HARD_LEFT, or x[i] > 1 with
    class HARD_BOTH or HARD_RIGHT, or either of them with class
    PERIODIC_LAM in the SAM regime.  The regime at coordinate i is the one
    set by the last T_Es coordinate at or before i (LAM when it is at
    least 0.5) and SAM when there is none.  Coordinates within [0, 1], the
    ends included, are accepted.  When x2params rejects a candidate,
    [evaluate] gives it the value 1e30 without calling chi2one; when it
    accepts, chi2one is called once. *)
Theorem C3_rejection_iff_breach (K : macros) (B : build) (loc : x2p_locals)
    (sh : shared) (x : nat -> R) (t : thread) :
  let status :=
    fst (x2params K B loc x (th_params t) (sLimits sh) (sProperty sh)
           (sTypes sh)) in
  (status = 1%Z <-> exists i, (i < N_PARAMS)%nat /\ breach K (sProperty sh) x i) /\
  (status = 0%Z \/ status = 1%Z) /\
  ((forall i, (i < N_PARAMS)%nat -> 0 <= x i <= 1) -> status = 0%Z) /\
  (forall e i, P_type (sProperty sh e) = T_Es -> (e <= i)%nat ->
     (forall k, (e < k <= i)%nat -> P_type (sProperty sh k) <> T_Es) ->
     LAM_at (sProperty sh) x i = Rgeb (x e) 0.5) /\
  (forall i, (forall k, (k <= i)%nat -> P_type (sProperty sh k) <> T_Es) ->
     LAM_at (sProperty sh) x i = false) /\
  (status = 1%Z ->
   fst (fst (evaluate K B loc sh x t)) = 1%Z /\
   snd (fst (evaluate K B loc sh x t)) = 1e30 /\
   th_calls (snd (evaluate K B loc sh x t)) = th_calls t) /\
  (status = 0%Z ->
   th_calls (snd (evaluate K B loc sh x t)) = S (th_calls t)).
Proof.
  intros status.
  destruct (x2params_status K B loc x (th_params t) (sLimits sh)
              (sProperty sh) (sTypes sh)) as [Hiff Hcases].
  fold status in Hiff, Hcases.
  split; [exact Hiff |]. split; [exact Hcases |].
  split; [| split; [| split; [| split]]].
  - intros Hin. destruct Hcases as [H0 | H1]; [exact H0 |].
    apply Hiff in H1. destruct H1 as (i & Hi & Hbr).
    specialize (Hin i Hi). unfold breach in Hbr. lra.
  - intros e i He Hi Hno. now apply LAM_at_last_Es.
  - intros i Hno. now apply LAM_at_no_Es.
  - intros H1. unfold evaluate. unfold status in H1.
    destruct (x2params K B loc x (th_params t) (sLimits sh) (sProperty sh)
                (sTypes sh)) as [st params'].
    simpl fst in H1. subst st. simpl. repeat split; reflexivity.
  - intros H0. unfold evaluate. unfold status in H0.
    destruct (x2params K B loc x (th_params t) (sLimits sh) (sProperty sh)
                (sTypes sh)) as [st params'].
    simpl fst in H0. subst st. simpl. reflexivity.
Qed.

(** With every slot bounded on both sides, a candidate whose first
    coordinate is -0.1 is rejected and not evaluated. *)
Lemma C3_rejection_iff_breach_witness :
  (exists i, (i < N_PARAMS)%nat /\
     breach K_sample (sProperty sh_hard)
       (fun i => match i with 0%nat => -0.1 | _ => 0.5 end) i) /\
  snd (fst (evaluate K_sample B_default loc_sample sh_hard
              (fun i => match i with 0%nat => -0.1 | _ => 0.5 end)
              thread_start)) = 1e30 /\
  th_calls (snd (evaluate K_sample B_default loc_sample sh_hard
                   (fun i => match i with 0%nat => -0.1 | _ => 0.5 end)
                   thread_start)) = 0%nat.
Proof.
  assert (Hb : exists i, (i < N_PARAMS)%nat /\
     breach K_sample (sProperty sh_hard)
       (fun i => match i with 0%nat => -0.1 | _ => 0.5 end) i).
  { exists 0%nat. split; [unfold N_PARAMS; lia |].
    left. split; [lra |]. left. reflexivity. }
  split; [exact Hb |].
  destruct (C3_rejection_iff_breach K_sample B_default loc_sample sh_hard
              (fun i => match i with 0%nat => -0.1 | _ => 0.5 end)
              thread_start) as (Hiff & _ & _ & _ & _ & Hrej & _).
  destruct (Hrej (proj2 Hiff Hb)) as (_ & Hv & Hc).
  split; [exact Hv | exact Hc].
Defined.

(** ** The codec: what a slot writes *)

(** A loop over the slots whose body at slot i writes no entry but i. *)
Lemma fold_slots_frame {L : Type}
    (step : nat -> L * (nat -> R) -> L * (nat -> R)) :
  (forall i st k, k <> i -> snd (step i st) k = snd st k) ->
  forall (n a : nat) (st : L * (nat -> R)) (k : nat),
    (k < a)%nat ->
    snd (fold_left (fun st i => step i st) (seq a n) st) k = snd st k.
Proof.
  intros Hfr. induction n as [| n IH]; intros a st k Hk; [reflexivity |].
  simpl seq. simpl fold_left. rewrite IH by lia. apply Hfr. lia.
Qed.

Lemma fold_slots_at {L : Type}
    (step : nat -> L * (nat -> R) -> L * (nat -> R)) :
  (forall i st k, k <> i -> snd (step i st) k = snd st k) ->
  forall (n a : nat) (st : L * (nat -> R)) (k : nat),
    (a <= k < a + n)%nat ->
    exists st',
      snd (fold_left (fun st i => step i st) (seq a n) st) k
      = snd (step k st') k.
Proof.
  intros Hfr. induction n as [| n IH]; intros a st k Hk; [lia |].
  simpl seq. simpl fold_left.
  destruct (Nat.eq_dec k a) as [-> | Hne].
  - exists st. apply (fold_slots_frame step Hfr). lia.
  - apply IH. lia.
Qed.

Lemma params2x_slot_frame (B : build) (params : nat -> R)
    (sLimits : nat -> ptype -> R) (sProperty : nat -> property)
    (Is Ii b_tumb c_tumb : R) (i : nat) (st : p2x_locals * (nat -> R))
    (k : nat) :
  k <> i ->
  snd (params2x_slot B params sLimits sProperty Is Ii b_tumb c_tumb i st) k
  = snd st k.
Proof.
  intros Hk. destruct st as [loc x]. unfold params2x_slot.
  repeat match goal with
         | |- context [if ?c then _ else _] => destruct c
         end; simpl snd; try reflexivity; apply upd_other; assumption.
Qed.

Lemma x2params_slot_frame (K : macros) (B : build) (LAM : bool)
    (x : nat -> R) (sLimits : nat -> ptype -> R)
    (sProperty : nat -> property) (sTypes : ptype -> nat -> nat)
    (i : nat) (st : x2p_locals * (nat -> R)) (k : nat) :
  k <> i ->
  snd (x2params_slot K B LAM x sLimits sProperty sTypes i st) k = snd st k.
Proof.
  intros Hk. destruct st as [loc params]. unfold x2params_slot.
  repeat match goal with
         | |- context [if ?c then _ else _] => destruct c
         end; simpl snd; try reflexivity; apply upd_other; assumption.
Qed.

(** What params2x leaves at slot [i] is what the body of its loop writes
    there, from some state of the earlier slots. *)
Lemma params2x_at (B : build) (loc : p2x_locals) (x params : nat -> R)
    (sLimits : nat -> ptype -> R) (sProperty : nat -> property)
    (sTypes : ptype -> nat -> nat) (i : nat) :
  (i < N_PARAMS)%nat ->
  let b_tumb := params (sTypes T_b_tumb 0%nat) in
  let c_tumb := params (sTypes T_c_tumb 0%nat) in
  let Is := (1.0 + b_tumb * b_tumb) / (b_tumb * b_tumb + c_tumb * c_tumb) in
  let Ii := (1.0 + c_tumb * c_tumb) / (b_tumb * b_tumb + c_tumb * c_tumb) in
  exists st,
    params2x B loc x params sLimits sProperty sTypes i
    = snd (params2x_slot B params sLimits sProperty Is Ii b_tumb c_tumb i st) i.
Proof.
  intros Hi b_tumb c_tumb Is Ii. unfold params2x.
  apply (fold_slots_at
           (fun i st => params2x_slot B params sLimits sProperty Is Ii
                          b_tumb c_tumb i st)).
  - intros j st k Hk. now apply params2x_slot_frame.
  - lia.
Qed.

(** What an accepted call of x2params leaves at slot [i]. *)
Lemma x2params_at (K : macros) (B : build) (loc : x2p_locals)
    (x params : nat -> R) (sLimits : nat -> ptype -> R)
    (sProperty : nat -> property) (sTypes : ptype -> nat -> nat) (i : nat) :
  (i < N_PARAMS)%nat ->
  fst (x2params K B loc x params sLimits sProperty sTypes) = 0%Z ->
  exists LAM st,
    check_limits K sProperty x (seq 0 N_PARAMS) false = Some LAM /\
    snd (x2params K B loc x params sLimits sProperty sTypes) i
    = snd (x2params_slot K B LAM x sLimits sProperty sTypes i st) i.
Proof.
  intros Hi. unfold x2params.
  destruct (check_limits K sProperty x (seq 0 N_PARAMS) false) as [LAM |];
    simpl fst; [intros _ | discriminate].
  exists LAM. simpl snd.
  destruct (fold_slots_at
              (fun i st => x2params_slot K B LAM x sLimits sProperty sTypes i st)
              (fun j st k Hk =>
                 x2params_slot_frame K B LAM x sLimits sProperty sTypes j st k Hk)
              N_PARAMS 0 (loc, params) i ltac:(lia)) as (st & E).
  exists st. split; [reflexivity | exact E].
Qed.

(** ** The energy parameter and the LAM / SAM split *)

Lemma params2x_slot_Es (B : build) (params : nat -> R)
    (sLimits : nat -> ptype -> R) (sProperty : nat -> property)
    (Is Ii b_tumb c_tumb : R) (i : nat) (st : p2x_locals * (nat -> R)) :
  P_type (sProperty i) = T_Es ->
  P_frozen (sProperty i) = 0%Z ->
  P_independent (sProperty i) <> 1%Z ->
  snd (params2x_slot B params sLimits sProperty Is Ii b_tumb c_tumb i st) i
  = if Rgtb (params i) (1.0 / Ii)
    then 0.5 * ((params i - 1.0 / Ii) / (1.0 - 1.0 / Ii) + 1.0)
    else 0.5 * (params i - 1.0 / Is) / (1.0 / Ii - 1.0 / Is).
Proof.
  intros Ht Hf Hi. destruct st as [loc x]. unfold params2x_slot.
  rewrite Ht, Hf. simpl negb. cbv iota.
  apply Z.eqb_neq in Hi. rewrite Hi. simpl ptype_eqb. cbv iota.
  simpl snd. apply upd_same.
Qed.

Lemma x2params_slot_Es (K : macros) (B : build) (LAM : bool)
    (x : nat -> R) (sLimits : nat -> ptype -> R)
    (sProperty : nat -> property) (sTypes : ptype -> nat -> nat)
    (i : nat) (loc : x2p_locals) (params : nat -> R) :
  P_type (sProperty i) = T_Es ->
  snd (x2params_slot K B LAM x sLimits sProperty sTypes i (loc, params)) i
  = if LAM
    then 2.0 * (x i - 0.5) * (1.0 - 1.0 / Ii loc) + 1.0 / Ii loc
    else 2.0 * x i * (1.0 / Ii loc - 1.0 / Is loc) + 1.0 / Is loc.
Proof.
  intros Ht. unfold x2params_slot. rewrite Ht. simpl ptype_eqb. cbv iota.
  destruct LAM; simpl snd; apply upd_same.
Qed.

(** The moments of inertia of axes c < b < a = 1. *)
Lemma inertia_order (b c : R) :
  0 < c -> c < b -> b < 1 ->
  let Is := (1.0 + b * b) / (b * b + c * c) in
  let Ii := (1.0 + c * c) / (b * b + c * c) in
  1 < Ii /\ Ii < Is /\ 0 < 1.0 / Is /\ 1.0 / Is < 1.0 / Ii /\ 1.0 / Ii < 1.
Proof.
  intros Hc Hcb Hb Is Ii.
  assert (HD : 0 < b * b + c * c) by nra.
  assert (Hi : 1 < Ii).
  { unfold Ii. apply Rmult_lt_reg_r with (b * b + c * c); [assumption |].
    unfold Rdiv. rewrite Rmult_assoc, Rinv_l by lra. nra. }
  assert (His : Ii < Is).
  { unfold Ii, Is. unfold Rdiv. apply Rmult_lt_compat_r.
    - now apply Rinv_0_lt_compat.
    - nra. }
  assert (Hu : 1.0 / Ii = / Ii) by (unfold Rdiv; lra).
  assert (Hv : 1.0 / Is = / Is) by (unfold Rdiv; lra).
  rewrite Hu, Hv.
  split; [assumption |]. split; [assumption |].
  split; [apply Rinv_0_lt_compat; lra |].
  split; [apply Rinv_lt_contravar; [nra | assumption] |].
  rewrite <- Rinv_1. apply Rinv_lt_contravar; lra.
Qed.

(** The two branches of the T_Es slot, on the inverse moments u = 1/Ii
    and v = 1/Is with 0 < v < u < 1. *)
Lemma energy_split (u v Es : R) :
  0 < v -> v < u -> u < 1 ->
  let xe := if Rgtb Es u
            then 0.5 * ((Es - u) / (1.0 - u) + 1.0)
            else 0.5 * (Es - v) / (u - v) in
  (Es = u -> xe = 0.5) /\
  (u < Es <= 1 -> 0.5 < xe <= 1) /\
  (v <= Es < u -> 0 <= xe < 0.5) /\
  (Es > u <-> xe > 0.5) /\
  (if Rgeb xe 0.5
   then 2.0 * (xe - 0.5) * (1.0 - u) + u
   else 2.0 * xe * (u - v) + v) = Es.
Proof.
  intros Hv Hvu Hu xe. unfold xe, Rgtb.
  rewrite !dec_1_0, !dec_2_0, !dec_0_5.
  destruct (Rltb u Es) eqn:Hlam.
  - apply Rltb_spec in Hlam.
    set (q := (Es - u) / (1 - u)).
    assert (Hq : q * (1 - u) = Es - u) by (unfold q; field; lra).
    assert (Hq0 : 0 < q).
    { unfold q. apply Rmult_lt_0_compat; [lra |]. apply Rinv_0_lt_compat. lra. }
    split; [intros E; lra |].
    split; [intros [_ H1]; split; [lra |]; nra |].
    split; [intros [_ H1]; lra |].
    split; [split; intros _; lra |].
    unfold Rgeb. rewrite Rleb_true by lra. nra.
  - apply Rltb_nspec in Hlam.
    set (q := (Es - v) / (u - v)).
    assert (Hq : q * (u - v) = Es - v) by (unfold q; field; lra).
    assert (Hx : 1 / 2 * (Es - v) / (u - v) = 1 / 2 * q) by (unfold q; field; lra).
    rewrite Hx.
    assert (Hq1 : q <= 1) by nra.
    split; [intros E; assert (q = 1) by nra; lra |].
    split; [intros [H1 _]; lra |].
    split; [intros [H1 H2]; split; nra |].
    split; [split; intros H; lra |].
    unfold Rgeb. destruct (Rleb (1 / 2) (1 / 2 * q)) eqn:Hge.
    + apply Rleb_spec in Hge. assert (q = 1) by lra. nra.
    + nra.
Qed.

(** C8, as the code has it: for axes 0 < c_tumb < b_tumb < 1 the moments
    satisfy 1 < Ii < Is, and at a free, derived slot e of type T_Es
    params2x maps Es = 1/Ii to exactly 0.5, 1/Ii < Es <= 1 into (0.5, 1]
    and 1/Is <= Es < 1/Ii into [0, 0.5); for every Es the coordinate is
    above 0.5 exactly when Es > 1/Ii.  x2params takes LAM to be
    x[e] >= 0.5 when e is the last T_Es slot, and its T_Es branch, run
    with that flag and the same Ii and Is, gives Es back. *)
Theorem C8_energy_split (K : macros) (B : build) (loc0 : p2x_locals)
    (x0 params : nat -> R) (sLimits : nat -> ptype -> R)
    (sProperty : nat -> property) (sTypes : ptype -> nat -> nat) (e : nat) :
  let b := params (sTypes T_b_tumb 0%nat) in
  let c := params (sTypes T_c_tumb 0%nat) in
  let Is_ := (1.0 + b * b) / (b * b + c * c) in
  let Ii_ := (1.0 + c * c) / (b * b + c * c) in
  let Es := params e in
  let xe := params2x B loc0 x0 params sLimits sProperty sTypes e in
  0 < c -> c < b -> b < 1 ->
  (e < N_PARAMS)%nat ->
  P_type (sProperty e) = T_Es ->
  P_frozen (sProperty e) = 0%Z ->
  P_independent (sProperty e) <> 1%Z ->
  (1 < Ii_ /\ Ii_ < Is_) /\
  (Es = 1.0 / Ii_ -> xe = 0.5) /\
  (1.0 / Ii_ < Es <= 1 -> 0.5 < xe <= 1) /\
  (1.0 / Is_ <= Es < 1.0 / Ii_ -> 0 <= xe < 0.5) /\
  (Es > 1.0 / Ii_ <-> xe > 0.5) /\
  (forall x LAM,
     (forall k, (e < k < N_PARAMS)%nat -> P_type (sProperty k) <> T_Es) ->
     check_limits K sProperty x (seq 0 N_PARAMS) false = Some LAM ->
     LAM = Rgeb (x e) 0.5) /\
  (forall x loc params0,
     Ii loc = Ii_ -> Is loc = Is_ -> x e = xe ->
     snd (x2params_slot K B (Rgeb (x e) 0.5) x sLimits sProperty sTypes e
            (loc, params0)) e = Es).
Proof.
  intros b c Is_ Ii_ Es xe Hc Hcb Hb He Ht Hf Hi.
  destruct (inertia_order b c Hc Hcb Hb) as (H1 & H2 & Hv & Hvu & Hu).
  fold Is_ in H2, Hv, Hvu. fold Ii_ in H1, H2, Hvu, Hu.
  assert (Hxe : xe = if Rgtb Es (1.0 / Ii_)
                     then 0.5 * ((Es - 1.0 / Ii_) / (1.0 - 1.0 / Ii_) + 1.0)
                     else 0.5 * (Es - 1.0 / Is_) / (1.0 / Ii_ - 1.0 / Is_)).
  { unfold xe.
    destruct (params2x_at B loc0 x0 params sLimits sProperty sTypes e He)
      as (st & E).
    rewrite E. apply params2x_slot_Es; assumption. }
  destruct (energy_split (1.0 / Ii_) (1.0 / Is_) Es Hv Hvu Hu)
    as (Ha & Hb' & Hc' & Hd & Hback).
  rewrite <- Hxe in Ha, Hb', Hc', Hd, Hback.
  split; [split; assumption |].
  split; [exact Ha |]. split; [exact Hb' |]. split; [exact Hc' |].
  split; [exact Hd |].
  split.
  - intros x LAM Hno Hchk.
    destruct (check_limits_spec K sProperty x N_PARAMS 0) as [_ Hsome].
    simpl LAM_upto in Hsome. simpl Nat.add in Hsome.
    rewrite Hsome in Hchk by (rewrite Hchk; discriminate).
    injection Hchk as <-.
    change (LAM_upto sProperty x N_PARAMS)
      with (LAM_at sProperty x (N_PARAMS - 1)).
    apply LAM_at_last_Es; [assumption | unfold N_PARAMS in *; lia |].
    intros k Hk. apply Hno. unfold N_PARAMS in *. lia.
  - intros x loc params0 HIi HIs Hx.
    rewrite x2params_slot_Es by assumption.
    rewrite HIi, HIs, Hx. exact Hback.
Qed.

(** With c_tumb = 0.25 and b_tumb = 0.5 the moments are Ii = 3.4 and
    Is = 4; the energy parameter Es = 0.5 lies in (1/Ii, 1] and is coded
    above 0.5. *)
Lemma C8_energy_split_witness :
  (0 < 0.25 /\ 0.25 < 0.5 /\ 0.5 < 1) /\
  (params_tumb 0.5 6%nat
   > 1.0 / ((1.0 + 0.25 * 0.25) / (0.5 * 0.5 + 0.25 * 0.25))
   <-> params2x B_default p2x_sample (fun _ => 0) (params_tumb 0.5)
         limits_tumb props_tumb types_tumb 6%nat > 0.5).
Proof.
  assert (Hc : 0 < 0.25) by lra.
  assert (Hcb : 0.25 < 0.5) by lra.
  assert (Hb : 0.5 < 1) by lra.
  split; [repeat split; assumption |].
  exact (proj1 (proj2 (proj2 (proj2 (proj2
           (C8_energy_split K_sample B_default p2x_sample (fun _ => 0)
              (params_tumb 0.5) limits_tumb props_tumb types_tumb 6%nat
              Hc Hcb Hb ltac:(unfold N_PARAMS; lia) eq_refl eq_refl
              ltac:(discriminate))))))).
Defined.

(** With c_tumb = 0.25 and b_tumb = 0.5 (Ii = 3.4) the energy parameter
    Es = 2 is coded as 205/120. *)
Lemma params2x_tumb_Es_2 :
  params2x B_default p2x_sample (fun _ => 0) (params_tumb 2)
    limits_tumb props_tumb types_tumb 6%nat = 205 / 120.
Proof.
  destruct (params2x_at B_default p2x_sample (fun _ => 0) (params_tumb 2)
              limits_tumb props_tumb types_tumb 6%nat
              ltac:(unfold N_PARAMS; lia)) as (st & E).
  rewrite E.
  rewrite params2x_slot_Es by (try reflexivity; discriminate).
  simpl params_tumb. simpl types_tumb.
  assert (HIi : (1.0 + 0.25 * 0.25) / (0.5 * 0.5 + 0.25 * 0.25) = 3.4) by lra.
  rewrite HIi. unfold Rgtb. rewrite Rltb_true by lra. lra.
Qed.

(** C8 as the claim words it fails for an energy parameter above 1: with
    c_tumb = 0.25 and b_tumb = 0.5 (Ii = 3.4) the value Es = 2 exceeds
    1/Ii, and params2x codes it as 205/120, outside (0.5, 1]. *)
Lemma C8_counterexample :
  let Ii_ := (1.0 + 0.25 * 0.25) / (0.5 * 0.5 + 0.25 * 0.25) in
  let xe := params2x B_default p2x_sample (fun _ => 0) (params_tumb 2)
              limits_tumb props_tumb types_tumb 6%nat in
  params_tumb 2 6%nat > 1.0 / Ii_ /\ xe = 205 / 120 /\ ~ (0.5 < xe <= 1).
Proof.
  intros Ii_ xe.
  assert (HIi : Ii_ = 3.4) by (unfold Ii_; lra).
  split; [simpl; rewrite HIi; lra |].
  split; [exact params2x_tumb_Es_2 |].
  unfold xe. rewrite params2x_tumb_Es_2. lra.
Qed.

(** ** The round trip of an independent parameter *)

Lemma params2x_slot_indep (B : build) (params : nat -> R)
    (sLimits : nat -> ptype -> R) (sProperty : nat -> property)
    (Is Ii b_tumb c_tumb : R) (i : nat) (st : p2x_locals * (nat -> R)) :
  P_frozen (sProperty i) = 0%Z ->
  P_independent (sProperty i) = 1%Z ->
  snd (params2x_slot B params sLimits sProperty Is Ii b_tumb c_tumb i st) i
  = if (P_periodic (sProperty i) =? 1)%Z
    then params i / (2 * PI_macro) - floor (params i / (2 * PI_macro))
    else ((if log_scaled B (P_type (sProperty i))
           then ln (params i) else params i)
          - sLimits 0%nat (P_type (sProperty i)))
         / (sLimits 1%nat (P_type (sProperty i))
            - sLimits 0%nat (P_type (sProperty i))).
Proof.
  intros Hf Hi. destruct st as [loc x]. unfold params2x_slot.
  rewrite Hf, Hi. simpl negb. simpl Z.eqb. cbv iota.
  destruct (P_periodic (sProperty i) =? 1)%Z; simpl snd; rewrite upd_same;
    [reflexivity |].
  unfold log_scaled.
  destruct (P_type (sProperty i)); destruct (BW_BALL B); reflexivity.
Qed.

Lemma x2params_slot_indep (K : macros) (B : build) (LAM : bool)
    (x : nat -> R) (sLimits : nat -> ptype -> R)
    (sProperty : nat -> property) (sTypes : ptype -> nat -> nat)
    (i : nat) (st : x2p_locals * (nat -> R)) :
  P_type (sProperty i) <> T_b_tumb ->
  P_type (sProperty i) <> T_Es ->
  P_type (sProperty i) <> T_psi_0 ->
  P_independent (sProperty i) = 1%Z ->
  snd (x2params_slot K B LAM x sLimits sProperty sTypes i st) i
  = if (P_periodic (sProperty i) =? PERIODIC K)%Z
    then x i * 2.0 * PI_macro
    else
      let v := x i * (sLimits 1%nat (P_type (sProperty i))
                      - sLimits 0%nat (P_type (sProperty i)))
               + sLimits 0%nat (P_type (sProperty i)) in
      if log_scaled B (P_type (sProperty i)) then exp v else v.
Proof.
  intros H1 H2 H3 Hi. destruct st as [loc params]. unfold x2params_slot.
  rewrite Hi. simpl Z.eqb.
  unfold log_scaled.
  destruct (P_type (sProperty i)); try contradiction;
    simpl ptype_eqb; cbv iota;
    destruct (P_periodic (sProperty i) =? PERIODIC K)%Z; simpl negb;
    simpl andb; cbv iota; simpl snd; rewrite ?upd_same; try reflexivity;
    destruct (BW_BALL B); simpl andb; simpl orb; cbv iota; simpl snd;
    rewrite ?upd_same; reflexivity.
Qed.

Lemma floor_frac (q : R) : 0 <= q - floor q < 1.
Proof. unfold floor. destruct (Zfloor_bound q). lra. Qed.

Lemma PI_macro_pos : 0 < PI_macro.
Proof. unfold PI_macro. lra. Qed.

(** C2: let slot i < N_PARAMS be free (P_frozen = 0) and independent, of
    a type other than the derived b_tumb, Es and psi_0, and let PERIODIC
    be the value 1 that params2x tests.  If the slot is periodic, or its
    limits satisfy min < max and its value p (the logarithm of p > 0 for
    the logarithmic types) lies within them, then the coordinate params2x
    writes is in [0, 1], and whenever x2params accepts the coded vector it
    writes back p -- for a periodic slot, the canonical value
    p - 2 PI floor(p / (2 PI)) in [0, 2 PI). *)
Theorem C2_codec_round_trip (K : macros) (B : build) (locp : p2x_locals)
    (loc : x2p_locals) (x0 params params0 : nat -> R)
    (sLimits : nat -> ptype -> R) (sProperty : nat -> property)
    (sTypes : ptype -> nat -> nat) (i : nat) :
  let t := P_type (sProperty i) in
  let p := params i in
  let l0 := sLimits 0%nat t in
  let l1 := sLimits 1%nat t in
  let x := params2x B locp x0 params sLimits sProperty sTypes in
  let r := x2params K B loc x params0 sLimits sProperty sTypes in
  PERIODIC K = 1%Z ->
  (i < N_PARAMS)%nat ->
  P_frozen (sProperty i) = 0%Z ->
  P_independent (sProperty i) = 1%Z ->
  t <> T_b_tumb -> t <> T_Es -> t <> T_psi_0 ->
  (P_periodic (sProperty i) <> 1%Z ->
   l0 < l1 /\
   if log_scaled B t then 0 < p /\ l0 <= ln p <= l1 else l0 <= p <= l1) ->
  0 <= x i <= 1 /\
  (fst r = 0%Z ->
   snd r i = if (P_periodic (sProperty i) =? 1)%Z
             then p - 2 * PI_macro * floor (p / (2 * PI_macro))
             else p) /\
  (P_periodic (sProperty i) = 1%Z ->
   0 <= p - 2 * PI_macro * floor (p / (2 * PI_macro)) < 2 * PI_macro).
Proof.
  intros t p l0 l1 x r HP Hi Hf Hind Ht1 Ht2 Ht3 Hlim.
  pose proof PI_macro_pos as Hpi.
  assert (Hx : x i = if (P_periodic (sProperty i) =? 1)%Z
                     then p / (2 * PI_macro) - floor (p / (2 * PI_macro))
                     else ((if log_scaled B t then ln p else p) - l0) / (l1 - l0)).
  { unfold x.
    destruct (params2x_at B locp x0 params sLimits sProperty sTypes i Hi)
      as (st & E).
    rewrite E. apply params2x_slot_indep; assumption. }
  assert (Hcanon : 0 <= p - 2 * PI_macro * floor (p / (2 * PI_macro))
                   < 2 * PI_macro).
  { pose proof (floor_frac (p / (2 * PI_macro))) as [Ha Hb].
    assert (E : p - 2 * PI_macro * floor (p / (2 * PI_macro))
                = (p / (2 * PI_macro) - floor (p / (2 * PI_macro)))
                  * (2 * PI_macro)) by (field; lra).
    rewrite E. split; nra. }
  split; [| split].
  - rewrite Hx. destruct (Z.eqb_spec (P_periodic (sProperty i)) 1) as [Hper | Hper].
    + pose proof (floor_frac (p / (2 * PI_macro))). lra.
    + destruct (Hlim Hper) as [Hl Hin].
      set (v := if log_scaled B t then ln p else p) in *.
      assert (Hv : l0 <= v <= l1).
      { unfold v. destruct (log_scaled B t); [destruct Hin |]; assumption. }
      assert (Hq : (v - l0) / (l1 - l0) * (l1 - l0) = v - l0) by (field; lra).
      split.
      * apply Rmult_le_pos; [lra |]. left. apply Rinv_0_lt_compat. lra.
      * apply Rmult_le_reg_r with (l1 - l0); [lra |]. rewrite Hq. lra.
  - intros Hacc.
    destruct (x2params_at K B loc x params0 sLimits sProperty sTypes i Hi Hacc)
      as (LAM & st & _ & E).
    fold r in E. rewrite E.
    rewrite x2params_slot_indep by assumption.
    rewrite HP, Hx.
    destruct (Z.eqb_spec (P_periodic (sProperty i)) 1) as [Hper | Hper].
    + rewrite dec_2_0. field. lra.
    + destruct (Hlim Hper) as [Hl Hin]. fold t l0 l1. cbv zeta.
      assert (Hq : forall v, (v - l0) / (l1 - l0) * (l1 - l0) + l0 = v)
        by (intros v; field; lra).
      rewrite Hq.
      destruct (log_scaled B t); [| reflexivity].
      apply exp_ln. tauto.
  - intros _. exact Hcanon.
Qed.

(** In the table [props_tumb], slot 3 holds the free, independent,
    non-periodic parameter L = 5 with the limits 0 and 10. *)
Lemma C2_codec_round_trip_witness :
  (PERIODIC K_sample = 1%Z /\ (3 < N_PARAMS)%nat /\
   P_frozen (props_tumb 3%nat) = 0%Z /\
   P_independent (props_tumb 3%nat) = 1%Z /\
   limits_tumb 0%nat T_L < limits_tumb 1%nat T_L /\
   limits_tumb 0%nat T_L <= params_tumb 0.5 3%nat <= limits_tumb 1%nat T_L) /\
  0 <= params2x B_default p2x_sample (fun _ => 0) (params_tumb 0.5)
         limits_tumb props_tumb types_tumb 3%nat <= 1.
Proof.
  assert (Hi : (3 < N_PARAMS)%nat) by (unfold N_PARAMS; lia).
  assert (Hl : limits_tumb 0%nat T_L < limits_tumb 1%nat T_L) by (simpl; lra).
  assert (Hp : limits_tumb 0%nat T_L <= params_tumb 0.5 3%nat
               <= limits_tumb 1%nat T_L) by (simpl; lra).
  split; [repeat split; try reflexivity; try assumption; apply Hp |].
  exact (proj1
           (C2_codec_round_trip K_sample B_default p2x_sample loc_sample
              (fun _ => 0) (params_tumb 0.5) (fun _ => 0) limits_tumb
              props_tumb types_tumb 3%nat eq_refl Hi eq_refl eq_refl
              ltac:(discriminate) ltac:(discriminate) ltac:(discriminate)
              (fun _ => conj Hl Hp))).
Defined.

(** C2 as the claim words it fails when another coordinate is out of
    range: in [props_tumb] with Es = 2 the slot 3 holds L = 5, free,
    independent and within its limits [0, 10]; Es is coded as 205/120 > 1
    in a slot bounded on both sides, so x2params returns 1 and decodes
    nothing: its array params[], here at 0 before the call, does not
    receive the value 5. *)
Lemma C2_counterexample :
  let x := params2x B_default p2x_sample (fun _ => 0) (params_tumb 2)
             limits_tumb props_tumb types_tumb in
  let r := x2params K_sample B_default loc_sample x (fun _ => 0) limits_tumb
             props_tumb types_tumb in
  (P_frozen (props_tumb 3%nat) = 0%Z /\
   P_independent (props_tumb 3%nat) = 1%Z /\
   limits_tumb 0%nat T_L <= params_tumb 2 3%nat <= limits_tumb 1%nat T_L) /\
  fst r = 1%Z /\ snd r 3%nat = 0 /\ snd r 3%nat <> params_tumb 2 3%nat.
Proof.
  intros x r.
  assert (Hrej : fst r = 1%Z).
  { unfold r.
    apply (proj1 (x2params_status K_sample B_default loc_sample x (fun _ => 0)
                    limits_tumb props_tumb types_tumb)).
    exists 6%nat. split; [unfold N_PARAMS; lia |].
    right. split.
    - unfold x. rewrite params2x_tumb_Es_2. lra.
    - left. reflexivity. }
  assert (Hkeep : snd r 3%nat = 0).
  { unfold r, x2params in *.
    destruct (check_limits K_sample props_tumb x (seq 0 N_PARAMS) false);
      [simpl in Hrej; discriminate | reflexivity]. }
  split; [simpl; repeat split; lra |].
  split; [exact Hrej |]. split; [exact Hkeep |].
  rewrite Hkeep. simpl. lra.
Qed.

(** ** Minima scoring *)

Lemma minima_score_range (N : nat) (Vbest : nat -> R) :
  (0 <= minima_score N Vbest <= 7)%Z.
Proof.
  unfold minima_score.
  repeat match goal with
         | |- context [if (N =? ?k)%nat then _ else _] =>
             destruct (N =? k)%nat
         end;
    repeat match goal with
           | |- context [if Rgeb ?a ?b then _ else _] => destruct (Rgeb a b)
           end; lia.
Qed.

(** One pass of the search for the deepest minimum over the entries
    a, ..., a+n-1. *)
Lemma deepest_scan (Vmin : nat -> R) :
  forall (n a : nat) (acc : R * option nat),
    (match snd acc with
     | None => fst acc = -1e30 /\ forall k, (k < a)%nat -> Vmin k <= -1e30
     | Some k => (k < a)%nat /\ fst acc = Vmin k /\ -1e30 < Vmin k
     end) ->
    match snd (fold_left
                 (fun (a : R * option nat) (k : nat) =>
                    if Rgtb (Vmin k) (fst a) then (Vmin k, Some k) else a)
                 (seq a n) acc) with
    | None => forall k, (k < a + n)%nat -> Vmin k <= -1e30
    | Some k => (k < a + n)%nat /\ -1e30 < Vmin k
    end.
Proof.
  induction n as [| n IH]; intros a acc Hacc.
  - simpl. rewrite Nat.add_0_r. destruct (snd acc); tauto.
  - simpl seq. simpl fold_left.
    replace (a + S n)%nat with (S a + n)%nat by lia.
    apply IH. clear IH. unfold Rgtb.
    destruct (Rltb (fst acc) (Vmin a)) eqn:Hgt.
    + apply Rltb_spec in Hgt. simpl snd. simpl fst.
      split; [lia |]. split; [reflexivity |].
      destruct (snd acc); [destruct Hacc as (_ & E & H) | destruct Hacc as (E & _)];
        lra.
    + apply Rltb_nspec in Hgt.
      destruct (snd acc) as [k |].
      * destruct Hacc as (Hk & E & H). split; [lia |]. split; assumption.
      * destruct Hacc as (E & H). split; [assumption |].
        intros k Hk. destruct (Nat.eq_dec k a) as [-> | Hne]; [lra |].
        apply H. lia.
Qed.

Lemma deepest_spec (N : nat) (Vmin : nat -> R) :
  match snd (deepest N Vmin) with
  | None => forall k, (k < N)%nat -> Vmin k <= -1e30
  | Some k => (k < N)%nat /\ -1e30 < Vmin k
  end.
Proof.
  unfold deepest.
  apply (deepest_scan Vmin N 0 (-1e30, None)).
  simpl. split; [reflexivity |]. intros k Hk. lia.
Qed.

(** The loop filling Vbest[] ends when as many entries of Vmin[] are above
    -1e30 as there are rounds. *)
Lemma deepest_loop_some :
  forall (js : list nat) (N : nat) (Vmin Vbest : nat -> R),
    (length js <= count_unmarked N (fun k => Rleb (Vmin k) (-1e30)))%nat ->
    exists Vb, deepest_loop js N Vmin Vbest = Some Vb.
Proof.
  induction js as [| j js IH]; intros N Vmin Vbest Hc.
  - exists Vbest. reflexivity.
  - simpl deepest_loop. simpl length in Hc.
    pose proof (deepest_spec N Vmin) as Hd.
    destruct (deepest N Vmin) as [Vmax [kmax |]]; simpl snd in Hd.
    + destruct Hd as [Hk Hv]. apply IH.
      assert (E : count_unmarked N (fun k => Rleb (upd Vmin kmax (-2e30) k) (-1e30))
                  = count_unmarked N
                      (upd (fun k => Rleb (Vmin k) (-1e30)) kmax true)).
      { apply count_unmarked_ext. intros k _. unfold upd.
        destruct (Nat.eqb k kmax); [apply Rleb_true; lra | reflexivity]. }
      rewrite E.
      pose proof (count_unmarked_upd N kmax (fun k => Rleb (Vmin k) (-1e30)) Hk
                    (Rleb_false _ _ Hv)).
      lia.
    + exfalso.
      destruct (count_unmarked_pos N (fun k => Rleb (Vmin k) (-1e30)) ltac:(lia))
        as (k & Hk & Hu).
      apply Rleb_nspec in Hu. specialize (Hd k Hk). lra.
Qed.

(** The value of the block after the loop: 0 without minima, otherwise -1
    or a score from 0 to 7, and a score when every recorded minimum is
    above -1e30. *)
Lemma minima_result_cases (m : minima) :
  (N_minima m = 0%nat -> minima_result m = 0) /\
  (minima_result m = -1 \/
   exists score, (0 <= score <= 7)%Z /\ minima_result m = IZR score) /\
  ((forall k, (k < N_minima m)%nat -> -1e30 < Vmin m k) ->
   exists score, (0 <= score <= 7)%Z /\ minima_result m = IZR score).
Proof.
  unfold minima_result.
  destruct (Nat.eqb_spec (N_minima m) 0) as [E0 | Hn0].
  - split; [intros _; lra |].
    split; [right |]; [| intros _]; exists 0%Z; (split; [lia | lra]).
  - split; [intros E; contradiction |].
    set (N_min := if (N_minima m <? 7)%nat then N_minima m else 7%nat).
    split.
    + destruct (deepest_loop (seq 0 N_min) (N_minima m) (Vmin m) (fun _ => 0))
        as [Vbest |]; [right | now left].
      exists (minima_score (N_minima m) Vbest).
      split; [apply minima_score_range | reflexivity].
    + intros Hall.
      destruct (deepest_loop_some (seq 0 N_min) (N_minima m) (Vmin m) (fun _ => 0))
        as (Vb & E).
      * rewrite length_seq, count_unmarked_all.
        -- unfold N_min. destruct (Nat.ltb_spec (N_minima m) 7); lia.
        -- intros k Hk. apply Rleb_false. now apply Hall.
      * rewrite E. exists (minima_score (N_minima m) Vb).
        split; [apply minima_score_range | reflexivity].
Qed.

(** With some minimum recorded and none of them above -1e30, the search
    for the deepest one finds nothing and the block returns -1. *)
Lemma minima_result_none (m : minima) :
  (0 < N_minima m)%nat ->
  (forall k, (k < N_minima m)%nat -> Vmin m k <= -1e30) ->
  minima_result m = -1.
Proof.
  intros Hn Hall. unfold minima_result.
  destruct (Nat.eqb_spec (N_minima m) 0) as [E | _]; [lia |].
  assert (EN : exists n', (if (N_minima m <? 7)%nat then N_minima m else 7%nat)
                          = S n').
  { destruct (Nat.ltb_spec (N_minima m) 7).
    - exists (N_minima m - 1)%nat. lia.
    - exists 6%nat. reflexivity. }
  destruct EN as (n' & ->). simpl seq. simpl deepest_loop.
  pose proof (deepest_spec (N_minima m) (Vmin m)) as Hd.
  destruct (deepest (N_minima m) (Vmin m)) as [Vmax [kmax |]]; simpl snd in Hd.
  - destruct Hd as [Hk Hv]. specialize (Hall kmax Hk). lra.
  - reflexivity.
Qed.

Lemma minima_upto_S (Vm : nat -> R) (sData : nat -> obs_data) (n : nat) :
  minima_upto Vm sData (S n)
  = (minima_upto Vm sData n + if tracked Vm sData n then 1 else 0)%nat.
Proof.
  unfold minima_upto. rewrite seq_S, filter_app, length_app. simpl.
  destruct (tracked Vm sData n); reflexivity.
Qed.

Lemma minima_upto_mono (Vm : nat -> R) (sData : nat -> obs_data) (a n : nat) :
  (minima_upto Vm sData a <= minima_upto Vm sData (a + n))%nat.
Proof.
  induction n as [| n IH].
  - rewrite Nat.add_0_r. lia.
  - replace (a + S n)%nat with (S (a + n)) by lia.
    rewrite minima_upto_S. lia.
Qed.

Section MinimaMode.

(** The data loop in minima-scoring mode (MINIMA_TEST, Nplot > 0) for a
    frame [fr], ODE parameters [mu], axes [b], [c], albedo [kappa] and
    initial angles [y0]; [Vm] is the modelled light curve. *)
Variables (K : macros) (B : build) (fr : mframe) (mu : R * R * R).
Variables (b c kappa : R) (y0 : R * R * R).
Variables (sData : nat -> obs_data) (delta_V : nat -> R) (Nplot : nat).
Hypothesis HB : MINIMA_TEST B = true.
Hypothesis HN : (0 < Nplot)%nat.

Let Vm (k : nat) : R :=
  model_magnitude B fr b c kappa (euler_at K mu y0 sData k) (sData k).

(** One data point. *)
Lemma data_point_minima (i : nat) (s : chi_state) :
  minima_state K Vm mu y0 sData (delta_V 0%nat) i s ->
  ((minima_upto Vm sData (S i) <= MAX_MINIMA K)%nat ->
   exists s',
     data_point K B fr mu b c kappa sData delta_V Nplot i s = inr s' /\
     minima_state K Vm mu y0 sData (delta_V 0%nat) (S i) s') /\
  ((MAX_MINIMA K < minima_upto Vm sData (S i))%nat ->
   data_point K B fr mu b c kappa sData delta_V Nplot i s = inl (-1)).
Proof.
  intros (Hrot & H1 & H2 & Hcnt & Hcap & Hrec).
  unfold data_point.
  assert (HNb : (0 <? Nplot)%nat = true) by now apply Nat.ltb_lt.
  rewrite HB, HNb. simpl andb. cbv iota.
  assert (Hy : (if (0 <? i)%nat
                then integrate K (MJD (sData (i - 1)%nat)) (MJD (sData i)) mu (rot s)
                else rot s) = euler_at K mu y0 sData i).
  { rewrite Hrot. destruct i as [| k]; [reflexivity |].
    simpl Nat.ltb. cbv iota. simpl euler_at.
    replace (S k - 1)%nat with k by lia. reflexivity. }
  rewrite Hy. fold (Vm i).
  rewrite minima_upto_S, <- Hcnt.
  unfold track_minima.
  destruct i as [| [| i]].
  - (* point 0 *)
    simpl Nat.ltb. cbv iota.
    unfold tracked. simpl Nat.leb. simpl andb. cbv iota.
    split; [| intros H; lia].
    intros _. eexists. split; [reflexivity |].
    unfold minima_state. simpl.
    split; [reflexivity |]. split; [intros _; apply upd_same |].
    split; [intros H; lia |].
    split; [rewrite minima_upto_S, <- Hcnt; unfold tracked; simpl; lia |].
    split; [assumption |].
    intros k Hk. destruct (Hrec k Hk) as (j & Hj & E). lia.
  - (* point 1 *)
    simpl Nat.ltb. cbv iota.
    unfold tracked. simpl Nat.leb. simpl andb. cbv iota.
    split; [| intros H; lia].
    intros _. eexists. split; [reflexivity |].
    unfold minima_state. simpl.
    split; [reflexivity |]. split; [intros H; lia |].
    split.
    { intros _. rewrite upd_other by lia. rewrite !upd_same.
      split; [apply H1; reflexivity |]. split; reflexivity. }
    split; [rewrite minima_upto_S, <- Hcnt; unfold tracked; simpl; lia |].
    split; [assumption |].
    intros k Hk. destruct (Hrec k Hk) as (j & Hj & E).
    exists j. split; [lia | assumption].
  - (* a point i >= 2 *)
    destruct (H2 ltac:(lia)) as (HV0 & HV1 & Ht1).
    replace (S (S i) - 2)%nat with i in HV0 by lia.
    replace (S (S i) - 1)%nat with (S i) in HV1, Ht1 by lia.
    change (S (S i) <? 0 + 2)%nat with false. cbv iota.
    assert (Htr : tracked Vm sData (S (S i))
                  = (Rgtb (V_old (mins s) 1%nat) (V_old (mins s) 0%nat)
                     && Rgeb (V_old (mins s) 1%nat) (Vm (S (S i))))
                    && covered (58051.044624 + t_old (mins s) 1%nat)).
    { unfold tracked. rewrite HV0, HV1, Ht1.
      replace (S (S i) - 2)%nat with i by lia.
      replace (S (S i) - 1)%nat with (S i) by lia.
      reflexivity. }
    rewrite Htr.
    destruct (Rgtb (V_old (mins s) 1%nat) (V_old (mins s) 0%nat)
              && Rgeb (V_old (mins s) 1%nat) (Vm (S (S i)))) eqn:Hpeak;
      simpl andb; cbv iota;
      [destruct (covered (58051.044624 + t_old (mins s) 1%nat)) eqn:Hcov |];
      cbv iota.
    + (* a tracked minimum *)
      destruct (Nat.ltb_spec (MAX_MINIMA K) (S (N_minima (mins s)))) as [Hfull | Hroom].
      * split; [intros H; lia | intros _; reflexivity].
      * split; [| intros H; lia].
        intros _. eexists. split; [reflexivity |].
        unfold minima_state. simpl.
        split; [reflexivity |]. split; [intros H; lia |].
        split.
        { intros _. rewrite !upd_same, upd_other by lia. rewrite upd_same.
          replace (S (S (S i)) - 2)%nat with (S i) by lia.
          replace (S (S (S i)) - 1)%nat with (S (S i)) by lia.
          split; [assumption |]. split; reflexivity. }
        split; [rewrite minima_upto_S, <- Hcnt, Htr; simpl; lia |].
        split; [lia |].
        intros k Hk. rewrite Nat.sub_0_r.
        destruct (Nat.eq_dec k (N_minima (mins s))) as [-> | Hne].
        -- rewrite upd_same. exists (S i). split; [lia |]. now rewrite HV1.
        -- rewrite upd_other by assumption.
           destruct (Hrec k ltac:(lia)) as (j & Hj & E).
           exists j. split; [lia | assumption].
    + (* a peak outside the covered intervals *)
      split; [| intros H; lia].
      intros _. eexists. split; [reflexivity |].
      unfold minima_state. simpl.
      split; [reflexivity |]. split; [intros H; lia |].
      split.
      { intros _. rewrite !upd_same, upd_other by lia. rewrite upd_same.
        replace (S (S (S i)) - 2)%nat with (S i) by lia.
        replace (S (S (S i)) - 1)%nat with (S (S i)) by lia.
        split; [assumption |]. split; reflexivity. }
      split; [rewrite minima_upto_S, <- Hcnt, Htr; simpl; lia |].
      split; [assumption |].
      intros k Hk. destruct (Hrec k Hk) as (j & Hj & E).
      exists j. split; [lia | assumption].
    + (* no peak *)
      split; [| intros H; lia].
      intros _. eexists. split; [reflexivity |].
      unfold minima_state. simpl.
      split; [reflexivity |]. split; [intros H; lia |].
      split.
      { intros _. rewrite !upd_same, upd_other by lia. rewrite upd_same.
        replace (S (S (S i)) - 2)%nat with (S i) by lia.
        replace (S (S (S i)) - 1)%nat with (S (S i)) by lia.
        split; [assumption |]. split; reflexivity. }
      split; [rewrite minima_upto_S, <- Hcnt, Htr; simpl; lia |].
      split; [assumption |].
      intros k Hk. destruct (Hrec k Hk) as (j & Hj & E).
      exists j. split; [lia | assumption].
Qed.

(** The points a, ..., a+n-1. *)
Lemma data_loop_minima :
  forall (n a : nat) (s : chi_state),
    minima_state K Vm mu y0 sData (delta_V 0%nat) a s ->
    ((minima_upto Vm sData (a + n) <= MAX_MINIMA K)%nat ->
     exists s',
       data_loop K B fr mu b c kappa sData delta_V Nplot (seq a n) s = inr s' /\
       minima_state K Vm mu y0 sData (delta_V 0%nat) (a + n) s') /\
    ((MAX_MINIMA K < minima_upto Vm sData (a + n))%nat ->
     data_loop K B fr mu b c kappa sData delta_V Nplot (seq a n) s = inl (-1)).
Proof.
  induction n as [| n IH]; intros a s Hs.
  - rewrite Nat.add_0_r. split.
    + intros _. exists s. split; [reflexivity | assumption].
    + intros H. destruct Hs as (_ & _ & _ & Hcnt & Hcap & _). lia.
  - simpl seq. simpl data_loop.
    replace (a + S n)%nat with (S a + n)%nat by lia.
    pose proof (minima_upto_mono Vm sData (S a) n) as Hmono.
    destruct (data_point_minima a s Hs) as [Hgo Hstop].
    destruct (Nat.le_gt_cases (minima_upto Vm sData (S a)) (MAX_MINIMA K))
      as [Hle | Hgt].
    + destruct (Hgo Hle) as (s1 & E & Hs1). rewrite E.
      apply IH. assumption.
    + rewrite (Hstop Hgt). split; [intros H; lia | intros _; reflexivity].
Qed.

End MinimaMode.

Lemma minima_state_start (K : macros) (Vm : nat -> R) (mu y0 : R * R * R)
    (sData : nat -> obs_data) (dV : R) (d_Vmod0 : nat -> R) :
  minima_state K Vm mu y0 sData dV 0 (initial_state y0 d_Vmod0).
Proof.
  unfold minima_state, initial_state. simpl.
  split; [reflexivity |]. split; [intros H; lia |]. split; [intros H; lia |].
  split; [reflexivity |]. split; [lia |]. intros k Hk. lia.
Qed.


(** *** A body at rest seen along its long axis *)

(** Without angular momentum the Euler angles do not move. *)
Lemma rk4_step_rest (h Ip Im : R) (y : R * R * R) :
  rk4_step h (0, Ip, Im) y = y.
Proof.
  destruct y as [[y0 y1] y2]. unfold rk4_step, ODE_func.
  f_equal; [f_equal |]; rewrite dec_2_0; unfold Rdiv; ring.
Qed.

Lemma integrate_rest (K : macros) (t1 t2 Ip Im : R) (y : R * R * R) :
  integrate K t1 t2 (0, Ip, Im) y = y.
Proof.
  unfold integrate.
  induction (Z.to_nat (N_steps_of K t1 t2)) as [| n IH]; [reflexivity |].
  simpl. rewrite IH. apply rk4_step_rest.
Qed.

Lemma euler_at_rest (K : macros) (Ip Im : R) (y0 : R * R * R)
    (sData : nat -> obs_data) (i : nat) :
  euler_at K (0, Ip, Im) y0 sData i = y0.
Proof.
  induction i as [| i IH]; [reflexivity |].
  simpl. rewrite IH. apply integrate_rest.
Qed.

(** The axes for the momentum along z and all Euler angles 0:
    a = z, b = x, c = y. *)
Lemma body_axes_zero :
  body_axes (momentum_frame 0 0) 0 0 0
  = {| a_x := 0; a_y := 0; a_z := 1;
       b_x := 1; b_y := 0; b_z := 0;
       c_x := 0; c_y := 1; c_z := 0 |}.
Proof.
  unfold body_axes, momentum_frame. simpl.
  rewrite sin_0, cos_0.
  replace (1 * 1 + 0 * 1 * (0 * 1)) with 1 by ring.
  rewrite sqrt_1.
  f_equal; field.
Qed.

Lemma ln_10_pos : 0 < ln 10.
Proof. rewrite <- ln_1. apply ln_increasing; lra. Qed.

(** The magnitude of the two-albedo ball of albedo 0.1 in that
    position: 0 when the Earth is along -z, 2.5 when it is along +z. *)
Lemma bw_magnitude_dark (ax : axes) :
  a_x ax = 0 -> a_y ax = 0 -> a_z ax = 1 ->
  Vmod_bw_ball ax 0 0 (-1) 0.1 = 0.
Proof.
  intros Hx Hy Hz. unfold Vmod_bw_ball, log10. rewrite Hx, Hy, Hz.
  replace (0.5 * (0.1 * (1 + (0 * 0 + 0 * 0 + 1 * -1))
                  + (1 - (0 * 0 + 0 * 0 + 1 * -1)))) with 1 by lra.
  rewrite ln_1. unfold Rdiv. ring.
Qed.

Lemma bw_magnitude_bright (ax : axes) :
  a_x ax = 0 -> a_y ax = 0 -> a_z ax = 1 ->
  Vmod_bw_ball ax 0 0 1 0.1 = 2.5.
Proof.
  intros Hx Hy Hz. unfold Vmod_bw_ball, log10. rewrite Hx, Hy, Hz.
  replace (0.5 * (0.1 * (1 + (0 * 0 + 0 * 0 + 1 * 1))
                  + (1 - (0 * 0 + 0 * 0 + 1 * 1)))) with (/ 10) by lra.
  rewrite ln_Rinv by lra.
  pose proof ln_10_pos. 
  replace (- ln 10 / ln 10) with (-1) by (field; lra). lra.
Qed.

Lemma initial_angles_bw : initial_angles params_bw types_bw = (0, 0, 0).
Proof.
  unfold initial_angles. simpl.
  replace (1 - 1.0) with 0 by lra.
  unfold Rdiv at 1. rewrite Rmult_0_l, sqrt_0, asin_0. reflexivity.
Qed.

(** The modelled light curve of [params_bw] over [obs_bw]: 0, 2.5, 0. *)
Lemma Vmod_at_bw (i : nat) :
  Vmod_at K_sample B_bw params_bw types_bw obs_bw i
  = match i with 1%nat => 2.5 | _ => 0 end.
Proof.
  unfold Vmod_at.
  assert (Hmu : ode_parameters params_bw types_bw
                = (0, snd (fst (ode_parameters params_bw types_bw)),
                   snd (ode_parameters params_bw types_bw))) by reflexivity.
  rewrite Hmu, euler_at_rest, initial_angles_bw.
  unfold model_magnitude. simpl types_bw. simpl params_bw.
  rewrite body_axes_zero. simpl BW_BALL. cbv iota.
  destruct i as [| [| i]]; simpl obs_bw; cbv [E_x E_y E_z a_x a_y a_z b_x b_y b_z c_x c_y c_z].
  - replace (1 * 0 + 0 * 0 + 0 * -1) with 0 by ring.
    replace (0 * 0 + 1 * 0 + 0 * -1) with 0 by ring.
    replace (0 * 0 + 0 * 0 + 1 * -1) with (-1) by ring.
    apply bw_magnitude_dark; reflexivity.
  - replace (1 * 0 + 0 * 0 + 0 * 1) with 0 by ring.
    replace (0 * 0 + 1 * 0 + 0 * 1) with 0 by ring.
    replace (0 * 0 + 0 * 0 + 1 * 1) with 1 by ring.
    apply bw_magnitude_bright; reflexivity.
  - replace (1 * 0 + 0 * 0 + 0 * -1) with 0 by ring.
    replace (0 * 0 + 1 * 0 + 0 * -1) with 0 by ring.
    replace (0 * 0 + 0 * 0 + 1 * -1) with (-1) by ring.
    apply bw_magnitude_dark; reflexivity.
Qed.

(** In minima-scoring mode, when no more than MAX_MINIMA minima are
    tracked, chi2one returns the value of the scoring block on the minima
    recorded by the data loop. *)
Lemma chi2one_minima (K : macros) (B : build) (params : nat -> R)
    (sData : nat -> obs_data) (N_data N_filters : nat) (delta_V : nat -> R)
    (Nplot : nat) (sTypes : ptype -> nat -> nat) (d_Vmod0 : nat -> R) :
  MINIMA_TEST B = true -> (0 < Nplot)%nat ->
  let Vm := Vmod_at K B params sTypes sData in
  (minima_upto Vm sData N_data <= MAX_MINIMA K)%nat ->
  exists m : minima,
    chi_value (chi2one K B params sData N_data N_filters delta_V Nplot
                 sTypes d_Vmod0) = minima_result m /\
    N_minima m = minima_upto Vm sData N_data /\
    forall k, (k < N_minima m)%nat ->
      exists j, (j < N_data)%nat /\ Vmin m k = Vm j + delta_V 0%nat.
Proof.
  intros HB HN Vm Hle.
  assert (HNb : (0 <? Nplot)%nat = true) by now apply Nat.ltb_lt.
  unfold chi2one.
  pose proof (data_loop_minima K B
                (momentum_frame (params (sTypes T_theta_M 0%nat))
                   (params (sTypes T_phi_M 0%nat)))
                (ode_parameters params sTypes)
                (params (sTypes T_b_tumb 0%nat)) (params (sTypes T_c_tumb 0%nat))
                (params (sTypes T_kappa 0%nat)) (initial_angles params sTypes)
                sData delta_V Nplot HB HN N_data 0
                (initial_state (initial_angles params sTypes) d_Vmod0)
                (minima_state_start _ _ _ _ _ _ _)) as [Hgo _].
  simpl Nat.add in Hgo.
  destruct (Hgo Hle) as (s & E & (_ & _ & _ & Hcnt & _ & Hrec)).
  rewrite E, HB, HNb. simpl andb. cbv iota. simpl chi_value.
  exists (mins s). split; [reflexivity |]. split; assumption.
Qed.

Lemma minima_upto_bw :
  minima_upto (Vmod_at K_sample B_bw params_bw types_bw obs_bw) obs_bw 3
  = 1%nat.
Proof.
  unfold minima_upto. simpl seq. simpl filter.
  unfold tracked. simpl Nat.leb. simpl andb. cbv iota.
  simpl Nat.sub. rewrite !Vmod_at_bw. simpl obs_bw. simpl MJD.
  unfold covered, Rgtb, Rgeb. Rcmp. reflexivity.
Qed.



(** ** Sorting the simplex *)

Lemma find_min_scan (f : nat -> R) (ind2 : nat -> bool) (top : R) :
  forall (n b : nat) (a : R * option nat),
    scanned f ind2 top b a ->
    scanned f ind2 top (b + n)
      (fold_left
         (fun (a : R * option nat) (j2 : nat) =>
            if negb (ind2 j2) && Rleb (f j2) (fst a) then (f j2, Some j2) else a)
         (seq b n) a).
Proof.
  induction n as [| n IH]; intros b a Ha.
  - simpl. now rewrite Nat.add_0_r.
  - simpl seq. simpl fold_left.
    replace (b + S n)%nat with (S b + n)%nat by lia.
    apply IH. clear IH.
    destruct (ind2 b) eqn:Hm; simpl negb; simpl andb.
    + (* b is marked: nothing changes *)
      unfold scanned in *. destruct (snd a) as [k |].
      * destruct Ha as (Hk & Hu & Hf & Ht & Hall).
        repeat split; try assumption; try lia.
        -- destruct (Nat.eq_dec j b) as [-> | Hne]; [congruence |].
           apply Hall; [lia | assumption].
        -- destruct (Nat.eq_dec j b) as [-> | Hne]; [congruence |].
           apply Hall; [lia | assumption].
      * destruct Ha as (Hf & Hall). split; [assumption |].
        intros j Hj Hu.
        destruct (Nat.eq_dec j b) as [-> | Hne]; [congruence |].
        apply Hall; [lia | assumption].
    + destruct (Rleb (f b) (fst a)) eqn:Hle.
      * (* b becomes the minimum *)
        apply Rleb_spec in Hle.
        unfold scanned in *. simpl snd. simpl fst.
        destruct (snd a) as [k |].
        -- destruct Ha as (Hk & Hu & Hf & Ht & Hall).
           split; [lia |]. split; [assumption |]. split; [reflexivity |].
           split; [lra |].
           intros j Hj Huj.
           destruct (Nat.eq_dec j b) as [-> | Hne]; [split; [lra | lia] |].
           destruct (Hall j ltac:(lia) Huj) as [H1 _].
           split; [lra | lia].
        -- destruct Ha as (Hf & Hall).
           split; [lia |]. split; [assumption |]. split; [reflexivity |].
           split; [lra |].
           intros j Hj Huj.
           destruct (Nat.eq_dec j b) as [-> | Hne]; [split; [lra | lia] |].
           specialize (Hall j ltac:(lia) Huj).
           split; [lra | lia].
      * (* b is above the minimum so far *)
        apply Rleb_nspec in Hle.
        unfold scanned in *. destruct (snd a) as [k |].
        -- destruct Ha as (Hk & Hu & Hf & Ht & Hall).
           split; [lia |]. split; [assumption |]. split; [assumption |].
           split; [assumption |].
           intros j Hj Huj.
           destruct (Nat.eq_dec j b) as [-> | Hne].
           ++ split; [lra |]. intros _. lra.
           ++ apply Hall; [lia | assumption].
        -- destruct Ha as (Hf & Hall). split; [assumption |].
           intros j Hj Huj.
           destruct (Nat.eq_dec j b) as [-> | Hne]; [lra |].
           apply Hall; [lia | assumption].
Qed.

Section Sort.

(** The sort of [nv] vertices of values [f], none above 1e30. *)
Variable nv : nat.
Variable f : nat -> R.
Hypothesis f_le : forall j, (j < nv)%nat -> f j <= 1e30.

Lemma find_min_scanned (ind2 : nat -> bool) :
  scanned f ind2 1e30 nv (find_min nv f ind2).
Proof.
  unfold find_min.
  apply (find_min_scan f ind2 1e30 nv 0%nat (1e30, None)).
  unfold scanned. simpl. split; [reflexivity |]. intros j Hj. lia.
Qed.

Lemma ranked_start (ind : nat -> nat) : ranked f nv 0 ind (fun _ => false).
Proof.
  unfold ranked. repeat split; try (intros; lia).
  rewrite Nat.add_0_r. apply count_unmarked_all. reflexivity.
Qed.

(** One round of the sort keeps [ranked]. *)
Lemma ranked_round (j0 : nat) (ind : nat -> nat) (ind2 : nat -> bool) :
  (j0 < nv)%nat ->
  ranked f nv j0 ind ind2 ->
  exists jmin,
    snd (find_min nv f ind2) = Some jmin /\
    ranked f nv (S j0) (upd ind j0 jmin) (upd ind2 jmin true).
Proof.
  intros Hj0 (Hc & Ha & Hd & Hs).
  pose proof (find_min_scanned ind2) as Hscan.
  unfold scanned in Hscan.
  destruct (snd (find_min nv f ind2)) as [jmin |].
  - destruct Hscan as (Hk & Hu & _ & _ & Hall).
    exists jmin. split; [reflexivity |].
    unfold ranked. split; [| split; [| split]].
    + pose proof (count_unmarked_upd nv jmin ind2 Hk Hu). lia.
    + intros p Hp. destruct (Nat.eq_dec p j0) as [-> | Hne].
      * rewrite !upd_same. split; [assumption | reflexivity].
      * rewrite (upd_other ind) by assumption.
        destruct (Ha p ltac:(lia)) as [H1 H2]. split; [assumption |].
        unfold upd. destruct (Nat.eqb (ind p) jmin); [reflexivity | assumption].
    + intros p k Hp Hkn Huk.
      assert (Hkm : k <> jmin).
      { intros ->. rewrite upd_same in Huk. discriminate. }
      rewrite upd_other in Huk by assumption.
      destruct (Nat.eq_dec p j0) as [-> | Hne].
      * rewrite upd_same. apply Hall; assumption.
      * rewrite upd_other by assumption. apply Hd; [lia | assumption | assumption].
    + intros p q [Hpq Hq].
      rewrite (upd_other ind j0 p) by lia.
      destruct (Nat.eq_dec q j0) as [-> | Hne].
      * rewrite upd_same.
        destruct (Hd p jmin ltac:(lia) Hk Hu) as [H1 H2].
        split; [assumption |]. split; [assumption |].
        intros E. destruct (Ha p ltac:(lia)) as [_ Hm]. congruence.
      * rewrite upd_other by assumption. apply Hs. lia.
  - exfalso. destruct Hscan as (_ & Hall).
    destruct (count_unmarked_pos nv ind2 ltac:(lia)) as (k & Hk & Hu).
    specialize (Hall k Hk Hu). specialize (f_le k Hk). lra.
Qed.

(** The sort runs all its rounds, leaves f[] as it was, and ends in a
    [ranked] state. *)
Lemma sort_loop_ranked :
  forall (n j0 : nat) (ind : nat -> nat) (ind2 : nat -> bool),
    (j0 + n = nv)%nat ->
    ranked f nv j0 ind ind2 ->
    exists ind' ind2',
      sort_loop nv (seq j0 n) (f, ind, ind2) = (f, ind', ind2') /\
      ranked f nv nv ind' ind2'.
Proof.
  induction n as [| n IH]; intros j0 ind ind2 Hn Hr.
  - exists ind, ind2. simpl. rewrite Nat.add_0_r in Hn. rewrite <- Hn.
    split; [reflexivity |]. rewrite <- Hn in Hr. assumption.
  - simpl seq. simpl sort_loop.
    destruct (ranked_round j0 ind ind2 ltac:(lia) Hr) as (jmin & E & Hr').
    rewrite E. apply IH; [lia | assumption].
Qed.

(** The ranks given in earlier rounds are kept. *)
Lemma sort_loop_keeps :
  forall (n j0 : nat) (f1 : nat -> R) (ind : nat -> nat) (ind2 : nat -> bool)
         (p : nat),
    (p < j0)%nat ->
    snd (fst (sort_loop nv (seq j0 n) (f1, ind, ind2))) p = ind p.
Proof.
  induction n as [| n IH]; intros j0 f1 ind ind2 p Hp; [reflexivity |].
  simpl seq. simpl sort_loop.
  destruct (snd (find_min nv f1 ind2)) as [jmin |]; [| reflexivity].
  rewrite IH by lia. apply upd_other. lia.
Qed.

End Sort.

(** C7, as the code has it: when the fit values of the N_PARAMS+1
    vertices are at most 1e30, the sort ranks all of them by ascending
    value and leaves the values untouched; two vertices of equal value are
    ranked in the order opposite to their indices -- the scan compares with
    [<=], so the last tied vertex it meets is ranked first. *)
Theorem C7_ties_last_found (f : nat -> R) (ind0 : nat -> nat) :
  (forall j, (j < N_PARAMS + 1)%nat -> f j <= 1e30) ->
  exists ind',
    sort_simplex (N_PARAMS + 1) f ind0 = (f, ind') /\
    (forall p, (p < N_PARAMS + 1)%nat -> (ind' p < N_PARAMS + 1)%nat) /\
    (forall p q, (p < q < N_PARAMS + 1)%nat ->
       ind' p <> ind' q /\
       f (ind' p) <= f (ind' q) /\
       (f (ind' p) = f (ind' q) -> (ind' q < ind' p)%nat)).
Proof.
  intros Hf.
  destruct (sort_loop_ranked (N_PARAMS + 1) f Hf (N_PARAMS + 1) 0 ind0
              (fun _ => false) eq_refl (ranked_start (N_PARAMS + 1) f ind0))
    as (ind' & ind2' & E & (_ & Ha & _ & Hs)).
  exists ind'. unfold sort_simplex. rewrite E. split; [reflexivity |].
  split.
  - intros p Hp. apply Ha. assumption.
  - intros p q Hpq. destruct (Hs p q Hpq) as (H1 & H2 & H3).
    split; [assumption |]. split; [assumption |].
    intros Heq.
    destruct (Nat.lt_trichotomy (ind' p) (ind' q)) as [Hlt | [Heq' | Hgt]].
    + specialize (H2 Hlt). lra.
    + contradiction.
    + assumption.
Qed.

(** The values 1, 1, 2, 3, 4, 5, 6, 7 are all at most 1e30, so the theorem
    applies to them. *)
Lemma C7_ties_last_found_witness :
  (forall j, (j < N_PARAMS + 1)%nat -> f_tie j <= 1e30) /\
  (exists ind',
     sort_simplex (N_PARAMS + 1) f_tie (fun _ => 0%nat) = (f_tie, ind') /\
     (forall p, (p < N_PARAMS + 1)%nat -> (ind' p < N_PARAMS + 1)%nat) /\
     (forall p q, (p < q < N_PARAMS + 1)%nat ->
        ind' p <> ind' q /\
        f_tie (ind' p) <= f_tie (ind' q) /\
        (f_tie (ind' p) = f_tie (ind' q) -> (ind' q < ind' p)%nat))).
Proof.
  assert (Hf : forall j, (j < N_PARAMS + 1)%nat -> f_tie j <= 1e30).
  { intros j Hj. unfold f_tie.
    do 7 (destruct j as [| j]; [lra |]). lra. }
  split; [exact Hf |].
  exact (C7_ties_last_found f_tie (fun _ => 0%nat) Hf).
Defined.

Lemma f_tie_round0 :
  find_min (N_PARAMS + 1) f_tie (fun _ => false) = (1, Some 1%nat).
Proof.
  unfold find_min, N_PARAMS, f_tie. simpl seq.
  do 8 fold_step. reflexivity.
Qed.

Lemma f_tie_round1 :
  find_min (N_PARAMS + 1) f_tie (upd (fun _ => false) 1 true)
  = (1, Some 0%nat).
Proof.
  unfold find_min, N_PARAMS, f_tie. simpl seq.
  do 8 fold_step. reflexivity.
Qed.

(** C7 as the claim words it fails: on the values 1, 1, 2, 3, 4, 5, 6, 7
    the vertices 0 and 1 are tied, and the sort ranks vertex 1 first and
    vertex 0 second. *)
Lemma C7_counterexample :
  f_tie 0%nat = f_tie 1%nat /\
  snd (sort_simplex (N_PARAMS + 1) f_tie (fun _ => 0%nat)) 0%nat = 1%nat /\
  snd (sort_simplex (N_PARAMS + 1) f_tie (fun _ => 0%nat)) 1%nat = 0%nat.
Proof.
  split; [reflexivity |].
  unfold sort_simplex.
  change (seq 0 (N_PARAMS + 1)) with (0%nat :: 1%nat :: seq 2 6).
  cbn [sort_loop]. rewrite f_tie_round0. cbn [snd].
  rewrite f_tie_round1. cbn [snd].
  rewrite !(sort_loop_keeps (N_PARAMS + 1)) by lia.
  split; reflexivity.
Qed.

(** ** The centroid of the simplex *)

Lemma centroid_all (x : nat -> nat -> R) (i : nat) :
  centroid x i
  = (x 0%nat i + x 1%nat i + x 2%nat i + x 3%nat i
     + x 4%nat i + x 5%nat i + x 6%nat i + x 7%nat i) / 8.
Proof.
  unfold centroid, N_PARAMS. simpl Nat.add.
  rewrite !sum_upto_S, sum_upto_0.
  replace (INR 8) with 8 by (simpl; lra). lra.
Qed.

(** C6, as the code has it: the base point x0 of the reflection, the
    expansion and the contraction is the mean of all N_PARAMS+1 vertices,
    the worst one included.  It is the spec's centroid (the mean of the
    vertices other than the worst) moved one part in N_PARAMS+1 toward the
    worst vertex, and coincides with it on a coordinate only when the
    worst vertex does.  On every coordinate that is not frozen the three
    moves are taken from x0. *)
Theorem C6_centroid_of_all_vertices (K : macros) (sProperty : nat -> property)
    (x : nat -> nat -> R) (ind : nat -> nat) (x_r junk : nat -> R) (i : nat) :
  (ind N_PARAMS < N_PARAMS + 1)%nat ->
  let x0 := centroid x i in
  let worst := x (ind N_PARAMS) i in
  let c := centroid_excluding_worst x ind i in
  x0 = (x 0%nat i + x 1%nat i + x 2%nat i + x 3%nat i
        + x 4%nat i + x 5%nat i + x 6%nat i + x 7%nat i) / 8 /\
  x0 = (7 * c + worst) / 8 /\
  (x0 = c <-> worst = c) /\
  (P_frozen (sProperty i) <> 1%Z ->
   reflection K sProperty x ind junk i = x0 + ALPHA_SIM K * (x0 - worst) /\
   expansion K sProperty x x_r junk i = x0 + GAMMA_SIM K * (x_r i - x0) /\
   contraction K sProperty x ind x_r i = x0 + RHO_SIM K * (worst - x0)).
Proof.
  intros Hw x0 worst c.
  assert (H7 : INR N_PARAMS = 7) by (unfold N_PARAMS; simpl; lra).
  assert (H8 : INR (N_PARAMS + 1) = 8) by (unfold N_PARAMS; simpl; lra).
  assert (Hc : x0 = (7 * c + worst) / 8).
  { unfold x0, c, worst, centroid, centroid_excluding_worst.
    rewrite (sum_upto_split (N_PARAMS + 1) (ind N_PARAMS) (fun j => x j i) Hw).
    rewrite H7, H8. field. }
  split; [apply centroid_all |]. split; [exact Hc |].
  split; [split; intros E; lra |].
  intros Hfr.
  assert (Hb : negb (P_frozen (sProperty i) =? 1)%Z = true).
  { apply negb_true_iff. now apply Z.eqb_neq. }
  unfold reflection, expansion, contraction, move. rewrite Hb.
  repeat split; reflexivity.
Qed.

(** In the simplex [x_far] ranked 0, ..., 7 the worst vertex is vertex 7,
    which is one of the N_PARAMS+1 vertices. *)
Lemma C6_centroid_of_all_vertices_witness :
  (ind_id N_PARAMS < N_PARAMS + 1)%nat /\
  centroid x_far 0%nat
  = (7 * centroid_excluding_worst x_far ind_id 0%nat
     + x_far (ind_id N_PARAMS) 0%nat) / 8.
Proof.
  assert (Hw : (ind_id N_PARAMS < N_PARAMS + 1)%nat)
    by (unfold ind_id, N_PARAMS; lia).
  split; [exact Hw |].
  exact (proj1 (proj2
           (C6_centroid_of_all_vertices K_sample (sProperty sh_sample) x_far
              ind_id (fun _ => 0) (fun _ => 0) 0%nat Hw))).
Defined.

(** C6 as the claim words it fails: in [x_far], with vertex 7 the worst,
    the code's base point on the first axis is 1 while the centroid of the
    other seven vertices is 0; with ALPHA_SIM = 1 the reflected point is
    at -6, not at -8. *)
Lemma C6_counterexample :
  centroid x_far 0%nat = 1 /\
  centroid_excluding_worst x_far ind_id 0%nat = 0 /\
  reflection K_sample (sProperty sh_sample) x_far ind_id (fun _ => 0) 0%nat
  = -6 /\
  centroid x_far 0%nat <> centroid_excluding_worst x_far ind_id 0%nat.
Proof.
  assert (E1 : centroid x_far 0%nat = 1).
  { rewrite centroid_all. unfold x_far. lra. }
  assert (E2 : centroid_excluding_worst x_far ind_id 0%nat = 0).
  { unfold centroid_excluding_worst, ind_id, N_PARAMS. simpl Nat.add.
    rewrite !sum_upto_S, sum_upto_0. unfold x_far. simpl Nat.eqb. cbv iota.
    simpl INR. lra. }
  split; [exact E1 |]. split; [exact E2 |]. split.
  - unfold reflection, move. rewrite E1.
    unfold ind_id, N_PARAMS, x_far, sh_sample, K_sample. simpl. lra.
  - rewrite E1, E2. lra.
Qed.

(** ** The block reduction and the stored result *)

Lemma reduction_scan (s_f : nat -> R) (top : R) :
  forall (n b : nat) (a : nat * R),
    reduced s_f top b a ->
    reduced s_f top (b + n)
      (fold_left
         (fun (a : nat * R) (j : nat) =>
            if Rltb (s_f j) (snd a) then (j, s_f j) else a)
         (seq b n) a).
Proof.
  induction n as [| n IH]; intros b a Ha.
  - simpl. now rewrite Nat.add_0_r.
  - simpl seq. simpl fold_left.
    replace (b + S n)%nat with (S b + n)%nat by lia.
    apply IH. clear IH.
    destruct (Rltb (s_f b) (snd a)) eqn:Hlt.
    + apply Rltb_spec in Hlt. right. simpl fst. simpl snd.
      destruct Ha as [[-> Hall] | (Hk & Hs & Ht & Hall & Hfirst)].
      * simpl snd in Hlt.
        repeat split; try lia; try lra.
        -- intros j Hj. destruct (Nat.eq_dec j b) as [-> | Hne]; [lra |].
           specialize (Hall j ltac:(lia)). lra.
        -- intros j Hj. specialize (Hall j ltac:(lia)). lra.
      * repeat split; try lia; try lra.
        -- intros j Hj. destruct (Nat.eq_dec j b) as [-> | Hne]; [lra |].
           specialize (Hall j ltac:(lia)). lra.
        -- intros j Hj. specialize (Hall j ltac:(lia)). lra.
    + apply Rltb_nspec in Hlt.
      destruct Ha as [[-> Hall] | (Hk & Hs & Ht & Hall & Hfirst)].
      * left. split; [reflexivity |]. simpl snd in Hlt.
        intros j Hj. destruct (Nat.eq_dec j b) as [-> | Hne]; [lra |].
        apply Hall. lia.
      * right. repeat split; try lia; try lra; try assumption.
        intros j Hj. destruct (Nat.eq_dec j b) as [-> | Hne]; [lra |].
        apply Hall. lia.
Qed.

Lemma reduction_reduced (K : macros) (s_f : nat -> R) (blockDim : nat) :
  reduced s_f (HUGE K) blockDim (reduction K s_f blockDim).
Proof.
  unfold reduction.
  apply (reduction_scan s_f (HUGE K) blockDim 0%nat (0%nat, HUGE K)).
  left. split; [reflexivity |]. intros j Hj. lia.
Qed.

Lemma s_f_of_failed (t : thread) : th_failed t = true -> s_f_of t = 1e30.
Proof. intros H. unfold s_f_of. now rewrite H. Qed.

(** The stored value after [store_best] is the old one or a strictly
    smaller block minimum; the record changes only in the second case. *)
Lemma store_best_cases (K : macros) (B : build) (loc : x2p_locals)
    (sh : shared) (blockDim : nat) (threads : nat -> thread) (old : best) :
  let smin := snd (reduction K (fun j => s_f_of (threads j)) blockDim) in
  store_best K B loc sh blockDim threads old = old \/
  (smin < d_f old /\
   d_f (store_best K B loc sh blockDim threads old) = smin).
Proof.
  unfold store_best.
  destruct (reduction K (fun j => s_f_of (threads j)) blockDim) as [tm smin].
  simpl snd.
  destruct ((tm <? blockDim)%nat); simpl andb; [| now left].
  destruct (Rltb smin (d_f old)) eqn:Hlt; [| now left].
  apply Rltb_spec in Hlt. right. split; [assumption | reflexivity].
Qed.

Lemma store_best_le (K : macros) (B : build) (loc : x2p_locals)
    (sh : shared) (blockDim : nat) (threads : nat -> thread) (old : best) :
  d_f (store_best K B loc sh blockDim threads old) <= d_f old.
Proof.
  destruct (store_best_cases K B loc sh blockDim threads old)
    as [-> | [Hlt ->]]; lra.
Qed.

Lemma launches_le (K : macros) (B : build) (loc : x2p_locals)
    (sh : shared) (blockDim : nat) (runs : list (nat -> thread)) :
  forall b : best, d_f (launches K B loc sh blockDim runs b) <= d_f b.
Proof.
  unfold launches. induction runs as [| th runs IH]; intros b; simpl.
  - lra.
  - eapply Rle_trans; [apply IH |]. apply store_best_le.
Qed.

Lemma launches_app (K : macros) (B : build) (loc : x2p_locals)
    (sh : shared) (blockDim : nat) (runs1 runs2 : list (nat -> thread))
    (b : best) :
  launches K B loc sh blockDim (runs1 ++ runs2) b
  = launches K B loc sh blockDim runs2 (launches K B loc sh blockDim runs1 b).
Proof. unfold launches. apply fold_left_app. Qed.

(** C4: for a block of blockDim threads, with HUGE at least the sentinel
    1e30.  (1) [store_best] leaves the record as it was unless the block
    minimum is strictly below the stored value, which it then becomes.
    (2) When some thread is below HUGE, the reduction returns a thread of
    least value, and every thread of lower index is strictly above it.
    (3) Along any sequence of launches the stored value never increases.
    (4) After setup_kernel and any launches the stored value is at most
    1e30, and a launch whose selected thread failed -- its value is the
    sentinel 1e30 -- leaves the record as it was. *)
Theorem C4_best_monotone (K : macros) (B : build) (loc : x2p_locals)
    (sh : shared) (blockDim : nat) :
  1e30 <= HUGE K ->
  (forall threads old,
     let smin := snd (reduction K (fun j => s_f_of (threads j)) blockDim) in
     store_best K B loc sh blockDim threads old = old \/
     (smin < d_f old /\
      d_f (store_best K B loc sh blockDim threads old) = smin)) /\
  (forall s_f,
     (exists j, (j < blockDim)%nat /\ s_f j < HUGE K) ->
     let thread_min := fst (reduction K s_f blockDim) in
     let smin := snd (reduction K s_f blockDim) in
     (thread_min < blockDim)%nat /\ smin = s_f thread_min /\
     (forall j, (j < blockDim)%nat -> smin <= s_f j) /\
     (forall j, (j < thread_min)%nat -> smin < s_f j)) /\
  (forall runs1 runs2 b,
     d_f (launches K B loc sh blockDim (runs1 ++ runs2) b)
     <= d_f (launches K B loc sh blockDim runs1 b)) /\
  (forall runs b0 threads,
     let b := launches K B loc sh blockDim runs (setup_kernel b0) in
     d_f b <= 1e30 /\
     (th_failed
        (threads (fst (reduction K (fun j => s_f_of (threads j)) blockDim)))
      = true ->
      store_best K B loc sh blockDim threads b = b)).
Proof.
  intros HH. split; [| split; [| split]].
  - intros threads old. apply store_best_cases.
  - intros s_f (j0 & Hj0 & Hlt) thread_min smin.
    destruct (reduction_reduced K s_f blockDim)
      as [[E Hall] | (Hk & Hs & Ht & Hall & Hfirst)].
    + specialize (Hall j0 Hj0). lra.
    + repeat split; assumption.
  - intros runs1 runs2 b. rewrite launches_app. apply launches_le.
  - intros runs b0 threads b.
    assert (Hb : d_f b <= 1e30).
    { unfold b. eapply Rle_trans; [apply launches_le |]. simpl. lra. }
    split; [exact Hb |].
    intros Hfail.
    destruct (store_best_cases K B loc sh blockDim threads b) as [E | [Hlt _]];
      [exact E | exfalso].
    destruct (reduction_reduced K (fun j => s_f_of (threads j)) blockDim)
      as [[E Hall] | (Hk & Hs & Ht & Hall & Hfirst)].
    + rewrite E in Hlt. simpl snd in Hlt. lra.
    + cbv beta in Hs. rewrite Hs, (s_f_of_failed _ Hfail) in Hlt. lra.
Qed.

(** With HUGE = 1e38, above the sentinel: after setup_kernel and a launch
    of [block_mixed], a launch in which every thread failed leaves the
    stored record as it was. *)
Lemma C4_best_monotone_witness :
  1e30 <= HUGE K_sample /\
  (let b := launches K_sample B_default loc_sample sh_sample 2 [block_mixed]
              (setup_kernel best_empty) in
   d_f b <= 1e30 /\
   store_best K_sample B_default loc_sample sh_sample 2 block_failed b = b).
Proof.
  assert (HH : 1e30 <= HUGE K_sample) by (simpl; lra).
  split; [exact HH |].
  destruct (proj2 (proj2 (proj2
              (C4_best_monotone K_sample B_default loc_sample sh_sample 2 HH)))
              [block_mixed] best_empty block_failed) as [Hle Hkeep].
  split; [exact Hle | exact (Hkeep eq_refl)].
Defined.

(** ** chi2one in plot mode *)

Section PlotMode.

(** The data loop in plot mode (Nplot > 0) of a build without
    MINIMA_TEST. *)
Variables (K : macros) (B : build) (fr : mframe) (mu : R * R * R).
Variables (b c kappa : R) (y0 : R * R * R).
Variables (sData : nat -> obs_data) (delta_V : nat -> R) (Nplot : nat).
Variable d_Vmod0 : nat -> R.
Hypothesis HB : MINIMA_TEST B = false.
Hypothesis HN : (0 < Nplot)%nat.

Lemma data_point_plot (i : nat) (s : chi_state) :
  plot_state K
    (fun k =>
       model_magnitude B fr b c kappa (euler_at K mu y0 sData k)
         (sData k))
    mu y0 sData (delta_V 0%nat) d_Vmod0 i s ->
  exists s',
    data_point K B fr mu b c kappa sData delta_V Nplot i s = inr s' /\
    plot_state K
      (fun k =>
         model_magnitude B fr b c kappa (euler_at K mu y0 sData k)
           (sData k))
      mu y0 sData (delta_V 0%nat) d_Vmod0 (S i) s'.
Proof.
  intros [Hrot Hd].
  unfold data_point. rewrite HB.
  destruct (Nat.ltb_spec 0 Nplot) as [_ | Hc]; [| lia].
  cbn [andb].
  assert (Hy : (if (0 <? i)%nat
                then integrate K (MJD (sData (i - 1)%nat)) (MJD (sData i)) mu (rot s)
                else rot s) = euler_at K mu y0 sData i).
  { rewrite Hrot. destruct i as [| k]; [reflexivity |].
    simpl Nat.ltb. cbv iota. simpl euler_at.
    replace (S k - 1)%nat with k by lia. reflexivity. }
  rewrite Hy.
  eexists. split; [reflexivity |].
  split; [reflexivity |].
  intros j. cbn [d_Vmod]. unfold upd.
  destruct (Nat.eqb_spec j i) as [-> | Hne].
  - destruct (Nat.ltb_spec i (S i)); [reflexivity | lia].
  - rewrite Hd.
    destruct (Nat.ltb_spec j i); destruct (Nat.ltb_spec j (S i));
      try reflexivity; lia.
Qed.

Lemma data_loop_plot :
  forall (n a : nat) (s : chi_state),
    plot_state K
      (fun k =>
         model_magnitude B fr b c kappa (euler_at K mu y0 sData k)
           (sData k))
      mu y0 sData (delta_V 0%nat) d_Vmod0 a s ->
    exists s',
      data_loop K B fr mu b c kappa sData delta_V Nplot (seq a n) s = inr s' /\
      plot_state K
        (fun k =>
           model_magnitude B fr b c kappa (euler_at K mu y0 sData k)
             (sData k))
        mu y0 sData (delta_V 0%nat) d_Vmod0 (a + n) s'.
Proof.
  induction n as [| n IH]; intros a s Hs.
  - exists s. rewrite Nat.add_0_r. split; [reflexivity | assumption].
  - simpl seq. simpl data_loop.
    destruct (data_point_plot a s Hs) as (s1 & E & Hs1).
    rewrite E. replace (a + S n)%nat with (S a + n)%nat by lia.
    apply IH. assumption.
Qed.

End PlotMode.

(** In a MINIMA_TEST build no data point writes d_Vmod[]. *)
Lemma data_loop_keeps_d_Vmod (K : macros) (B : build) (fr : mframe)
    (mu : R * R * R) (b c kappa : R) (sData : nat -> obs_data)
    (delta_V : nat -> R) (Nplot : nat) :
  MINIMA_TEST B = true -> (0 < Nplot)%nat ->
  forall (points : list nat) (s s' : chi_state),
    data_loop K B fr mu b c kappa sData delta_V Nplot points s = inr s' ->
    d_Vmod s' = d_Vmod s.
Proof.
  intros HB HN. induction points as [| i rest IH]; intros s s' E.
  - simpl in E. now inversion E.
  - simpl in E.
    destruct (data_point K B fr mu b c kappa sData delta_V Nplot i s)
      as [r | s1] eqn:E1; [discriminate |].
    rewrite (IH _ _ E).
    unfold data_point in E1. rewrite HB in E1.
    destruct (Nat.ltb_spec 0 Nplot) as [_ | Hc]; [| lia].
    cbn [andb] in E1.
    destruct (track_minima _ _ _ _ _ _) as [r | m']; [discriminate |].
    inversion E1. reflexivity.
Qed.

(** What a call in plot mode leaves, in a build without MINIMA_TEST. *)
Lemma chi2one_plot_spec (K : macros) (B : build) (params : nat -> R)
    (sData : nat -> obs_data) (N_data N_filters : nat) (delta_V : nat -> R)
    (Nplot : nat) (sTypes : ptype -> nat -> nat) (d_Vmod0 : nat -> R) :
  (0 < Nplot)%nat -> MINIMA_TEST B = false ->
  let r := chi2one K B params sData N_data N_filters delta_V Nplot sTypes
             d_Vmod0 in
  chi_value r = 0 /\
  forall i, chi_d_Vmod r i
            = if (i <? N_data)%nat
              then Vmod_at K B params sTypes sData i + delta_V 0%nat
              else d_Vmod0 i.
Proof.
  intros HN HB r. unfold r, chi2one.
  set (fr := momentum_frame _ _).
  set (mu := ode_parameters params sTypes).
  set (y0 := initial_angles params sTypes).
  set (b := params (sTypes T_b_tumb 0%nat)).
  set (c := params (sTypes T_c_tumb 0%nat)).
  set (kappa := params (sTypes T_kappa 0%nat)).
  destruct (Nat.ltb_spec 0 Nplot) as [_ | Hc]; [| lia].
  rewrite HB. cbn [andb].
  assert (H0 : plot_state K
                 (fun k => model_magnitude B fr b c kappa
                             (euler_at K mu y0 sData k) (sData k))
                 mu y0 sData (delta_V 0%nat) d_Vmod0 0
                 (initial_state y0 d_Vmod0)).
  { split; [reflexivity |]. intros j. reflexivity. }
  destruct (data_loop_plot K B fr mu b c kappa y0 sData delta_V Nplot
              d_Vmod0 HB HN N_data 0 _ H0) as (s & E & _ & Hd).
  rewrite E. cbn [chi_value chi_d_Vmod]. simpl Nat.add in Hd.
  split; [apply dec_0_0 | exact Hd].
Qed.

(** A call in plot mode does not write delta_V[]. *)
Lemma chi2one_plot_delta_V (K : macros) (B : build) (params : nat -> R)
    (sData : nat -> obs_data) (N_data N_filters : nat) (delta_V : nat -> R)
    (Nplot : nat) (sTypes : ptype -> nat -> nat) (d_Vmod0 : nat -> R) :
  (0 < Nplot)%nat ->
  chi_delta_V (chi2one K B params sData N_data N_filters delta_V Nplot sTypes
                 d_Vmod0) = delta_V.
Proof.
  intros HN. unfold chi2one.
  destruct (Nat.ltb_spec 0 Nplot) as [_ | Hc]; [| lia].
  destruct (data_loop _ _ _ _ _ _ _ _ _ _ _ _) as [v | s]; [reflexivity |].
  destruct (MINIMA_TEST B); reflexivity.
Qed.

(** X1: plot mode.  Called with Nplot > 0, chi2one never writes
    delta_V[].  In a build without MINIMA_TEST it returns 0 and writes to
    d_Vmod[i], for every data point i < N_data and no other index, the
    modelled magnitude of the point shifted by delta_V[0].  In a
    MINIMA_TEST build it leaves d_Vmod[] as it was. *)
Theorem X1_chi2one_plot (K : macros) (B : build) (params : nat -> R)
    (sData : nat -> obs_data) (N_data N_filters : nat) (delta_V : nat -> R)
    (Nplot : nat) (sTypes : ptype -> nat -> nat) (d_Vmod0 : nat -> R) :
  (0 < Nplot)%nat ->
  let r := chi2one K B params sData N_data N_filters delta_V Nplot sTypes
             d_Vmod0 in
  chi_delta_V r = delta_V /\
  (MINIMA_TEST B = false ->
   chi_value r = 0 /\
   (forall i, (i < N_data)%nat ->
      chi_d_Vmod r i = Vmod_at K B params sTypes sData i + delta_V 0%nat) /\
   (forall i, (N_data <= i)%nat -> chi_d_Vmod r i = d_Vmod0 i)) /\
  (MINIMA_TEST B = true -> chi_d_Vmod r = d_Vmod0).
Proof.
  intros HN r. split; [| split].
  - now apply chi2one_plot_delta_V.
  - intros HB.
    destruct (chi2one_plot_spec K B params sData N_data N_filters delta_V
                Nplot sTypes d_Vmod0 HN HB) as [Hv Hd].
    split; [exact Hv |]. split; intros i Hi; unfold r; rewrite Hd.
    + destruct (Nat.ltb_spec i N_data); [reflexivity | lia].
    + destruct (Nat.ltb_spec i N_data); [lia | reflexivity].
  - intros HB. unfold r, chi2one. rewrite HB.
    destruct (Nat.ltb_spec 0 Nplot) as [_ | Hc]; [| lia].
    cbn [andb].
    destruct (data_loop _ _ _ _ _ _ _ _ _ _ _ _) as [v | s] eqn:E;
      [reflexivity |].
    cbn [chi_d_Vmod].
    exact (data_loop_keeps_d_Vmod K B _ _ _ _ _ sData delta_V Nplot
             HB HN _ _ _ E).
Qed.

(** Three plot points in a build without MINIMA_TEST. *)
Lemma X1_chi2one_plot_witness :
  (0 < 3)%nat /\
  chi_value (chi2one K_sample B_default (fun _ => 0.5) (sData sh_sample) 3 1
               (fun _ => 0) 3 (sTypes sh_sample) (fun _ => 0)) = 0.
Proof.
  split; [lia |].
  apply (X1_chi2one_plot K_sample B_default (fun _ => 0.5) (sData sh_sample)
           3 1 (fun _ => 0) 3 (sTypes sh_sample) (fun _ => 0));
    [lia | reflexivity].
Defined.

(** ** chi2_plot *)

(** In fit mode no data point writes d_Vmod[]. *)
Lemma data_loop_fit_keeps_d_Vmod (K : macros) (B : build) (fr : mframe)
    (mu : R * R * R) (b c kappa : R) (sData : nat -> obs_data)
    (delta_V : nat -> R) :
  forall (points : list nat) (s s' : chi_state),
    data_loop K B fr mu b c kappa sData delta_V 0 points s = inr s' ->
    d_Vmod s' = d_Vmod s.
Proof.
  induction points as [| i rest IH]; intros s s' E.
  - simpl in E. now inversion E.
  - simpl in E.
    destruct (data_point K B fr mu b c kappa sData delta_V 0 i s)
      as [r | s1] eqn:E1; [discriminate |].
    rewrite (IH _ _ E).
    unfold data_point in E1.
    change (0 <? 0)%nat with false in E1. rewrite andb_false_r in E1.
    cbv iota in E1. inversion E1. reflexivity.
Qed.

(** What a call in fit mode leaves. *)
Lemma chi2one_fit_spec (K : macros) (B : build) (params : nat -> R)
    (sData : nat -> obs_data) (N_data N_filters : nat) (delta_V : nat -> R)
    (sTypes : ptype -> nat -> nat) (d_Vmod0 : nat -> R) :
  let y i := V (sData i) - Vmod_at K B params sTypes sData i in
  let S2 m := sum_filter sData N_data m (fun i => y i * y i * w (sData i)) in
  let S1 m := sum_filter sData N_data m (fun i => y i * w (sData i)) in
  let S0 m := sum_filter sData N_data m (fun i => w (sData i)) in
  let r := chi2one K B params sData N_data N_filters delta_V 0 sTypes d_Vmod0 in
  (forall m, chi_delta_V r m
             = if (m <? N_filters)%nat then S1 m / S0 m else delta_V m) /\
  chi_value r
  = sum_upto N_filters (fun m => S2 m - S1 m * S1 m / S0 m)
    / IZR (Z.of_nat N_data - Z.of_nat N_PARAMS - Z.of_nat N_filters) /\
  chi_d_Vmod r = d_Vmod0.
Proof.
  intros y S2 S1 S0 r.
  unfold r, chi2one.
  set (fr := momentum_frame _ _).
  set (mu := ode_parameters params sTypes).
  set (y0 := initial_angles params sTypes).
  set (b := params (sTypes T_b_tumb 0%nat)).
  set (c := params (sTypes T_c_tumb 0%nat)).
  set (kappa := params (sTypes T_kappa 0%nat)).
  assert (H0 : fit_state K B fr mu b c kappa y0 sData 0 (initial_state y0 d_Vmod0)).
  { unfold fit_state, initial_state, sum_filter, sum_upto. simpl.
    repeat split; reflexivity. }
  destruct (data_loop_fit K B fr mu b c kappa y0 sData delta_V N_data 0 _ H0)
    as (s & E & (_ & H2 & H1 & Hw)).
  pose proof (data_loop_fit_keeps_d_Vmod K B fr mu b c kappa sData delta_V
                _ _ _ E) as Hkeep.
  rewrite E. simpl Nat.add in *.
  change (0 <? 0)%nat with false. rewrite andb_false_r. cbv iota.
  destruct (filter_loop_spec (acc s) delta_V N_filters) as [Hc Hd].
  destruct (filter_loop N_filters (acc s) delta_V) as [chi2a delta_V'].
  simpl fst in Hc. simpl snd in Hd. cbn [chi_value chi_delta_V chi_d_Vmod].
  split; [| split].
  - intros m. rewrite Hd.
    destruct (Nat.ltb_spec m N_filters); [| reflexivity].
    rewrite H1, Hw. reflexivity.
  - rewrite Hc. f_equal.
    apply sum_upto_ext. intros m Hm.
    rewrite H2, H1, Hw. reflexivity.
  - exact Hkeep.
Qed.

(** X2: chi2_plot, in a build without MINIMA_TEST, LSQ and PROFILES.
    d_chi2_plot is the fit value at the parameters read from d_params0[];
    d_delta_V[m] is, for each filter m < N_filters, the fitted offset
    S1_m / S0_m of the data, and is not written for other m; with at least
    one filter and Nplot > 0, d_Vmod[i] is for every plot point i < Nplot
    the modelled magnitude at that point shifted by the offset of filter
    0, and is not written for other i.  With Nplot = 0 d_Vmod[] is left as
    it was. *)
Theorem X2_chi2_plot (K : macros) (B : build) (d_params0 : nat -> R)
    (dTypes : ptype -> nat -> nat) (dData : nat -> obs_data)
    (N_data N_filters : nat) (dPlot : nat -> obs_data) (Nplot : nat)
    (rest delta_V : nat -> R) (old : plot_result) :
  MINIMA_TEST B = false ->
  let params := read_params0 d_params0 rest in
  let y i := V (dData i) - Vmod_at K B params dTypes dData i in
  let S2 m := sum_filter dData N_data m (fun i => y i * y i * w (dData i)) in
  let S1 m := sum_filter dData N_data m (fun i => y i * w (dData i)) in
  let S0 m := sum_filter dData N_data m (fun i => w (dData i)) in
  let out := chi2_plot K B d_params0 dTypes dData N_data N_filters dPlot
               Nplot rest delta_V old in
  d_chi2_plot out
  = sum_upto N_filters (fun m => S2 m - S1 m * S1 m / S0 m)
    / IZR (Z.of_nat N_data - 7 - Z.of_nat N_filters) /\
  (forall m, (m < N_filters)%nat -> d_delta_V out m = S1 m / S0 m) /\
  (forall m, (N_filters <= m)%nat -> d_delta_V out m = d_delta_V old m) /\
  ((0 < Nplot)%nat -> (0 < N_filters)%nat ->
   (forall i, (i < Nplot)%nat ->
      plot_d_Vmod out i
      = Vmod_at K B params dTypes dPlot i + S1 0%nat / S0 0%nat) /\
   (forall i, (Nplot <= i)%nat -> plot_d_Vmod out i = plot_d_Vmod old i)) /\
  (Nplot = 0%nat -> plot_d_Vmod out = plot_d_Vmod old).
Proof.
  intros HB params y S2 S1 S0 out.
  destruct (chi2one_fit_spec K B params dData N_data N_filters delta_V dTypes
              (plot_d_Vmod old)) as (Hd & Hv & Hk).
  fold y S2 S1 S0 in Hd, Hv.
  unfold out, chi2_plot. fold params.
  cbn [d_chi2_plot d_delta_V plot_d_Vmod].
  split; [exact Hv |].
  split; [| split; [| split]].
  - intros m Hm. destruct (Nat.ltb_spec m N_filters); [| lia].
    rewrite Hd. destruct (Nat.ltb_spec m N_filters); [reflexivity | lia].
  - intros m Hm. destruct (Nat.ltb_spec m N_filters); [lia | reflexivity].
  - intros HN HF. rewrite Hk.
    destruct (chi2one_plot_spec K B params dPlot Nplot N_filters
                (chi_delta_V
                   (chi2one K B params dData N_data N_filters delta_V 0 dTypes
                      (plot_d_Vmod old)))
                Nplot dTypes (plot_d_Vmod old) HN HB) as [_ Hp].
    split; intros i Hi; rewrite Hp.
    + destruct (Nat.ltb_spec i Nplot); [| lia].
      rewrite Hd. destruct (Nat.ltb_spec 0 N_filters); [reflexivity | lia].
    + destruct (Nat.ltb_spec i Nplot); [lia | reflexivity].
  - intros ->. rewrite Hk.
    destruct (chi2one_fit_spec K B params dPlot 0 N_filters
                (chi_delta_V
                   (chi2one K B params dData N_data N_filters delta_V 0 dTypes
                      (plot_d_Vmod old)))
                dTypes (plot_d_Vmod old)) as (_ & _ & Hk2).
    exact Hk2.
Qed.

(** The table of [sh_sample] with ten data points and three plot
    points. *)
Lemma X2_chi2_plot_witness :
  MINIMA_TEST B_default = false /\
  forall m, (1 <= m)%nat ->
    d_delta_V (chi2_plot K_sample B_default (fun _ => 0.5) (sTypes sh_sample)
                 (sData sh_sample) 10 1 (sData sh_sample) 3 (fun _ => 0)
                 (fun _ => 0)
                 {| d_chi2_plot := 0; d_delta_V := fun _ => 7;
                    plot_d_Vmod := fun _ => 0 |}) m = 7.
Proof.
  split; [reflexivity |].
  apply (X2_chi2_plot K_sample B_default (fun _ => 0.5) (sTypes sh_sample)
           (sData sh_sample) 10 1 (sData sh_sample) 3 (fun _ => 0)
           (fun _ => 0)
           {| d_chi2_plot := 0; d_delta_V := fun _ => 7;
              plot_d_Vmod := fun _ => 0 |}).
  reflexivity.
Defined.

(** ** The rotation integrator: closed forms *)

(** The passes of a gap cover it. *)
Lemma steps_cover (K : macros) (t1 t2 : R) :
  0 < TIME_STEP K -> t1 <= t2 ->
  (1 <= N_steps_of K t1 t2)%Z /\
  INR (Z.to_nat (N_steps_of K t1 t2)) * step_size K t1 t2 = t2 - t1.
Proof.
  intros HT Ht.
  assert (HN : (1 <= N_steps_of K t1 t2)%Z).
  { rewrite N_steps_floor by assumption.
    assert (0 <= (t2 - t1) / TIME_STEP K).
    { apply Rmult_le_pos; [lra |]. left. now apply Rinv_0_lt_compat. }
    assert (0 <= Zfloor ((t2 - t1) / TIME_STEP K))%Z; [| lia].
    apply Zfloor_lub. simpl. assumption. }
  split; [exact HN |].
  rewrite INR_IZR_INZ, Z2Nat.id by lia.
  unfold step_size. field.
  apply not_0_IZR. lia.
Qed.

(** [ODE_func] for a body with Im = 0. *)
Lemma ODE_func_symmetric (L Ip phi theta psi : R) :
  ODE_func (phi, theta, psi) (L, Ip, 0)
  = (L * Ip, 0, cos theta * (L - L * Ip)).
Proof. unfold ODE_func. f_equal; [f_equal |]; ring. Qed.

Lemma rk4_step_symmetric (h L Ip phi theta psi : R) :
  rk4_step h (L, Ip, 0) (phi, theta, psi)
  = (phi + h * (L * Ip), theta, psi + h * (cos theta * (L - L * Ip))).
Proof.
  unfold rk4_step.
  rewrite ODE_func_symmetric.
  replace (theta + 0.5 * h * 0) with theta by lra.
  rewrite ODE_func_symmetric.
  replace (theta + 0.5 * h * 0) with theta by lra.
  rewrite ODE_func_symmetric.
  replace (theta + h * 0) with theta by lra.
  rewrite ODE_func_symmetric.
  f_equal; [f_equal |]; lra.
Qed.

Lemma iter_rk4_symmetric (h L Ip : R) (n : nat) (phi theta psi : R) :
  Nat.iter n (rk4_step h (L, Ip, 0)) (phi, theta, psi)
  = (phi + INR n * h * (L * Ip), theta,
     psi + INR n * h * (cos theta * (L - L * Ip))).
Proof.
  induction n as [| n IH].
  - simpl. f_equal; [f_equal |]; lra.
  - rewrite S_INR, Nat.iter_succ, IH, rk4_step_symmetric.
    f_equal; [f_equal |]; lra.
Qed.

Lemma integrate_symmetric (K : macros) (t1 t2 L Ip phi theta psi : R) :
  0 < TIME_STEP K -> t1 <= t2 ->
  integrate K t1 t2 (L, Ip, 0) (phi, theta, psi)
  = (phi + L * Ip * (t2 - t1), theta,
     psi + cos theta * (L - L * Ip) * (t2 - t1)).
Proof.
  intros HT Ht. unfold integrate. rewrite iter_rk4_symmetric.
  destruct (steps_cover K t1 t2 HT Ht) as [_ Hc].
  f_equal; [f_equal |].
  - rewrite <- Hc. ring.
  - rewrite <- Hc. ring.
Qed.

(** The ODE parameters of a body with b_tumb = c_tumb. *)
Lemma ode_parameters_symmetric (params : nat -> R)
    (sTypes : ptype -> nat -> nat) :
  params (sTypes T_b_tumb 0%nat) = params (sTypes T_c_tumb 0%nat) ->
  snd (ode_parameters params sTypes) = 0.
Proof.
  intros Hbc. unfold ode_parameters. cbn [snd]. rewrite Hbc. lra.
Qed.

(** X3: a body that is symmetric about its long axis (b_tumb = c_tumb,
    hence Im = 0) precesses uniformly, and the RK4 integrator is exact for
    it.  Over a gap t1 <= t2 the angle phi advances by L Ip (t2 - t1),
    theta stays as it is and psi advances by cos(theta) L (1 - Ip)
    (t2 - t1); so at every data point i of a series with non-decreasing
    epochs the angles are those of the first point advanced over
    MJD_i - MJD_0. *)
Theorem X3_symmetric_precession (K : macros) (params : nat -> R)
    (sTypes : ptype -> nat -> nat) (sData : nat -> obs_data) :
  0 < TIME_STEP K ->
  params (sTypes T_b_tumb 0%nat) = params (sTypes T_c_tumb 0%nat) ->
  params (sTypes T_b_tumb 0%nat) <> 0 ->
  let mu := ode_parameters params sTypes in
  let L := fst (fst mu) in
  let Ip := snd (fst mu) in
  snd mu = 0 /\
  (forall t1 t2 phi theta psi, t1 <= t2 ->
     integrate K t1 t2 mu (phi, theta, psi)
     = (phi + L * Ip * (t2 - t1), theta,
        psi + cos theta * (L - L * Ip) * (t2 - t1))) /\
  (forall phi theta psi i,
     (forall k, (k < i)%nat -> MJD (sData k) <= MJD (sData (S k))) ->
     euler_at K mu (phi, theta, psi) sData i
     = (phi + L * Ip * (MJD (sData i) - MJD (sData 0%nat)), theta,
        psi + cos theta * (L - L * Ip) * (MJD (sData i) - MJD (sData 0%nat)))).
Proof.
  intros HT Hbc _ mu L Ip.
  pose proof (ode_parameters_symmetric params sTypes Hbc) as Hm.
  fold mu in Hm.
  assert (Emu : mu = (L, Ip, 0)).
  { unfold L, Ip. destruct mu as [[l ip] im]. simpl in *. now subst. }
  split; [exact Hm |]. split.
  - intros t1 t2 phi theta psi Ht. rewrite Emu.
    now apply integrate_symmetric.
  - intros phi theta psi i. induction i as [| i IH]; intros Hmono.
    + simpl. f_equal; [f_equal |]; lra.
    + cbn [euler_at]. rewrite IH by (intros k Hk; apply Hmono; lia).
      rewrite Emu, integrate_symmetric by (try assumption; apply Hmono; lia).
      f_equal; [f_equal |]; lra.
Qed.

(** A ball-like body b_tumb = c_tumb = 0.5 with the time step of
    [K_sample]. *)
Lemma X3_symmetric_precession_witness :
  (0 < TIME_STEP K_sample /\ (0.5 : R) = 0.5 /\ (0.5 : R) <> 0) /\
  snd (ode_parameters (fun _ => 0.5) (sTypes sh_sample)) = 0.
Proof.
  assert (HT : 0 < TIME_STEP K_sample) by (simpl; lra).
  assert (Hb : (0.5 : R) <> 0) by lra.
  split; [repeat split; [exact HT | exact Hb] |].
  exact (proj1
           (X3_symmetric_precession K_sample (fun _ => 0.5)
              (sTypes sh_sample) (sData sh_sample) HT eq_refl Hb)).
Defined.

(** [ODE_func] at theta = 0: the nutation rate vanishes. *)
Lemma ODE_func_theta_0 (phi psi : R) (mu : R * R * R) :
  snd (fst (ODE_func (phi, 0, psi) mu)) = 0.
Proof.
  unfold ODE_func. destruct mu as [[mu0 mu1] mu2]. cbn [fst snd].
  rewrite sin_0. ring.
Qed.

Lemma rk4_step_theta_0 (h : R) (mu y : R * R * R) :
  snd (fst y) = 0 -> snd (fst (rk4_step h mu y)) = 0.
Proof.
  destruct y as [[phi theta] psi]. cbn [fst snd]. intros ->.
  unfold rk4_step.
  pose proof (ODE_func_theta_0 phi psi mu) as H1.
  destruct (ODE_func (phi, 0, psi) mu) as [[k10 k11] k12].
  cbn [fst snd] in H1. subst k11.
  replace (0 + 0.5 * h * 0) with 0 by lra.
  pose proof (ODE_func_theta_0 (phi + 0.5 * h * k10) (psi + 0.5 * h * k12) mu)
    as H2.
  destruct (ODE_func (phi + 0.5 * h * k10, 0, psi + 0.5 * h * k12) mu)
    as [[k20 k21] k22].
  cbn [fst snd] in H2. subst k21.
  replace (0 + 0.5 * h * 0) with 0 by lra.
  pose proof (ODE_func_theta_0 (phi + 0.5 * h * k20) (psi + 0.5 * h * k22) mu)
    as H3.
  destruct (ODE_func (phi + 0.5 * h * k20, 0, psi + 0.5 * h * k22) mu)
    as [[k30 k31] k32].
  cbn [fst snd] in H3. subst k31.
  replace (0 + h * 0) with 0 by lra.
  pose proof (ODE_func_theta_0 (phi + h * k30) (psi + h * k32) mu) as H4.
  destruct (ODE_func (phi + h * k30, 0, psi + h * k32) mu)
    as [[k40 k41] k42].
  cbn [fst snd] in H4. subst k41.
  cbn [fst snd]. lra.
Qed.

Lemma integrate_theta_0 (K : macros) (t1 t2 : R) (mu y : R * R * R) :
  snd (fst y) = 0 -> snd (fst (integrate K t1 t2 mu y)) = 0.
Proof.
  intros Hy. unfold integrate.
  induction (Z.to_nat (N_steps_of K t1 t2)) as [| n IH].
  - exact Hy.
  - rewrite Nat.iter_succ. now apply rk4_step_theta_0.
Qed.

Lemma euler_at_theta_0 (K : macros) (mu y0 : R * R * R)
    (sData : nat -> obs_data) (i : nat) :
  snd (fst y0) = 0 -> snd (fst (euler_at K mu y0 sData i)) = 0.
Proof.
  intros Hy. induction i as [| i IH].
  - exact Hy.
  - cbn [euler_at]. now apply integrate_theta_0.
Qed.

(** The long axis at theta = 0 is the momentum direction. *)
Lemma body_axes_theta_0 (fr : mframe) (phi psi : R) :
  a_x (body_axes fr phi 0 psi) = M_x fr /\
  a_y (body_axes fr phi 0 psi) = M_y fr /\
  a_z (body_axes fr phi 0 psi) = M_z fr.
Proof.
  unfold body_axes. cbn [a_x a_y a_z]. rewrite cos_0, sin_0.
  repeat split; ring.
Qed.

(** X4: rotation about the long axis.  For a body with 0 < c_tumb <
    b_tumb < 1 and the energy Es = 1, the initial nutation angle theta is
    0, the integrator keeps it at 0 at every data point, and the long axis
    a of the body is the direction M of the angular momentum at every data
    point. *)
Theorem X4_principal_axis_rotation (K : macros) (params : nat -> R)
    (sTypes : ptype -> nat -> nat) (sData : nat -> obs_data) (i : nat) :
  0 < params (sTypes T_c_tumb 0%nat) ->
  params (sTypes T_c_tumb 0%nat) < params (sTypes T_b_tumb 0%nat) ->
  params (sTypes T_b_tumb 0%nat) < 1 ->
  params (sTypes T_Es 0%nat) = 1 ->
  let fr := momentum_frame (params (sTypes T_theta_M 0%nat))
              (params (sTypes T_phi_M 0%nat)) in
  let y := euler_at K (ode_parameters params sTypes)
             (initial_angles params sTypes) sData i in
  let ax := body_axes fr (fst (fst y)) (snd (fst y)) (snd y) in
  snd (fst (initial_angles params sTypes)) = 0 /\
  snd (fst y) = 0 /\
  a_x ax = M_x fr /\ a_y ax = M_y fr /\ a_z ax = M_z fr.
Proof.
  intros _ _ _ HEs fr y ax.
  assert (H0 : snd (fst (initial_angles params sTypes)) = 0).
  { unfold initial_angles. cbn [fst snd]. rewrite HEs.
    replace (1 - 1.0) with 0 by lra.
    unfold Rdiv. rewrite Rmult_0_l, sqrt_0. apply asin_0. }
  assert (Hy : snd (fst y) = 0) by (now apply euler_at_theta_0).
  split; [exact H0 |]. split; [exact Hy |].
  unfold ax. rewrite Hy. apply body_axes_theta_0.
Qed.

(** The body of [params_bw]: c_tumb = 0.25, b_tumb = 0.5, Es = 1. *)
Lemma X4_principal_axis_rotation_witness :
  (0 < params_bw (types_bw T_c_tumb 0%nat) /\
   params_bw (types_bw T_c_tumb 0%nat) < params_bw (types_bw T_b_tumb 0%nat) /\
   params_bw (types_bw T_b_tumb 0%nat) < 1 /\
   params_bw (types_bw T_Es 0%nat) = 1) /\
  snd (fst (euler_at K_sample (ode_parameters params_bw types_bw)
              (initial_angles params_bw types_bw) obs_bw 2)) = 0.
Proof.
  assert (Hc : 0 < params_bw (types_bw T_c_tumb 0%nat)) by (simpl; lra).
  assert (Hcb : params_bw (types_bw T_c_tumb 0%nat)
                < params_bw (types_bw T_b_tumb 0%nat)) by (simpl; lra).
  assert (Hb : params_bw (types_bw T_b_tumb 0%nat) < 1) by (simpl; lra).
  split; [repeat split; assumption |].
  exact (proj1 (proj2
           (X4_principal_axis_rotation K_sample params_bw types_bw obs_bw 2
              Hc Hcb Hb eq_refl))).
Defined.

(** ** Brightness formulas *)

(** The components of a vector along a right-handed orthonormal triple
    a, b, a x b have the length of the vector. *)
Lemma parseval_cross (ax ay az bx by_ bz ex ey ez : R) :
  ax * ax + ay * ay + az * az = 1 ->
  bx * bx + by_ * by_ + bz * bz = 1 ->
  ax * bx + ay * by_ + az * bz = 0 ->
  let cx := ay * bz - az * by_ in
  let cy := az * bx - ax * bz in
  let cz := ax * by_ - ay * bx in
  (bx * ex + by_ * ey + bz * ez) * (bx * ex + by_ * ey + bz * ez)
  + (cx * ex + cy * ey + cz * ez) * (cx * ex + cy * ey + cz * ez)
  + (ax * ex + ay * ey + az * ez) * (ax * ex + ay * ey + az * ez)
  = ex * ex + ey * ey + ez * ez.
Proof.
  intros Haa Hbb Hab cx cy cz.
  assert (Hid :
    (ex * ex + ey * ey + ez * ez)
    * ((ax * ax + ay * ay + az * az) * (bx * bx + by_ * by_ + bz * bz)
       - (ax * bx + ay * by_ + az * bz) * (ax * bx + ay * by_ + az * bz))
    = (cx * ex + cy * ey + cz * ez) * (cx * ex + cy * ey + cz * ez)
      + (bx * ex + by_ * ey + bz * ez) * (bx * ex + by_ * ey + bz * ez)
        * (ax * ax + ay * ay + az * az)
      + (ax * ex + ay * ey + az * ez) * (ax * ex + ay * ey + az * ez)
        * (bx * bx + by_ * by_ + bz * bz)
      - 2 * (ax * ex + ay * ey + az * ez) * (bx * ex + by_ * ey + bz * ez)
        * (ax * bx + ay * by_ + az * bz)).
  { unfold cx, cy, cz. ring. }
  rewrite Haa, Hbb, Hab in Hid. lra.
Qed.

(** Cauchy-Schwarz for a unit vector u. *)
Lemma dot_unit_bound (ux uy uz vx vy vz : R) :
  ux * ux + uy * uy + uz * uz = 1 ->
  vx * vx + vy * vy + vz * vz = 1 ->
  -1 <= ux * vx + uy * vy + uz * vz <= 1.
Proof.
  intros Hu Hv.
  assert (Hid :
    (ux * ux + uy * uy + uz * uz) * (vx * vx + vy * vy + vz * vz)
    - (ux * vx + uy * vy + uz * vz) * (ux * vx + uy * vy + uz * vz)
    = (uy * vz - uz * vy) * (uy * vz - uz * vy)
      + (uz * vx - ux * vz) * (uz * vx - ux * vz)
      + (ux * vy - uy * vx) * (ux * vy - uy * vx)) by ring.
  rewrite Hu, Hv in Hid.
  pose proof (Rle_0_sqr (uy * vz - uz * vy)) as H1.
  pose proof (Rle_0_sqr (uz * vx - ux * vz)) as H2.
  pose proof (Rle_0_sqr (ux * vy - uy * vx)) as H3.
  unfold Rsqr in H1, H2, H3.
  set (d := ux * vx + uy * vy + uz * vz) in *.
  assert (Hd : d * d <= 1) by lra.
  clear - Hd. nra.
Qed.

(** The Earth vector in the body basis has the length it has in the
    inertial frame. *)
Lemma projected_unit (fr : mframe) (phi theta psi ex ey ez : R) :
  frame_ok fr ->
  let ax := body_axes fr phi theta psi in
  let Ep_x := b_x ax * ex + b_y ax * ey + b_z ax * ez in
  let Ep_y := c_x ax * ex + c_y ax * ey + c_z ax * ez in
  let Ep_z := a_x ax * ex + a_y ax * ey + a_z ax * ez in
  Ep_x * Ep_x + Ep_y * Ep_y + Ep_z * Ep_z = ex * ex + ey * ey + ez * ez.
Proof.
  intros Hfr ax Ep_x Ep_y Ep_z.
  destruct (body_axes_orthonormal fr phi theta psi Hfr)
    as (Haa & Hbb & _ & Hab & _ & _).
  fold ax in Haa, Hbb, Hab.
  exact (parseval_cross (a_x ax) (a_y ax) (a_z ax) (b_x ax) (b_y ax) (b_z ax)
           ex ey ez Haa Hbb Hab).
Qed.

(** The logarithm does not decrease. *)
Lemma ln_le_compat (x y : R) : 0 < x -> x <= y -> ln x <= ln y.
Proof.
  intros Hx [Hlt | ->]; [left; now apply ln_increasing | right; reflexivity].
Qed.

(** X5: the two-albedo ball.  In a BW_BALL build, for a momentum
    direction that is not along the y axis, a unit Earth vector and an
    albedo 0 < kappa <= 1, the modelled magnitude lies between 0 (only the
    bright hemisphere seen) and -2.5 log10(kappa) (only the dark one),
    whatever the rotation state; for kappa = 1 it is 0. *)
Theorem X5_bw_ball_range (B : build) (theta_M phi_M b c kappa : R)
    (y : R * R * R) (o : obs_data) :
  BW_BALL B = true ->
  cos theta_M * cos theta_M
  + sin theta_M * cos phi_M * (sin theta_M * cos phi_M) <> 0 ->
  E_x o * E_x o + E_y o * E_y o + E_z o * E_z o = 1 ->
  0 < kappa <= 1 ->
  let Vmod := model_magnitude B (momentum_frame theta_M phi_M) b c kappa y o in
  0 <= Vmod <= -2.5 * log10 kappa /\
  (kappa = 1 -> Vmod = 0).
Proof.
  intros HB Hnd HE Hk Vmod.
  pose proof (momentum_frame_ok theta_M phi_M Hnd) as Hfr.
  unfold Vmod, model_magnitude. destruct y as [[phi theta] psi].
  rewrite HB. cbv zeta.
  set (ax := body_axes (momentum_frame theta_M phi_M) phi theta psi).
  set (Ep_x := b_x ax * E_x o + b_y ax * E_y o + b_z ax * E_z o).
  set (Ep_y := c_x ax * E_x o + c_y ax * E_y o + c_z ax * E_z o).
  set (Ep_z := a_x ax * E_x o + a_y ax * E_y o + a_z ax * E_z o).
  pose proof (projected_unit _ phi theta psi (E_x o) (E_y o) (E_z o) Hfr) as HEp.
  cbv zeta in HEp. fold ax in HEp. fold Ep_x Ep_y Ep_z in HEp.
  rewrite HE in HEp.
  destruct (body_axes_orthonormal _ phi theta psi Hfr) as (Haa & _).
  fold ax in Haa.
  pose proof (dot_unit_bound _ _ _ _ _ _ Haa HEp) as Hc.
  unfold Vmod_bw_ball.
  set (cos_alpha := a_x ax * Ep_x + a_y ax * Ep_y + a_z ax * Ep_z) in *.
  set (arg := 0.5 * (kappa * (1 + cos_alpha) + (1 - cos_alpha))).
  assert (Harg : kappa <= arg <= 1) by (unfold arg; nra).
  assert (Hl1 : ln arg <= 0).
  { rewrite <- ln_1. apply ln_le_compat; lra. }
  assert (Hl2 : ln kappa <= ln arg) by (apply ln_le_compat; lra).
  pose proof ln_10_pos as H10.
  assert (Hi : 0 < / ln 10) by (now apply Rinv_0_lt_compat).
  assert (Hq1 : ln arg / ln 10 <= 0) by (unfold Rdiv; nra).
  assert (Hq2 : ln kappa / ln 10 <= ln arg / ln 10) by (unfold Rdiv; nra).
  unfold log10. split; [lra |].
  intros Hk1. assert (Ha : arg = 1) by (unfold arg; rewrite Hk1; lra).
  rewrite Ha, ln_1. lra.
Qed.

(** The ball of [params_bw] seen along -z with the momentum along z. *)
Lemma X5_bw_ball_range_witness :
  (BW_BALL B_bw = true /\
   cos 0 * cos 0 + sin 0 * cos 0 * (sin 0 * cos 0) <> 0 /\
   E_x (obs_bw 0%nat) * E_x (obs_bw 0%nat)
   + E_y (obs_bw 0%nat) * E_y (obs_bw 0%nat)
   + E_z (obs_bw 0%nat) * E_z (obs_bw 0%nat) = 1 /\
   0 < 0.1 <= 1) /\
  0 <= model_magnitude B_bw (momentum_frame 0 0) 0.5 0.25 0.1 (0, 0, 0)
         (obs_bw 0%nat).
Proof.
  assert (Hd : cos 0 * cos 0 + sin 0 * cos 0 * (sin 0 * cos 0) <> 0).
  { rewrite cos_0, sin_0. lra. }
  assert (HE : E_x (obs_bw 0%nat) * E_x (obs_bw 0%nat)
               + E_y (obs_bw 0%nat) * E_y (obs_bw 0%nat)
               + E_z (obs_bw 0%nat) * E_z (obs_bw 0%nat) = 1)
    by (simpl; lra).
  assert (Hk : 0 < 0.1 <= 1) by lra.
  split; [repeat split; try assumption; apply Hk |].
  exact (proj1 (proj1
           (X5_bw_ball_range B_bw 0 0 0.5 0.25 0.1 (0, 0, 0) (obs_bw 0%nat)
              eq_refl Hd HE Hk))).
Defined.

Lemma sum_sq_nonneg (x y z : R) : 0.0 <= x * x + y * y + z * z.
Proof. nra. Qed.

Lemma clamp_nonneg (e : R) : 0.0 <= e -> (if Rltb e 0.0 then 0.0 else e) = e.
Proof. intros H. now rewrite Rltb_false. Qed.

(** The prism formula for a right-handed orthonormal triple and a unit
    vector p. *)
Lemma Vmod_rect_closed (ax : axes) (px py pz b c : R) :
  a_x ax * a_x ax + a_y ax * a_y ax + a_z ax * a_z ax = 1 ->
  b_x ax * b_x ax + b_y ax * b_y ax + b_z ax * b_z ax = 1 ->
  a_x ax * b_x ax + a_y ax * b_y ax + a_z ax * b_z ax = 0 ->
  c_x ax = a_y ax * b_z ax - a_z ax * b_y ax ->
  c_y ax = a_z ax * b_x ax - a_x ax * b_z ax ->
  c_z ax = a_x ax * b_y ax - a_y ax * b_x ax ->
  px * px + py * py + pz * pz = 1 ->
  Vmod_rect ax px py pz b c
  = -2.5 * log10
             (4 * (Rabs (b * (px * c_x ax + py * c_y ax + pz * c_z ax))
                   + Rabs (b * c * (px * a_x ax + py * a_y ax + pz * a_z ax))
                   + Rabs (c * (px * b_x ax + py * b_y ax + pz * b_z ax)))).
Proof.
  destruct ax as [ax ay az bx by_ bz cx cy cz].
  cbn [a_x a_y a_z b_x b_y b_z c_x c_y c_z].
  intros Haa Hbb Hab -> -> -> Hpp.
  unfold Vmod_rect. cbn [a_x a_y a_z b_x b_y b_z c_x c_y c_z]. cbv zeta.
  rewrite !clamp_nonneg by apply sum_sq_nonneg.
  do 4 f_equal; [f_equal |].
  - rewrite <- sqrt_Rsqr_abs. f_equal. unfold Rsqr.
    transitivity
      ((px * px + py * py + pz * pz)
       * ((b * (px * (ay * bz - az * by_) + py * (az * bx - ax * bz)
                + pz * (ax * by_ - ay * bx)))
          * (b * (px * (ay * bz - az * by_) + py * (az * bx - ax * bz)
                  + pz * (ax * by_ - ay * bx))))); [ring |].
    rewrite Hpp. ring.
  - rewrite <- sqrt_Rsqr_abs. f_equal. unfold Rsqr.
    transitivity
      ((px * px + py * py + pz * pz)
       * ((b * c * ((bx * bx + by_ * by_ + bz * bz)
                    * (px * ax + py * ay + pz * az)
                    - (ax * bx + ay * by_ + az * bz)
                      * (px * bx + py * by_ + pz * bz)))
          * (b * c * ((bx * bx + by_ * by_ + bz * bz)
                      * (px * ax + py * ay + pz * az)
                      - (ax * bx + ay * by_ + az * bz)
                        * (px * bx + py * by_ + pz * bz))))); [ring |].
    rewrite Hpp, Hbb, Hab. ring.
  - rewrite <- sqrt_Rsqr_abs. f_equal. unfold Rsqr.
    transitivity
      ((px * px + py * py + pz * pz)
       * ((c * ((ax * bx + ay * by_ + az * bz)
                * (px * ax + py * ay + pz * az)
                - (ax * ax + ay * ay + az * az)
                  * (px * bx + py * by_ + pz * bz)))
          * (c * ((ax * bx + ay * by_ + az * bz)
                  * (px * ax + py * ay + pz * az)
                  - (ax * ax + ay * ay + az * az)
                    * (px * bx + py * by_ + pz * bz))))); [ring |].
    rewrite Hpp, Haa, Hab. ring.
Qed.

(** X6: the rectangular prism.  In a RECT build, for a momentum direction
    that is not along the y axis and a unit Earth vector, the three
    clamps at 0 never act and the modelled magnitude is
    -2.5 log10 (4 (|b (p.c)| + |b c (p.a)| + |c (p.b)|)), where p is the
    Earth vector written in the body basis (b, c, a) and p.a, p.b, p.c
    pair its three components with the inertial components of the axes
    a, b, c, as the code does. *)
Theorem X6_rect_closed_form (B : build) (theta_M phi_M b c kappa : R)
    (y : R * R * R) (o : obs_data) :
  BW_BALL B = false -> RECT B = true ->
  cos theta_M * cos theta_M
  + sin theta_M * cos phi_M * (sin theta_M * cos phi_M) <> 0 ->
  E_x o * E_x o + E_y o * E_y o + E_z o * E_z o = 1 ->
  let fr := momentum_frame theta_M phi_M in
  let ax := body_axes fr (fst (fst y)) (snd (fst y)) (snd y) in
  let px := b_x ax * E_x o + b_y ax * E_y o + b_z ax * E_z o in
  let py := c_x ax * E_x o + c_y ax * E_y o + c_z ax * E_z o in
  let pz := a_x ax * E_x o + a_y ax * E_y o + a_z ax * E_z o in
  model_magnitude B fr b c kappa y o
  = -2.5 * log10
             (4 * (Rabs (b * (px * c_x ax + py * c_y ax + pz * c_z ax))
                   + Rabs (b * c * (px * a_x ax + py * a_y ax + pz * a_z ax))
                   + Rabs (c * (px * b_x ax + py * b_y ax + pz * b_z ax)))).
Proof.
  intros HB HR Hnd HE fr ax px py pz.
  pose proof (momentum_frame_ok theta_M phi_M Hnd) as Hfr. fold fr in Hfr.
  destruct y as [[phi theta] psi]. cbn [fst snd] in ax.
  unfold model_magnitude. rewrite HB, HR. cbv zeta.
  fold ax. fold px py pz.
  pose proof (projected_unit fr phi theta psi (E_x o) (E_y o) (E_z o) Hfr)
    as Hp.
  cbv zeta in Hp. fold ax in Hp. fold px py pz in Hp. rewrite HE in Hp.
  destruct (body_axes_orthonormal fr phi theta psi Hfr)
    as (Haa & Hbb & _ & Hab & _ & _).
  fold ax in Haa, Hbb, Hab.
  apply Vmod_rect_closed; try assumption; reflexivity.
Qed.

(** A prism with b = 0.5, c = 0.25 seen along -z with the momentum
    along z. *)
Lemma X6_rect_closed_form_witness :
  (BW_BALL B_rect = false /\ RECT B_rect = true /\
   cos 0 * cos 0 + sin 0 * cos 0 * (sin 0 * cos 0) <> 0 /\
   E_x (obs_bw 0%nat) * E_x (obs_bw 0%nat)
   + E_y (obs_bw 0%nat) * E_y (obs_bw 0%nat)
   + E_z (obs_bw 0%nat) * E_z (obs_bw 0%nat) = 1) /\
  (let ax := body_axes (momentum_frame 0 0) 0 0 0 in
   let px := b_x ax * E_x (obs_bw 0%nat) + b_y ax * E_y (obs_bw 0%nat)
             + b_z ax * E_z (obs_bw 0%nat) in
   let py := c_x ax * E_x (obs_bw 0%nat) + c_y ax * E_y (obs_bw 0%nat)
             + c_z ax * E_z (obs_bw 0%nat) in
   let pz := a_x ax * E_x (obs_bw 0%nat) + a_y ax * E_y (obs_bw 0%nat)
             + a_z ax * E_z (obs_bw 0%nat) in
   model_magnitude B_rect (momentum_frame 0 0) 0.5 0.25 0 (0, 0, 0)
     (obs_bw 0%nat)
   = -2.5 * log10
              (4 * (Rabs (0.5 * (px * c_x ax + py * c_y ax + pz * c_z ax))
                    + Rabs (0.5 * 0.25
                            * (px * a_x ax + py * a_y ax + pz * a_z ax))
                    + Rabs (0.25
                            * (px * b_x ax + py * b_y ax + pz * b_z ax))))).
Proof.
  assert (Hd : cos 0 * cos 0 + sin 0 * cos 0 * (sin 0 * cos 0) <> 0).
  { rewrite cos_0, sin_0. lra. }
  assert (HE : E_x (obs_bw 0%nat) * E_x (obs_bw 0%nat)
               + E_y (obs_bw 0%nat) * E_y (obs_bw 0%nat)
               + E_z (obs_bw 0%nat) * E_z (obs_bw 0%nat) = 1)
    by (simpl; lra).
  split; [repeat split; assumption |].
  exact (X6_rect_closed_form B_rect 0 0 0.5 0.25 0 (0, 0, 0) (obs_bw 0%nat)
           eq_refl eq_refl Hd HE).
Defined.

(** ** The record of minima: capacity and coverage *)

Lemma minima_grown_refl (K : macros) (m : minima) :
  (N_minima m <= MAX_MINIMA K)%nat -> minima_grown K m m.
Proof. intros H. repeat split; auto. Qed.

Lemma minima_grown_trans (K : macros) (m1 m2 m3 : minima) :
  minima_grown K m1 m2 -> minima_grown K m2 m3 -> minima_grown K m1 m3.
Proof.
  intros (H1 & H2 & H3 & H4) (G1 & G2 & G3 & G4).
  repeat split; try lia.
  - intros k Hk. rewrite G3 by lia. now apply H3.
  - intros k Hk. rewrite G4 by lia. now apply H4.
Qed.

Lemma track_minima_grown (K : macros) (delta_V0 : R) (i : nat)
    (mjd Vmod : R) (m : minima) :
  (N_minima m <= MAX_MINIMA K)%nat ->
  match track_minima K delta_V0 i mjd Vmod m with
  | inl r => r = -1
  | inr m' => minima_grown K m m'
  end.
Proof.
  intros Hm. unfold track_minima.
  assert (Hsame : forall t v : nat -> R,
            minima_grown K m
              {| N_minima := N_minima m; Vmin := Vmin m;
                 t_old := t; V_old := v |}).
  { intros t v. unfold minima_grown. cbn [N_minima Vmin].
    repeat split; auto. }
  destruct (i <? 0 + 2)%nat; [apply Hsame |].
  destruct (Rgtb (V_old m 1%nat) (V_old m 0%nat)
            && Rgeb (V_old m 1%nat) Vmod); [| apply Hsame].
  destruct (covered (58051.044624 + t_old m 1%nat)); [| apply Hsame].
  destruct (Nat.ltb_spec (MAX_MINIMA K) (S (N_minima m))) as [Hfull | Hroom];
    [reflexivity |].
  unfold minima_grown. cbn [N_minima Vmin].
  replace (S (N_minima m) - 1)%nat with (N_minima m) by lia.
  repeat split; try lia.
  - intros k Hk. apply upd_other. lia.
  - intros k Hk. apply upd_other. lia.
Qed.

Lemma data_point_grown (K : macros) (B : build) (fr : mframe)
    (mu : R * R * R) (b c kappa : R) (sData : nat -> obs_data)
    (delta_V : nat -> R) (Nplot : nat) (i : nat) (s : chi_state) :
  (N_minima (mins s) <= MAX_MINIMA K)%nat ->
  match data_point K B fr mu b c kappa sData delta_V Nplot i s with
  | inl r => r = -1 /\ MINIMA_TEST B = true /\ (0 < Nplot)%nat
  | inr s' => minima_grown K (mins s) (mins s')
  end.
Proof.
  intros Hm. unfold data_point.
  destruct (MINIMA_TEST B) eqn:HB; cbn [andb].
  - destruct (Nat.ltb_spec 0 Nplot) as [HN | HN].
    + set (y := if (0 <? i)%nat then _ else _).
      pose proof (track_minima_grown K (delta_V 0%nat) i (MJD (sData i))
                    (model_magnitude B fr b c kappa y (sData i)) (mins s) Hm)
        as Ht.
      destruct (track_minima _ _ _ _ _ _) as [r | m'].
      * repeat split; assumption.
      * exact Ht.
    + now apply minima_grown_refl.
  - destruct (0 <? Nplot)%nat; now apply minima_grown_refl.
Qed.

(** X7: the record of minima stays within its capacity.  From a state
    with at most MAX_MINIMA recorded minima, the data loop over any list
    of points either returns -1 -- only in a MINIMA_TEST build in plot
    mode -- or ends with at most MAX_MINIMA minima recorded; it never
    writes Vmin[k] for k >= MAX_MINIMA, never rewrites a value recorded
    before, and records at most one minimum per data point. *)
Theorem X7_minima_capacity (K : macros) (B : build) (fr : mframe)
    (mu : R * R * R) (b c kappa : R) (sData : nat -> obs_data)
    (delta_V : nat -> R) (Nplot : nat) (points : list nat) (s : chi_state) :
  (N_minima (mins s) <= MAX_MINIMA K)%nat ->
  match data_loop K B fr mu b c kappa sData delta_V Nplot points s with
  | inl r => r = -1 /\ MINIMA_TEST B = true /\ (0 < Nplot)%nat
  | inr s' =>
      (N_minima (mins s) <= N_minima (mins s') <= MAX_MINIMA K)%nat /\
      (N_minima (mins s') <= N_minima (mins s) + length points)%nat /\
      (forall k, (k < N_minima (mins s))%nat ->
         Vmin (mins s') k = Vmin (mins s) k) /\
      (forall k, (MAX_MINIMA K <= k)%nat ->
         Vmin (mins s') k = Vmin (mins s) k)
  end.
Proof.
  revert s. induction points as [| i rest IH]; intros s Hm.
  - simpl. repeat split; auto; lia.
  - cbn [data_loop].
    pose proof (data_point_grown K B fr mu b c kappa sData delta_V Nplot i s Hm)
      as H1.
    assert (Hone :
      match data_point K B fr mu b c kappa sData delta_V Nplot i s with
      | inl _ => True
      | inr s1 => (N_minima (mins s1) <= S (N_minima (mins s)))%nat
      end).
    { unfold data_point.
      destruct (MINIMA_TEST B); destruct (0 <? Nplot)%nat; cbn [andb];
        try (cbn [mins]; lia).
      unfold track_minima.
      destruct (i <? 0 + 2)%nat; [cbn [mins N_minima]; lia |].
      destruct (Rgtb _ _ && Rgeb _ _); [| cbn [mins N_minima]; lia].
      destruct (covered _); [| cbn [mins N_minima]; lia].
      destruct (MAX_MINIMA K <? S (N_minima (mins s)))%nat; [exact I |].
      cbn [mins N_minima]. lia. }
    destruct (data_point K B fr mu b c kappa sData delta_V Nplot i s)
      as [r | s1]; [exact H1 |].
    destruct H1 as (G1 & G2 & G3 & G4).
    specialize (IH s1 G2).
    destruct (data_loop K B fr mu b c kappa sData delta_V Nplot rest s1)
      as [r | s']; [exact IH |].
    destruct IH as ((I1 & I2) & I3 & I4 & I5).
    cbn [length]. repeat split; try lia.
    + intros k Hk. rewrite I4 by lia. now apply G3.
    + intros k Hk. rewrite I5 by lia. now apply G4.
Qed.

(** The light curve of [params_bw] from the empty record. *)
Lemma X7_minima_capacity_witness :
  (N_minima (mins state_rest) <= MAX_MINIMA K_sample)%nat /\
  match data_loop K_sample B_bw (momentum_frame 0 0) (0, 0, 0) 0.5 0.25 0.1
          obs_bw (fun _ => 0) 3 (seq 0 3) state_rest with
  | inl r => r = -1 /\ MINIMA_TEST B_bw = true /\ (0 < 3)%nat
  | inr s' =>
      (N_minima (mins state_rest) <= N_minima (mins s')
       <= MAX_MINIMA K_sample)%nat /\
      (N_minima (mins s')
       <= N_minima (mins state_rest) + length (seq 0 3))%nat /\
      (forall k, (k < N_minima (mins state_rest))%nat ->
         Vmin (mins s') k = Vmin (mins state_rest) k) /\
      (forall k, (MAX_MINIMA K_sample <= k)%nat ->
         Vmin (mins s') k = Vmin (mins state_rest) k)
  end.
Proof.
  assert (H0 : (N_minima (mins state_rest) <= MAX_MINIMA K_sample)%nat)
    by (simpl; lia).
  split; [exact H0 |].
  exact (X7_minima_capacity K_sample B_bw (momentum_frame 0 0) (0, 0, 0)
           0.5 0.25 0.1 obs_bw (fun _ => 0) 3 (seq 0 3)
           state_rest H0).
Defined.

(** No epoch outside the hard-wired windows is covered. *)
Lemma window_widen (d lo hi t : R) :
  0 <= d -> Rgeb t lo && Rleb t hi = true ->
  Rgeb t (lo - d) && Rleb t (hi + d) = true.
Proof.
  intros Hd H. apply andb_true_iff in H. destruct H as [H1 H2].
  unfold Rgeb in *. apply Rleb_spec in H1. apply Rleb_spec in H2.
  apply andb_true_iff. split; apply Rleb_true; lra.
Qed.

Lemma near_covered_covered (d t : R) :
  0 <= d -> near_covered d t = false -> covered t = false.
Proof.
  intros Hd Hn. destruct (covered t) eqn:E; [| reflexivity].
  unfold covered in E. rewrite !orb_true_iff in E.
  unfold near_covered in Hn.
  destruct E as [[[[[E | E] | E] | E] | E] | E];
    apply (window_widen d) in E; try exact Hd;
    rewrite E in Hn; rewrite ?orb_true_r, ?orb_true_l in Hn;
    discriminate Hn.
Qed.

Lemma near_covered_range (t : R) :
  t < - 1e-6 \/ 5.234278 < t ->
  near_covered 1e-6 (58051.044624 + t) = false.
Proof.
  intros Ht. unfold near_covered, Rgeb.
  destruct Ht as [Ht | Ht].
  - rewrite !(Rleb_false _ (58051.044624 + t)) by lra. reflexivity.
  - rewrite !(Rleb_false (58051.044624 + t)) by lra.
    rewrite !andb_false_r. reflexivity.
Qed.

Lemma minima_upto_none (Vm : nat -> R) (sData : nat -> obs_data) (n : nat) :
  (forall i, (i < n)%nat -> covered (58051.044624 + MJD (sData i)) = false) ->
  minima_upto Vm sData n = 0%nat.
Proof.
  intros Hc. induction n as [| n IH]; [reflexivity |].
  rewrite minima_upto_S, IH by (intros i Hi; apply Hc; lia).
  unfold tracked.
  destruct (Nat.leb_spec 2 n) as [H2 | H2]; [| reflexivity].
  rewrite Hc by lia. rewrite andb_false_r. reflexivity.
Qed.

(** X8: the windows of the minima test are hard-wired.  In minima-scoring
    mode (a MINIMA_TEST build, Nplot > 0), when every epoch of the series,
    taken as an offset from day 58051.044624, is more than 1e-6 day away
    from each of the six windows the code lists, no minimum is recorded
    and chi2one returns the score 0; this is so in particular when every
    epoch is below -1e-6 or above 5.234278.  The margin is wider than the
    rounding of an epoch kept in the float array t_old[] (at most 2.4e-7
    day for an epoch below 8 days), so the stored epochs miss the windows
    as well. *)
Theorem X8_uncovered_score_zero (K : macros) (B : build) (params : nat -> R)
    (sData : nat -> obs_data) (N_data N_filters : nat) (delta_V : nat -> R)
    (Nplot : nat) (sTypes : ptype -> nat -> nat) (d_Vmod0 : nat -> R) :
  MINIMA_TEST B = true -> (0 < Nplot)%nat ->
  let r := chi_value (chi2one K B params sData N_data N_filters delta_V Nplot
                        sTypes d_Vmod0) in
  ((forall i, (i < N_data)%nat ->
      near_covered 1e-6 (58051.044624 + MJD (sData i)) = false) -> r = 0) /\
  ((forall i, (i < N_data)%nat ->
      MJD (sData i) < - 1e-6 \/ 5.234278 < MJD (sData i)) -> r = 0).
Proof.
  intros HB HN r.
  assert (Hmain : (forall i, (i < N_data)%nat ->
                     near_covered 1e-6 (58051.044624 + MJD (sData i)) = false)
                  -> r = 0).
  { intros Hc.
    assert (Hc' : forall i, (i < N_data)%nat ->
                    covered (58051.044624 + MJD (sData i)) = false).
    { intros i Hi. apply (near_covered_covered 1e-6); [lra |].
      now apply Hc. }
    pose proof (minima_upto_none (Vmod_at K B params sTypes sData) sData
                  N_data Hc') as H0.
    destruct (chi2one_minima K B params sData N_data N_filters delta_V Nplot
                sTypes d_Vmod0 HB HN) as (m & Hv & Hn & _).
    { cbv zeta. rewrite H0. lia. }
    unfold r. rewrite Hv.
    apply (proj1 (minima_result_cases m)).
    rewrite Hn. exact H0. }
  split; [exact Hmain |].
  intros Hout. apply Hmain. intros i Hi. apply near_covered_range.
  now apply Hout.
Qed.

(** The three epochs of [obs_bw] moved a week later. *)
Lemma X8_uncovered_score_zero_witness :
  (MINIMA_TEST B_bw = true /\ (0 < 3)%nat) /\
  chi_value
    (chi2one K_sample B_bw params_bw
       (fun i => {| V := V (obs_bw i); w := w (obs_bw i);
                    E_x := E_x (obs_bw i); E_y := E_y (obs_bw i);
                    E_z := E_z (obs_bw i); S_x := S_x (obs_bw i);
                    S_y := S_y (obs_bw i); S_z := S_z (obs_bw i);
                    MJD := 7 + MJD (obs_bw i); Filter := Filter (obs_bw i) |})
       3 1 (fun _ => 0) 3 types_bw (fun _ => 0)) = 0.
Proof.
  assert (HN : (0 < 3)%nat) by lia.
  split; [split; [reflexivity | exact HN] |].
  apply (proj2
           (X8_uncovered_score_zero K_sample B_bw params_bw
              (fun i => {| V := V (obs_bw i); w := w (obs_bw i);
                           E_x := E_x (obs_bw i); E_y := E_y (obs_bw i);
                           E_z := E_z (obs_bw i); S_x := S_x (obs_bw i);
                           S_y := S_y (obs_bw i); S_z := S_z (obs_bw i);
                           MJD := 7 + MJD (obs_bw i);
                           Filter := Filter (obs_bw i) |})
              3 1 (fun _ => 0) 3 types_bw (fun _ => 0) eq_refl HN)).
  intros i Hi. right. cbn [MJD].
  destruct i as [| [| i]]; simpl; lra.
Defined.

(** ** chi2_minima *)

(** Conversion to [int] of a double that holds an integer. *)
Lemma trunc_IZR (z : Z) : trunc (IZR z) = z.
Proof.
  unfold trunc. destruct (Rle_dec 0 (IZR z)) as [H | H].
  - apply ZfloorZ.
  - rewrite <- opp_IZR, ZfloorZ. lia.
Qed.

(** The only early exit of the data loop returns -1. *)
Lemma data_loop_exit (K : macros) (B : build) (fr : mframe)
    (mu : R * R * R) (b c kappa : R) (sData : nat -> obs_data)
    (delta_V : nat -> R) (Nplot : nat) :
  forall (points : list nat) (s : chi_state) (r : R),
    (N_minima (mins s) <= MAX_MINIMA K)%nat ->
    data_loop K B fr mu b c kappa sData delta_V Nplot points s = inl r ->
    r = -1.
Proof.
  induction points as [| i rest IH]; intros s r Hm E.
  - discriminate.
  - cbn [data_loop] in E.
    pose proof (data_point_grown K B fr mu b c kappa sData delta_V Nplot i s Hm)
      as H1.
    destruct (data_point K B fr mu b c kappa sData delta_V Nplot i s)
      as [r1 | s1].
    + inversion E. subst. apply H1.
    + destruct H1 as (_ & G2 & _). exact (IH s1 r G2 E).
Qed.

(** In minima-scoring mode chi2one returns an integer from -1 to 7. *)
Lemma chi2one_minima_range (K : macros) (B : build) (params : nat -> R)
    (sData : nat -> obs_data) (N_data N_filters : nat) (delta_V : nat -> R)
    (Nplot : nat) (sTypes : ptype -> nat -> nat) (d_Vmod0 : nat -> R) :
  MINIMA_TEST B = true -> (0 < Nplot)%nat ->
  exists z, (-1 <= z <= 7)%Z /\
    chi_value (chi2one K B params sData N_data N_filters delta_V Nplot sTypes
                 d_Vmod0) = IZR z.
Proof.
  intros HB HN. unfold chi2one.
  destruct (data_loop _ _ _ _ _ _ _ _ _ _ _ _) as [r | s] eqn:E.
  - apply data_loop_exit in E; [| simpl; lia].
    exists (-1)%Z. split; [lia |]. cbn [chi_value]. exact E.
  - rewrite HB. destruct (Nat.ltb_spec 0 Nplot) as [_ | Hc]; [| lia].
    cbn [andb chi_value].
    destruct (minima_result_cases (mins s)) as (_ & [Hm | (z & Hz & Hm)] & _).
    + exists (-1)%Z. split; [lia | exact Hm].
    + exists z. split; [lia | exact Hm].
Qed.

Lemma positive_sum_S (score : nat -> Z) (n : nat) :
  positive_sum score (S n)
  = positive_sum score n
    + (if (0 <? score n)%Z then IZR (score n) else 0).
Proof. unfold positive_sum. apply sum_upto_S. Qed.

Lemma count_7_S (score : nat -> Z) (n : nat) :
  count_7 score (S n)
  = (count_7 score n + if (score n =? 7)%Z then 1 else 0)%nat.
Proof.
  unfold count_7. rewrite seq_S, filter_app, length_app. simpl.
  destruct (score n =? 7)%Z; reflexivity.
Qed.

(** The averaging loop. *)
Lemma average_scores_spec (score : nat -> Z) (n : nat) :
  average_scores score n
  = (positive_sum score n / INR n, Z.of_nat (count_7 score n)).
Proof.
  unfold average_scores.
  assert (H : fold_left
                (fun (a : R * Z) (i : nat) =>
                   (if (0 <? score i)%Z then fst a + IZR (score i) else fst a,
                    if (score i =? 7)%Z then (snd a + 1)%Z else snd a))
                (seq 0 n) (0.0, 0%Z)
              = (positive_sum score n, Z.of_nat (count_7 score n))).
  { induction n as [| n IH].
    - unfold positive_sum, count_7. rewrite sum_upto_0.
      cbn [seq filter length fold_left Z.of_nat]. f_equal. apply dec_0_0.
    - rewrite seq_S, fold_left_app, IH. cbn [fold_left fst snd Nat.add].
      rewrite positive_sum_S, count_7_S.
      destruct (0 <? score n)%Z; destruct (score n =? 7)%Z;
        f_equal; try lra; lia. }
  rewrite H. reflexivity.
Qed.

Lemma positive_sum_bounds (score : nat -> Z) (n : nat) :
  (forall i, (i < n)%nat -> (score i <= 7)%Z) ->
  0 <= positive_sum score n <= 7 * INR n /\
  (positive_sum score n = 7 * INR n ->
   forall i, (i < n)%nat -> score i = 7%Z).
Proof.
  intros Hs. induction n as [| n IH].
  - unfold positive_sum. rewrite sum_upto_0. simpl.
    split; [lra |]. intros _ i Hi. lia.
  - destruct IH as [[IH0 IH7] IHall]; [intros i Hi; apply Hs; lia |].
    rewrite positive_sum_S, S_INR.
    assert (Hn : (score n <= 7)%Z) by (apply Hs; lia).
    assert (Hterm : 0 <= (if (0 <? score n)%Z then IZR (score n) else 0) <= 7).
    { destruct (Z.ltb_spec 0 (score n)).
      - split; [apply IZR_le; lia | apply IZR_le; lia].
      - lra. }
    split; [lra |].
    intros Heq i Hi.
    assert (H7 : positive_sum score n = 7 * INR n) by lra.
    assert (Ht : (if (0 <? score n)%Z then IZR (score n) else 0) = 7) by lra.
    destruct (Nat.eq_dec i n) as [-> | Hne].
    + destruct (Z.ltb_spec 0 (score n)); [| lra].
      apply eq_IZR. exact Ht.
    + apply IHall; [exact H7 | lia].
Qed.

Lemma positive_sum_all_7 (score : nat -> Z) (n : nat) :
  (forall i, (i < n)%nat -> score i = 7%Z) ->
  positive_sum score n = 7 * INR n.
Proof.
  intros H. induction n as [| n IH].
  - unfold positive_sum. rewrite sum_upto_0. simpl. lra.
  - rewrite positive_sum_S, S_INR, IH by (intros i Hi; apply H; lia).
    rewrite (H n) by lia. simpl. lra.
Qed.

Lemma count_7_le (score : nat -> Z) (n : nat) : (count_7 score n <= n)%nat.
Proof.
  induction n as [| n IH]; [reflexivity |].
  rewrite count_7_S. destruct (score n =? 7)%Z; lia.
Qed.

(** X9: chi2_minima, in a MINIMA_TEST build with Nplot > 0 and a block of
    blockDim.x > 0 threads.  Every thread's score is an integer from -1 to
    7.  The block stores in d_Scores[blockIdx.x][blockIdx.y] the sum of
    the positive scores of its threads divided by blockDim.x -- a bad
    score (-1) counts as 0 -- which lies between 0 and 7 and is 7 exactly
    when every thread scored 7; it writes no other entry of d_Scores, and
    adds to d_N7all the number of its threads that scored 7, at most
    blockDim.x. *)
Theorem X9_chi2_minima_scores (K : macros) (B : build) (d_params0 : nat -> R)
    (dTypes : ptype -> nat -> nat) (dData : nat -> obs_data)
    (N_data N_filters : nat) (dPlot : nat -> obs_data) (Nplot : nat)
    (rest : nat -> nat -> R) (delta_V d_Vmod0 : nat -> R)
    (blockDim_x blockIdx_x gridDim_x blockIdx_y gridDim_y : nat)
    (old : minima_out) :
  MINIMA_TEST B = true -> (0 < Nplot)%nat -> (0 < blockDim_x)%nat ->
  let score :=
    thread_score K B d_params0 dTypes dData N_data N_filters dPlot Nplot
      rest delta_V d_Vmod0 blockDim_x blockIdx_x gridDim_x blockIdx_y
      gridDim_y in
  let out :=
    chi2_minima K B d_params0 dTypes dData N_data N_filters dPlot Nplot
      rest delta_V d_Vmod0 blockDim_x blockIdx_x gridDim_x blockIdx_y
      gridDim_y old in
  let mean := d_Scores out blockIdx_x blockIdx_y in
  (forall tid, (-1 <= score tid <= 7)%Z) /\
  mean = positive_sum score blockDim_x / INR blockDim_x /\
  0 <= mean <= 7 /\
  (mean = 7 <-> forall tid, (tid < blockDim_x)%nat -> score tid = 7%Z) /\
  (forall bx by_, (bx, by_) <> (blockIdx_x, blockIdx_y) ->
     d_Scores out bx by_ = d_Scores old bx by_) /\
  d_N7all out = (d_N7all old + Z.of_nat (count_7 score blockDim_x))%Z /\
  (d_N7all old <= d_N7all out <= d_N7all old + Z.of_nat blockDim_x)%Z.
Proof.
  intros HB HN Hbd score out mean.
  assert (Hrange : forall tid, (-1 <= score tid <= 7)%Z).
  { intros tid. unfold score, thread_score.
    destruct (chi2one_minima_range K B
                (minima_params (read_params0 d_params0 (rest tid)) dTypes tid
                   blockDim_x blockIdx_x gridDim_x blockIdx_y gridDim_y)
                dPlot Nplot N_filters
                (chi_delta_V
                   (chi2one K B (read_params0 d_params0 (rest 0%nat)) dData
                      N_data N_filters delta_V 0 dTypes d_Vmod0))
                Nplot dTypes
                (chi_d_Vmod
                   (chi2one K B (read_params0 d_params0 (rest 0%nat)) dData
                      N_data N_filters delta_V 0 dTypes d_Vmod0))
                HB HN) as (z & Hz & Ez).
    rewrite Ez, trunc_IZR. exact Hz. }
  assert (Hout : out
                 = {| d_Scores :=
                        upd (d_Scores old) blockIdx_x
                          (upd (d_Scores old blockIdx_x) blockIdx_y
                             (positive_sum score blockDim_x / INR blockDim_x));
                      d_N7all :=
                        (d_N7all old + Z.of_nat (count_7 score blockDim_x))%Z |}).
  { unfold out, chi2_minima. fold score.
    rewrite average_scores_spec. reflexivity. }
  assert (Hmean : mean = positive_sum score blockDim_x / INR blockDim_x).
  { unfold mean. rewrite Hout. cbn [d_Scores]. now rewrite !upd_same. }
  assert (Hpos : 0 < INR blockDim_x) by (apply lt_0_INR; lia).
  destruct (positive_sum_bounds score blockDim_x
              (fun i _ => proj2 (Hrange i))) as [[Hs0 Hs7] Hall].
  split; [exact Hrange |]. split; [exact Hmean |].
  split; [| split; [| split; [| split]]].
  - rewrite Hmean. split.
    + apply Rmult_le_pos; [exact Hs0 |]. left. now apply Rinv_0_lt_compat.
    + apply Rmult_le_reg_r with (INR blockDim_x); [exact Hpos |].
      unfold Rdiv. rewrite Rmult_assoc, Rinv_l by lra. lra.
  - rewrite Hmean. split.
    + intros H7. apply Hall.
      apply Rmult_eq_compat_r with (r := INR blockDim_x) in H7.
      unfold Rdiv in H7. rewrite Rmult_assoc, Rinv_l in H7 by lra. lra.
    + intros Hevery.
      pose proof (positive_sum_all_7 score blockDim_x Hevery) as Hsum.
      rewrite Hsum. field. lra.
  - intros bx by_ Hne. rewrite Hout. cbn [d_Scores]. unfold upd.
    destruct (Nat.eqb_spec bx blockIdx_x) as [-> | Hx]; [| reflexivity].
    destruct (Nat.eqb_spec by_ blockIdx_y) as [-> | Hy]; [| reflexivity].
    now contradiction Hne.
  - rewrite Hout. reflexivity.
  - rewrite Hout. cbn [d_N7all].
    pose proof (count_7_le score blockDim_x). lia.
Qed.

(** A block of two threads on the light curve of [params_bw]. *)
Lemma X9_chi2_minima_scores_witness :
  (MINIMA_TEST B_bw = true /\ (0 < 3)%nat /\ (0 < 2)%nat) /\
  (let out :=
     chi2_minima K_sample B_bw params_bw types_bw obs_bw 3 1 obs_bw 3
       (fun _ => params_bw) (fun _ => 0) (fun _ => 0) 2 0 2 0 1
       scores_empty in
   (d_N7all scores_empty <= d_N7all out
    <= d_N7all scores_empty + Z.of_nat 2)%Z).
Proof.
  assert (HN : (0 < 3)%nat) by lia.
  assert (Hb : (0 < 2)%nat) by lia.
  split; [repeat split; assumption |].
  apply (X9_chi2_minima_scores K_sample B_bw params_bw types_bw obs_bw 3 1
           obs_bw 3 (fun _ => params_bw) (fun _ => 0) (fun _ => 0) 2 0 2 0 1
           scores_empty eq_refl HN Hb).
Defined.

(** X10: the grid of chi2_minima.  For a grid with an even number
    gridDim.x of blocks along x and a table that keeps theta_M and phi_M in
    different slots, the block blockIdx.x < gridDim.x sets
    cos(theta_M) = (2 blockIdx.x + 1) / gridDim.x - 1: the values are
    equally spaced and never 0, theta_M is strictly between 0 and pi, the
    momentum is never along the y axis, and so the body axes of every
    thread are orthonormal for all Euler angles. *)
Theorem X10_chi2_minima_grid (params : nat -> R)
    (sTypes : ptype -> nat -> nat)
    (threadIdx_x blockDim_x blockIdx_x gridDim_x blockIdx_y gridDim_y : nat) :
  Nat.Even gridDim_x -> (blockIdx_x < gridDim_x)%nat ->
  sTypes T_theta_M 0%nat <> sTypes T_phi_M 0%nat ->
  let p := minima_params params sTypes threadIdx_x blockDim_x blockIdx_x
             gridDim_x blockIdx_y gridDim_y in
  let theta_M := p (sTypes T_theta_M 0%nat) in
  let phi_M := p (sTypes T_phi_M 0%nat) in
  cos theta_M = (2 * INR blockIdx_x + 1) / INR gridDim_x - 1 /\
  cos theta_M <> 0 /\
  0 < theta_M < PI /\
  phi_M = INR blockIdx_y / INR gridDim_y * 2 * PI_macro /\
  forall phi theta psi,
    orthonormal (body_axes (momentum_frame theta_M phi_M) phi theta psi).
Proof.
  intros [k Hk] Hbx Hslots p theta_M phi_M.
  assert (Hg : 0 < INR gridDim_x) by (apply lt_0_INR; lia).
  set (z := (INR blockIdx_x - INR (gridDim_x - 1) / 2.0)
            / (INR gridDim_x / 2.0)).
  assert (Et : theta_M = acos z).
  { unfold theta_M, p, minima_params.
    rewrite upd_other by exact Hslots. now rewrite upd_same. }
  assert (Ez : z = (2 * INR blockIdx_x + 1) / INR gridDim_x - 1).
  { unfold z. rewrite minus_INR by lia. simpl INR. rewrite dec_2_0.
    field. lra. }
  assert (Hb1 : INR blockIdx_x + 1 <= INR gridDim_x).
  { rewrite <- S_INR. apply le_INR. lia. }
  assert (Hb0 : 0 <= INR blockIdx_x) by apply pos_INR.
  assert (Hi : 0 < / INR gridDim_x) by (now apply Rinv_0_lt_compat).
  assert (Hz : -1 < z < 1).
  { rewrite Ez. unfold Rdiv. split.
    - assert (0 < (2 * INR blockIdx_x + 1) * / INR gridDim_x) by nra. lra.
    - assert ((2 * INR blockIdx_x + 1) * / INR gridDim_x
              < 2 * INR gridDim_x * / INR gridDim_x) by nra.
      rewrite Rmult_assoc, Rinv_r in H by lra. lra. }
  assert (Hc : cos theta_M = z) by (rewrite Et; apply cos_acos; lra).
  assert (Hnz : z <> 0).
  { rewrite Ez. intros H0.
    assert (H1 : 2 * INR blockIdx_x + 1 = INR gridDim_x).
    { apply Rmult_eq_reg_r with (/ INR gridDim_x); [| lra].
      rewrite Rinv_r by lra. unfold Rdiv in H0. lra. }
    assert (H2 : INR (2 * blockIdx_x + 1) = INR gridDim_x).
    { rewrite plus_INR, mult_INR. simpl INR. lra. }
    apply INR_eq in H2. lia. }
  split; [rewrite Hc; exact Ez |].
  split; [rewrite Hc; exact Hnz |].
  split; [rewrite Et; apply acos_bound_lt; exact Hz |].
  split.
  - unfold phi_M, p, minima_params. now rewrite upd_same.
  - intros phi theta psi. apply body_axes_orthonormal, momentum_frame_ok.
    rewrite Hc.
    assert (0 < z * z) by nra.
    assert (0 <= sin theta_M * cos phi_M * (sin theta_M * cos phi_M)) by nra.
    lra.
Qed.

(** Block 0 of a grid of two blocks along x. *)
Lemma X10_chi2_minima_grid_witness :
  (Nat.Even 2 /\ (0 < 2)%nat /\
   types_bw T_theta_M 0%nat <> types_bw T_phi_M 0%nat) /\
  cos (minima_params params_bw types_bw 0 2 0 2 0 1
         (types_bw T_theta_M 0%nat)) <> 0.
Proof.
  assert (He : Nat.Even 2) by (exists 1%nat; reflexivity).
  assert (Hb : (0 < 2)%nat) by lia.
  assert (Hs : types_bw T_theta_M 0%nat <> types_bw T_phi_M 0%nat)
    by (simpl; lia).
  split; [repeat split; assumption |].
  exact (proj1 (proj2
           (X10_chi2_minima_grid params_bw types_bw 0 2 0 2 0 1 He Hb Hs))).
Defined.

(** ** The codec: decoding then encoding, frozen slots *)

(** X11: decoding then encoding.  For a free independent slot that is not
    one of the derived b_tumb, Es, psi_0, with PERIODIC = 1 (the literal
    params2x tests) and, for a bounded slot, limits that differ: when
    x2params accepts the vector x, encoding the decoded parameters with
    params2x gives back the coordinate x[i] of a bounded slot, and the
    coordinate of a periodic slot reduced to [0, 1), x[i] - floor(x[i]),
    which is x[i] itself when 0 <= x[i] < 1. *)
Theorem X11_decode_encode (K : macros) (B : build) (locp : p2x_locals)
    (loc : x2p_locals) (x x0 params0 : nat -> R)
    (sLimits : nat -> ptype -> R) (sProperty : nat -> property)
    (sTypes : ptype -> nat -> nat) (i : nat) :
  let t := P_type (sProperty i) in
  let l0 := sLimits 0%nat t in
  let l1 := sLimits 1%nat t in
  let r := x2params K B loc x params0 sLimits sProperty sTypes in
  let x' := params2x B locp x0 (snd r) sLimits sProperty sTypes in
  PERIODIC K = 1%Z ->
  (i < N_PARAMS)%nat ->
  P_frozen (sProperty i) = 0%Z ->
  P_independent (sProperty i) = 1%Z ->
  t <> T_b_tumb -> t <> T_Es -> t <> T_psi_0 ->
  (P_periodic (sProperty i) <> 1%Z -> l0 <> l1) ->
  fst r = 0%Z ->
  x' i = (if (P_periodic (sProperty i) =? 1)%Z
          then x i - floor (x i) else x i) /\
  (0 <= x i < 1 -> x' i = x i).
Proof.
  intros t l0 l1 r x' HP Hi Hf Hind Ht1 Ht2 Ht3 Hlim Hacc.
  pose proof PI_macro_pos as Hpi.
  assert (Hp : snd r i
               = if (P_periodic (sProperty i) =? 1)%Z
                 then x i * 2.0 * PI_macro
                 else
                   let v := x i * (l1 - l0) + l0 in
                   if log_scaled B t then exp v else v).
  { destruct (x2params_at K B loc x params0 sLimits sProperty sTypes i Hi Hacc)
      as (LAM & st & _ & E).
    fold r in E. rewrite E.
    rewrite x2params_slot_indep by assumption.
    rewrite HP. reflexivity. }
  assert (Hx : x' i = if (P_periodic (sProperty i) =? 1)%Z
                      then x i - floor (x i) else x i).
  { unfold x'.
    destruct (params2x_at B locp x0 (snd r) sLimits sProperty sTypes i Hi)
      as (st & E).
    rewrite E, params2x_slot_indep by assumption.
    rewrite Hp.
    destruct (Z.eqb_spec (P_periodic (sProperty i)) 1) as [Hper | Hper].
    - assert (Eq : x i * 2.0 * PI_macro / (2 * PI_macro) = x i)
        by (rewrite dec_2_0; field; lra).
      rewrite Eq. reflexivity.
    - specialize (Hlim Hper). fold t l0 l1. cbv zeta.
      assert (Hq : (x i * (l1 - l0) + l0 - l0) / (l1 - l0) = x i)
        by (field; lra).
      destruct (log_scaled B t); [rewrite ln_exp |]; exact Hq. }
  split; [exact Hx |].
  intros Hr. rewrite Hx.
  destruct (P_periodic (sProperty i) =? 1)%Z; [| reflexivity].
  assert (Hfl : floor (x i) = 0).
  { unfold floor. replace 0 with (IZR 0) by reflexivity. f_equal.
    apply Zfloor_eq. simpl. lra. }
  rewrite Hfl. lra.
Qed.

(** The momentum longitude phi_M of the tumbling table at a quarter of a
    turn. *)
Lemma X11_decode_encode_witness :
  (PERIODIC K_sample = 1%Z /\ (1 < N_PARAMS)%nat /\
   P_frozen (props_tumb 1%nat) = 0%Z /\
   P_independent (props_tumb 1%nat) = 1%Z /\
   fst (x2params K_sample B_default loc_sample (fun _ => 0.25) (fun _ => 0)
          limits_tumb props_tumb types_tumb) = 0%Z) /\
  params2x B_default p2x_sample (fun _ => 0)
    (snd (x2params K_sample B_default loc_sample (fun _ => 0.25) (fun _ => 0)
            limits_tumb props_tumb types_tumb))
    limits_tumb props_tumb types_tumb 1%nat = 0.25.
Proof.
  assert (Hi : (1 < N_PARAMS)%nat) by (unfold N_PARAMS; lia).
  assert (Hacc : fst (x2params K_sample B_default loc_sample (fun _ => 0.25)
                        (fun _ => 0) limits_tumb props_tumb types_tumb) = 0%Z).
  { destruct (x2params_status K_sample B_default loc_sample (fun _ => 0.25)
                (fun _ => 0) limits_tumb props_tumb types_tumb)
      as [Hrej [H0 | H1]]; [exact H0 |].
    apply Hrej in H1. destruct H1 as (i & _ & [[Hx _] | [Hx _]]); lra. }
  split; [repeat split; try reflexivity; assumption |].
  apply (proj2
           (X11_decode_encode K_sample B_default p2x_sample loc_sample
              (fun _ => 0.25) (fun _ => 0) (fun _ => 0) limits_tumb props_tumb
              types_tumb 1%nat eq_refl Hi eq_refl eq_refl
              ltac:(discriminate) ltac:(discriminate) ltac:(discriminate)
              (fun H => False_ind _ (H eq_refl)) Hacc)).
  lra.
Defined.

(** X12: frozen slots are not encoded.  For a slot with P_frozen <> 0,
    params2x writes the coordinate 0 whatever the parameter is.  x2params
    does not look at P_frozen: when it accepts the encoded vector, an
    independent frozen slot that is not b_tumb, Es or psi_0 decodes to 0
    if it is periodic and otherwise to the lower limit of its type (its
    exponential for a logarithmic type), not to the parameter that was
    encoded. *)
Theorem X12_frozen_not_encoded (K : macros) (B : build) (locp : p2x_locals)
    (loc : x2p_locals) (x0 params params0 : nat -> R)
    (sLimits : nat -> ptype -> R) (sProperty : nat -> property)
    (sTypes : ptype -> nat -> nat) (i : nat) :
  let t := P_type (sProperty i) in
  let l0 := sLimits 0%nat t in
  let x := params2x B locp x0 params sLimits sProperty sTypes in
  let r := x2params K B loc x params0 sLimits sProperty sTypes in
  (i < N_PARAMS)%nat ->
  P_frozen (sProperty i) <> 0%Z ->
  x i = 0 /\
  (fst r = 0%Z -> P_independent (sProperty i) = 1%Z ->
   t <> T_b_tumb -> t <> T_Es -> t <> T_psi_0 ->
   snd r i = if (P_periodic (sProperty i) =? PERIODIC K)%Z then 0
             else if log_scaled B t then exp l0 else l0).
Proof.
  intros t l0 x r Hi Hf.
  assert (Hx : x i = 0).
  { unfold x.
    destruct (params2x_at B locp x0 params sLimits sProperty sTypes i Hi)
      as ([l xs] & E).
    rewrite E. unfold params2x_slot.
    destruct (Z.eqb_spec (P_frozen (sProperty i)) 0) as [H0 | _];
      [contradiction |].
    cbn [negb snd]. apply upd_same. }
  split; [exact Hx |].
  intros Hacc Hind Ht1 Ht2 Ht3.
  destruct (x2params_at K B loc x params0 sLimits sProperty sTypes i Hi Hacc)
    as (LAM & st & _ & E).
  fold r in E. rewrite E.
  rewrite x2params_slot_indep by assumption.
  rewrite Hx. fold t l0.
  destruct (P_periodic (sProperty i) =? PERIODIC K)%Z; [lra |].
  cbv zeta.
  replace (0 * (sLimits 1%nat t - l0) + l0) with l0 by lra.
  reflexivity.
Qed.

(** A frozen angular momentum L = 5 with the limits [0, 10]. *)
Lemma X12_frozen_not_encoded_witness :
  ((3 < N_PARAMS)%nat /\ P_frozen (props_frozen 3%nat) <> 0%Z) /\
  params2x B_default p2x_sample (fun _ => 0.5) (params_tumb 0.5) limits_tumb
    props_frozen types_tumb 3%nat = 0.
Proof.
  assert (Hi : (3 < N_PARAMS)%nat) by (unfold N_PARAMS; lia).
  assert (Hf : P_frozen (props_frozen 3%nat) <> 0%Z) by discriminate.
  split; [split; assumption |].
  exact (proj1
           (X12_frozen_not_encoded K_sample B_default p2x_sample loc_sample
              (fun _ => 0.5) (params_tumb 0.5) (fun _ => 0) limits_tumb
              props_frozen types_tumb 3%nat Hi Hf)).
Defined.

(** ** The size of the simplex *)

Lemma sum_upto_nonneg (n : nat) (g : nat -> R) :
  (forall j, (j < n)%nat -> 0 <= g j) -> 0 <= sum_upto n g.
Proof.
  intros Hg. induction n as [| n IH].
  - rewrite sum_upto_0. lra.
  - rewrite sum_upto_S.
    assert (0 <= sum_upto n g) by (apply IH; intros j Hj; apply Hg; lia).
    assert (0 <= g n) by (apply Hg; lia). lra.
Qed.

Lemma sum_upto_zero (n : nat) (g : nat -> R) :
  (forall j, (j < n)%nat -> 0 <= g j) ->
  sum_upto n g = 0 -> forall j, (j < n)%nat -> g j = 0.
Proof.
  intros Hg. induction n as [| n IH]; intros Hs j Hj; [lia |].
  rewrite sum_upto_S in Hs.
  assert (H1 : 0 <= sum_upto n g)
    by (apply sum_upto_nonneg; intros k Hk; apply Hg; lia).
  assert (H2 : 0 <= g n) by (apply Hg; lia).
  destruct (Nat.eq_dec j n) as [-> | Hne]; [lra |].
  apply IH; [intros k Hk; apply Hg; lia | lra | lia].
Qed.

Lemma sum_upto_all_zero (n : nat) (g : nat -> R) :
  (forall j, (j < n)%nat -> g j = 0) -> sum_upto n g = 0.
Proof.
  intros Hg. induction n as [| n IH].
  - apply sum_upto_0.
  - rewrite sum_upto_S, IH, Hg by (try lia; intros j Hj; apply Hg; lia). lra.
Qed.

(** X13: the size of the simplex.  size2, the sum over the N_PARAMS + 1
    vertices of the squared distance to the centroid divided by N_PARAMS,
    is never negative, and it is 0 exactly when the vertices coincide in
    every coordinate below N_PARAMS. *)
Theorem X13_size2_degenerate (x : nat -> nat -> R) :
  0 <= size2 x (centroid x) /\
  (size2 x (centroid x) = 0 <->
   forall j i, (j < N_PARAMS + 1)%nat -> (i < N_PARAMS)%nat ->
     x j i = x 0%nat i).
Proof.
  set (d := fun j i => (x j i - centroid x i) * (x j i - centroid x i)).
  set (row := fun j => sum_upto N_PARAMS (fun i => d j i)).
  assert (Hs : size2 x (centroid x)
               = sum_upto (N_PARAMS + 1) row / INR N_PARAMS) by reflexivity.
  assert (Hd : forall j i, 0 <= d j i).
  { intros j i. unfold d. apply Rle_0_sqr. }
  assert (Hrow : forall j, 0 <= row j).
  { intros j. apply sum_upto_nonneg. intros i _. apply Hd. }
  assert (Htot : 0 <= sum_upto (N_PARAMS + 1) row).
  { apply sum_upto_nonneg. intros j _. apply Hrow. }
  assert (H7 : INR N_PARAMS = 7) by (simpl; lra).
  rewrite Hs, H7.
  split; [lra |]. split.
  - intros H0.
    assert (Hz : sum_upto (N_PARAMS + 1) row = 0) by lra.
    assert (Hc : forall j i, (j < N_PARAMS + 1)%nat -> (i < N_PARAMS)%nat ->
                   x j i = centroid x i).
    { intros j i Hj Hi.
      pose proof (sum_upto_zero _ row (fun k _ => Hrow k) Hz j Hj) as Hr.
      pose proof (sum_upto_zero _ (fun i => d j i) (fun k _ => Hd j k) Hr i Hi)
        as Hdi.
      unfold d in Hdi. cbv beta in Hdi. nra. }
    intros j i Hj Hi. rewrite (Hc j i Hj Hi).
    symmetry. apply Hc; [unfold N_PARAMS; lia | exact Hi].
  - intros Hall.
    assert (Hc : forall i, (i < N_PARAMS)%nat -> centroid x i = x 0%nat i).
    { intros i Hi. rewrite centroid_all.
      rewrite (Hall 1%nat i), (Hall 2%nat i), (Hall 3%nat i), (Hall 4%nat i),
        (Hall 5%nat i), (Hall 6%nat i), (Hall 7%nat i)
        by (try exact Hi; unfold N_PARAMS; lia).
      lra. }
    assert (Hz : sum_upto (N_PARAMS + 1) row = 0).
    { apply sum_upto_all_zero. intros j Hj.
      apply sum_upto_all_zero. intros i Hi.
      unfold d. rewrite Hc, (Hall j i) by assumption. lra. }
    rewrite Hz. lra.
Qed.

(** ** The simplex loop *)

(** An evaluation changes params[], delta_V[] and the count of calls
    only. *)
Lemma evaluate_frame (K : macros) (B : build) (loc : x2p_locals)
    (sh : shared) (xv : nat -> R) (t : thread) :
  let t' := snd (evaluate K B loc sh xv t) in
  th_x t' = th_x t /\ th_f t' = th_f t /\ th_ind t' = th_ind t /\
  th_l t' = th_l t /\ th_failed t' = th_failed t /\
  (th_calls t <= th_calls t' <= S (th_calls t))%nat.
Proof.
  unfold evaluate.
  destruct (x2params K B loc xv (th_params t) (sLimits sh) (sProperty sh)
              (sTypes sh)) as [status params'].
  destruct (negb (status =? 0)%Z); cbn [snd th_x th_f th_ind th_l th_failed
                                         th_calls];
    repeat split; lia.
Qed.

(** The shrink moves the vertices it is given and no other. *)
Lemma shrink_frame (K : macros) (B : build) (loc : x2p_locals) (sh : shared) :
  forall (js : list nat) (bad : bool) (t : thread),
    let t' := snd (shrink K B loc sh js bad t) in
    th_ind t' = th_ind t /\ th_l t' = th_l t /\
    th_failed t' = th_failed t /\
    (th_calls t <= th_calls t' <= th_calls t + length js)%nat /\
    forall k, (forall j, In j js -> th_ind t j <> k) ->
      th_x t' k = th_x t k /\ th_f t' k = th_f t k.
Proof.
  induction js as [| j rest IH]; intros bad t.
  - cbn. repeat split; lia.
  - cbn [shrink].
    set (t1 := set_vertex t (th_ind t j) _).
    pose proof (evaluate_frame K B loc sh (th_x t1 (th_ind t1 j)) t1)
      as (Ex & Ef & Ei & El & Efail & Ec).
    destruct (evaluate K B loc sh (th_x t1 (th_ind t1 j)) t1)
      as [[status v] t2].
    cbn [snd] in Ex, Ef, Ei, El, Efail, Ec.
    assert (Hind : th_ind t2 = th_ind t) by (rewrite Ei; reflexivity).
    assert (Hc1 : th_calls t1 = th_calls t) by reflexivity.
    destruct (negb (status =? 0)%Z).
    + destruct (IH true t2) as (I1 & I2 & I3 & I4 & I5).
      cbn [length].
      split; [rewrite I1; exact Hind |].
      split; [rewrite I2; exact El |].
      split; [rewrite I3; exact Efail |].
      split; [lia |].
      intros k Hk.
      destruct (I5 k) as [Jx Jf].
      { intros j' Hj'. rewrite Hind. apply Hk. now right. }
      rewrite Jx, Jf, Ex, Ef. unfold t1. cbn [set_vertex th_x th_f].
      split; [| reflexivity].
      apply upd_other. intros E. apply (Hk j); [now left | now symmetry].
    + destruct (IH bad (set_f t2 (th_ind t2 j) v)) as (I1 & I2 & I3 & I4 & I5).
      cbn [set_f th_ind th_l th_failed th_calls] in I1, I2, I3, I4, I5.
      cbn [length].
      split; [rewrite I1; exact Hind |].
      split; [rewrite I2; exact El |].
      split; [rewrite I3; exact Efail |].
      split; [lia |].
      intros k Hk.
      destruct (I5 k) as [Jx Jf].
      { intros j' Hj'. rewrite Hind. apply Hk. now right. }
      rewrite Jx, Jf. cbn [set_f th_x th_f]. rewrite Ex, Ef, Hind.
      assert (Hne : k <> th_ind t j).
      { intros E. apply (Hk j); [now left | now symmetry]. }
      unfold t1. cbn [set_vertex th_x th_f].
      split; apply upd_other; exact Hne.
Qed.

Lemma pass_frame_refl (t : thread) : pass_frame 0 t t.
Proof. unfold pass_frame. repeat split; lia. Qed.

Lemma pass_frame_trans (n m : nat) (t t1 t2 : thread) :
  pass_frame n t t1 -> pass_frame m t1 t2 -> pass_frame (n + m) t t2.
Proof.
  intros (A1 & A2 & A3 & A4 & A5) (B1 & B2 & B3 & B4 & B5).
  unfold pass_frame.
  split; [congruence |]. split; [congruence |]. split; [congruence |].
  split; [lia |].
  intros k Hk. destruct (A5 k Hk) as [Ax Af].
  destruct (B5 k) as [Bx Bf]; [rewrite A1; exact Hk |].
  split; congruence.
Qed.

Lemma pass_frame_evaluate (K : macros) (B : build) (loc : x2p_locals)
    (sh : shared) (xv : nat -> R) (t : thread) :
  pass_frame 1 t (snd (evaluate K B loc sh xv t)).
Proof.
  destruct (evaluate_frame K B loc sh xv t) as (Ex & Ef & Ei & El & Efail & Ec).
  unfold pass_frame. rewrite Ex, Ef, Ei, El, Efail.
  repeat split; lia.
Qed.

Lemma pass_frame_replace (t : thread) (xv : nat -> R) (v : R) :
  pass_frame 0 t (replace_worst t xv v).
Proof.
  unfold pass_frame, replace_worst.
  cbn [set_f set_vertex th_x th_f th_ind th_l th_failed th_calls].
  repeat split; try lia.
  - apply upd_other. intros E. apply (H N_PARAMS); [unfold N_PARAMS; lia |].
    now symmetry.
  - apply upd_other. intros E. apply (H N_PARAMS); [unfold N_PARAMS; lia |].
    now symmetry.
Qed.

Lemma pass_frame_shrink (K : macros) (B : build) (loc : x2p_locals)
    (sh : shared) (bad : bool) (t : thread) :
  pass_frame N_PARAMS t (snd (shrink K B loc sh (seq 1 N_PARAMS) bad t)).
Proof.
  destruct (shrink_frame K B loc sh (seq 1 N_PARAMS) bad t)
    as (I1 & I2 & I3 & I4 & I5).
  rewrite length_seq in I4.
  unfold pass_frame. repeat split; try assumption; try lia.
  - apply I5. intros j Hj. apply H. apply in_seq in Hj. lia.
  - apply I5. intros j Hj. apply H. apply in_seq in Hj. lia.
Qed.

(** One pass of the main loop from a thread that has not failed. *)
Lemma simplex_step_spec (K : macros) (B : build) (loc : x2p_locals)
    (sh : shared) (junk : nat -> R) (t : thread) :
  th_failed t = false ->
  let r := simplex_step K B loc sh junk t in
  (exists t1,
     pass_frame (N_PARAMS + 2) (after_sort t) t1 /\
     (snd r = t1 \/ (fst r = false /\ snd r = set_failed t1 true))) /\
  (fst r = true ->
   th_failed (snd r) = false /\ (th_l t + 1 <= N_STEPS K)%Z /\
   SIZE2_MIN K <= size2 (th_x t) (centroid (th_x t))) /\
  (fst r = false ->
   th_failed (snd r) = true \/
   size2 (th_x t) (centroid (th_x t)) < SIZE2_MIN K \/
   (N_STEPS K < th_l t + 1)%Z) /\
  (size2 (th_x t) (centroid (th_x t)) < SIZE2_MIN K \/
   (N_STEPS K < th_l t + 1)%Z ->
   r = (false, after_sort t)).
Proof.
  intros Hf r. unfold r, simplex_step. rewrite Hf.
  assert (Es : sort_simplex (N_PARAMS + 1) (th_f t) (th_ind t)
               = (th_f (after_sort t), th_ind (after_sort t))).
  { unfold after_sort. cbn [th_f th_ind]. now destruct (sort_simplex _ _ _). }
  rewrite Es. cbv beta iota zeta.
  assert (E0 : {| th_x := th_x t; th_f := th_f (after_sort t);
                  th_ind := th_ind (after_sort t); th_params := th_params t;
                  th_delta_V := th_delta_V t; th_l := (th_l t + 1)%Z;
                  th_failed := false; th_calls := th_calls t |}
               = after_sort t).
  { unfold after_sort. cbn [th_f th_ind]. rewrite Hf. reflexivity. }
  rewrite E0. clear E0.
  set (t0 := after_sort t).
  assert (Hx0 : th_x t0 = th_x t) by reflexivity.
  assert (Hl0 : th_l t0 = (th_l t + 1)%Z) by reflexivity.
  assert (Hf0 : th_failed t0 = false) by exact Hf.
  rewrite Hx0.
  destruct (Rltb (size2 (th_x t) (centroid (th_x t))) (SIZE2_MIN K)) eqn:Esz.
  { cbn [fst snd]. split; [| split; [| split]].
    - exists t0. split; [| now left].
      unfold pass_frame. repeat split; lia.
    - discriminate.
    - intros _. right. left. now apply Rltb_spec.
    - reflexivity. }
  apply Rltb_nspec in Esz.
  rewrite Hl0.
  destruct (Z.ltb_spec (N_STEPS K) (th_l t + 1)) as [Hst | Hst].
  { cbn [fst snd]. split; [| split; [| split]].
    - exists t0. split; [| now left].
      unfold pass_frame. repeat split; lia.
    - discriminate.
    - intros _. right. right. exact Hst.
    - reflexivity. }
  assert (Hno : size2 (th_x t) (centroid (th_x t)) < SIZE2_MIN K \/
                (N_STEPS K < th_l t + 1)%Z -> False)
    by (intros [H | H]; [lra | lia]).
  set (x_r := reflection K (sProperty sh) (th_x t) (th_ind t0) junk).
  pose proof (pass_frame_evaluate K B loc sh x_r t0) as F1.
  destruct (evaluate K B loc sh x_r t0) as [[s1 f_r] t1]. cbn [snd] in F1.
  assert (W : forall n t', pass_frame n t0 t' -> (n <= N_PARAMS + 2)%nat ->
              (exists t1,
                 pass_frame (N_PARAMS + 2) t0 t1 /\
                 (t' = t1 \/ (true = false /\ t' = set_failed t1 true))) /\
              (true = true ->
               th_failed t' = false /\ (th_l t + 1 <= N_STEPS K)%Z /\
               SIZE2_MIN K <= size2 (th_x t) (centroid (th_x t))) /\
              (true = false ->
               th_failed t' = true \/
               size2 (th_x t) (centroid (th_x t)) < SIZE2_MIN K \/
               (N_STEPS K < th_l t + 1)%Z) /\
              (size2 (th_x t) (centroid (th_x t)) < SIZE2_MIN K \/
               (N_STEPS K < th_l t + 1)%Z ->
               (true, t') = (false, t0))).
  { intros n t' Fr Hn. split; [| split; [| split]]; [| | | tauto].
    - exists t'. split; [| now left].
      destruct Fr as (A1 & A2 & A3 & A4 & A5).
      unfold pass_frame. repeat split; try assumption; try lia; now apply A5.
    - intros _. destruct Fr as (_ & _ & A3 & _). rewrite A3.
      repeat split; assumption.
    - discriminate. }
  destruct (Rgeb f_r (th_f t1 (th_ind t1 0%nat))
            && Rltb f_r (th_f t1 (th_ind t1 (N_PARAMS - 1)%nat))).
  { cbn [fst snd]. apply (W 1%nat); [| unfold N_PARAMS; lia].
    replace 1%nat with (1 + 0)%nat by lia.
    eapply pass_frame_trans; [exact F1 | apply pass_frame_replace]. }
  destruct (Rltb f_r (th_f t1 (th_ind t1 0%nat))).
  { set (x_e := expansion K (sProperty sh) (th_x t1) x_r junk).
    pose proof (pass_frame_evaluate K B loc sh x_e t1) as F2.
    destruct (evaluate K B loc sh x_e t1) as [[s2 f_e] t2]. cbn [snd] in F2.
    pose proof (pass_frame_trans _ _ _ _ _ F1 F2) as F12.
    destruct (Rltb f_e f_r); cbn [fst snd];
      apply (W (1 + 1 + 0)%nat); try (unfold N_PARAMS; lia);
      (eapply pass_frame_trans; [exact F12 | apply pass_frame_replace]). }
  set (x_c := contraction K (sProperty sh) (th_x t1) (th_ind t1) x_r).
  pose proof (pass_frame_evaluate K B loc sh x_c t1) as F2.
  destruct (evaluate K B loc sh x_c t1) as [[s2 f_c] t2]. cbn [snd] in F2.
  pose proof (pass_frame_trans _ _ _ _ _ F1 F2) as F12.
  destruct (Rltb f_c (th_f t2 (th_ind t2 N_PARAMS))).
  { cbn [fst snd]. apply (W (1 + 1 + 0)%nat); [| unfold N_PARAMS; lia].
    eapply pass_frame_trans; [exact F12 | apply pass_frame_replace]. }
  pose proof (pass_frame_shrink K B loc sh false t2) as F3.
  pose proof (pass_frame_trans _ _ _ _ _ F12 F3) as F123.
  destruct (shrink K B loc sh (seq 1 N_PARAMS) false t2) as [bad t3].
  cbn [snd] in F3, F123.
  destruct bad; cbn [fst snd].
  - split; [| split; [| split]].
    + exists t3. split; [| right; split; reflexivity].
      destruct F123 as (A1 & A2 & A3 & A4 & A5).
      unfold pass_frame. repeat split; try assumption; try lia; now apply A5.
    + discriminate.
    + intros _. left. reflexivity.
    + tauto.
  - apply (W (1 + 1 + N_PARAMS)%nat); [exact F123 | lia].
Qed.

(** A thread that has failed leaves the loop at once. *)
Lemma simplex_step_failed (K : macros) (B : build) (loc : x2p_locals)
    (sh : shared) (junk : nat -> R) (t : thread) :
  th_failed t = true -> simplex_step K B loc sh junk t = (false, t).
Proof. intros Hf. unfold simplex_step. now rewrite Hf. Qed.

Lemma simplex_loop_ends (K : macros) (B : build) (loc : x2p_locals)
    (sh : shared) (junk : nat -> nat -> R) :
  forall (n : nat) (t : thread) (pass : nat),
    (Z.to_nat (N_STEPS K - th_l t) <= n)%nat ->
    exists t',
      (forall fuel, (n < fuel)%nat ->
         simplex_loop K B loc sh junk fuel pass t = Some t') /\
      (th_calls t <= th_calls t' <= th_calls t + (N_PARAMS + 2) * n)%nat /\
      (th_failed t' = true \/
       size2 (th_x t') (centroid (th_x t')) < SIZE2_MIN K \/
       (N_STEPS K < th_l t')%Z).
Proof.
  induction n as [| n IH]; intros t pass Hn.
  - destruct (th_failed t) eqn:Hf.
    + exists t. split; [| split; [lia | now left]].
      intros [| fuel] Hfuel; [lia |].
      cbn [simplex_loop]. now rewrite simplex_step_failed.
    + destruct (simplex_step_spec K B loc sh (junk pass) t Hf)
        as (_ & _ & _ & Hexit).
      assert (Hl : (N_STEPS K < th_l t + 1)%Z) by lia.
      specialize (Hexit (or_intror Hl)).
      exists (after_sort t). split; [| split].
      * intros [| fuel] Hfuel; [lia |].
        cbn [simplex_loop]. now rewrite Hexit.
      * cbn [after_sort th_calls]. lia.
      * right. right. cbn [after_sort th_l]. lia.
  - destruct (th_failed t) eqn:Hf.
    + exists t. split; [| split; [lia | now left]].
      intros [| fuel] Hfuel; [lia |].
      cbn [simplex_loop]. now rewrite simplex_step_failed.
    + destruct (simplex_step_spec K B loc sh (junk pass) t Hf)
        as ((t1 & Fr & Hres) & Hgo & Hstop & _).
      destruct Fr as (A1 & A2 & A3 & A4 & _).
      cbn [after_sort th_l th_calls th_failed] in A2, A3, A4.
      destruct (simplex_step K B loc sh (junk pass) t) as [go t2] eqn:Est.
      cbn [fst snd] in Hres, Hgo, Hstop.
      assert (Hc2 : (th_calls t <= th_calls t2 <= th_calls t + (N_PARAMS + 2))%nat).
      { destruct Hres as [-> | [_ ->]]; cbn [set_failed th_calls]; lia. }
      assert (Hl2 : th_l t2 = (th_l t + 1)%Z).
      { destruct Hres as [-> | [_ ->]]; cbn [set_failed th_l]; lia. }
      assert (Hx2 : go = false ->
                    size2 (th_x t) (centroid (th_x t)) < SIZE2_MIN K ->
                    th_x t2 = th_x t).
      { intros -> Hsz.
        destruct (simplex_step_spec K B loc sh (junk pass) t Hf)
          as (_ & _ & _ & Hexit).
        rewrite Est in Hexit. specialize (Hexit (or_introl Hsz)).
        inversion Hexit. reflexivity. }
      destruct go.
      * destruct (Hgo eq_refl) as (Hf2 & Hle & _).
        destruct (IH t2 (S pass)) as (t' & Hrun & Hc & Hex); [lia |].
        exists t'. split; [| split; [lia | exact Hex]].
        intros [| fuel] Hfuel; [lia |].
        cbn [simplex_loop]. rewrite Est. apply Hrun. lia.
      * exists t2. split; [| split; [lia |]].
        -- intros [| fuel] Hfuel; [lia |].
           cbn [simplex_loop]. now rewrite Est.
        -- destruct (Hstop eq_refl) as [H | [H | H]].
           ++ now left.
           ++ right. left. rewrite (Hx2 eq_refl H). exact H.
           ++ right. right. lia.
Qed.

(** X14: the main loop of the simplex ends.  From a thread whose step
    counter is l the loop leaves, whatever chi2one returns, within
    max(N_STEPS - l, 0) + 1 passes -- so any larger fuel gives the same
    final state -- after at most N_PARAMS + 2 calls of chi2one for each of
    the passes but the last; and it leaves with the flag failed set, or
    with size2 below SIZE2_MIN, or with the step counter above
    N_STEPS. *)
Theorem X14_simplex_loop_ends (K : macros) (B : build) (loc : x2p_locals)
    (sh : shared) (junk : nat -> nat -> R) (t : thread) (pass : nat) :
  let n := Z.to_nat (N_STEPS K - th_l t) in
  exists t',
    (forall fuel, (n < fuel)%nat ->
       simplex_loop K B loc sh junk fuel pass t = Some t') /\
    (th_calls t <= th_calls t' <= th_calls t + (N_PARAMS + 2) * n)%nat /\
    (th_failed t' = true \/
     size2 (th_x t') (centroid (th_x t')) < SIZE2_MIN K \/
     (N_STEPS K < th_l t')%Z).
Proof.
  intros n. apply simplex_loop_ends. unfold n. lia.
Qed.

(** The sort of values that are at most 1e30: the values are left as they
    are, and the vertex ranked first is one of least value and differs
    from the vertices of the other ranks. *)
Lemma sort_best (f : nat -> R) (ind0 : nat -> nat) :
  (forall j, (j < N_PARAMS + 1)%nat -> f j <= 1e30) ->
  let s := sort_simplex (N_PARAMS + 1) f ind0 in
  fst s = f /\
  (snd s 0%nat < N_PARAMS + 1)%nat /\
  (forall j, (j < N_PARAMS + 1)%nat -> f (snd s 0%nat) <= f j) /\
  (forall j, (1 <= j <= N_PARAMS)%nat -> snd s j <> snd s 0%nat).
Proof.
  intros Hle s.
  destruct (sort_loop_ranked (N_PARAMS + 1) f Hle (N_PARAMS + 1) 0 ind0
              (fun _ => false) eq_refl (ranked_start _ f ind0))
    as (ind' & ind2' & E & (_ & Hin & _ & Hord)).
  assert (Es : s = (f, ind')).
  { unfold s, sort_simplex. now rewrite E. }
  assert (H0 : f (ind' 0%nat) <= 1e30 /\
               forall j, (j < N_PARAMS + 1)%nat -> f (ind' 0%nat) <= f j).
  { pose proof (find_min_scanned (N_PARAMS + 1) f (fun _ => false)) as Hsc.
    pose proof (sort_loop_keeps (N_PARAMS + 1) N_PARAMS 1 f) as Hkeep.
    change (seq 0 (N_PARAMS + 1)) with (0%nat :: seq 1 N_PARAMS) in E.
    cbn [sort_loop] in E.
    unfold scanned in Hsc.
    destruct (snd (find_min (N_PARAMS + 1) f (fun _ => false))) as [k |].
    - destruct Hsc as (Hk & _ & _ & Htop & Hmin).
      specialize (Hkeep (upd ind0 0 k) (upd (fun _ => false) k true) 0%nat
                    ltac:(lia)).
      rewrite E in Hkeep. cbn [fst snd] in Hkeep.
      rewrite upd_same in Hkeep. rewrite Hkeep.
      split; [exact Htop |].
      intros j Hj. now apply Hmin.
    - destruct Hsc as [_ Hall].
      specialize (Hall 0%nat ltac:(unfold N_PARAMS; lia) eq_refl).
      specialize (Hle 0%nat ltac:(unfold N_PARAMS; lia)). lra. }
  rewrite Es. cbn [fst snd].
  split; [reflexivity |].
  split; [apply Hin; unfold N_PARAMS; lia |].
  split; [apply H0 |].
  intros j Hj E1.
  destruct (Hord 0%nat j) as (_ & _ & Hne); [unfold N_PARAMS in *; lia |].
  now apply Hne.
Qed.

(** X15: a pass keeps the best vertex.  For a thread that has not failed
    and whose values are at most 1e30, the vertex that a pass of the main
    loop ranks first is a vertex of least value, and the pass -- by
    reflection, expansion, contraction or shrink -- changes neither its
    coordinates nor its value; so the least value of the simplex never
    increases in a pass. *)
Theorem X15_best_vertex_kept (K : macros) (B : build) (loc : x2p_locals)
    (sh : shared) (junk : nat -> R) (t : thread) :
  th_failed t = false ->
  (forall j, (j < N_PARAMS + 1)%nat -> th_f t j <= 1e30) ->
  let t' := snd (simplex_step K B loc sh junk t) in
  let best := th_ind t' 0%nat in
  (best < N_PARAMS + 1)%nat /\
  (forall j, (j < N_PARAMS + 1)%nat -> th_f t best <= th_f t j) /\
  th_x t' best = th_x t best /\
  th_f t' best = th_f t best /\
  (forall j, (j < N_PARAMS + 1)%nat -> th_f t' best <= th_f t j).
Proof.
  intros Hf Hle t' best.
  destruct (sort_best (th_f t) (th_ind t) Hle) as (Hs & Hb & Hmin & Hne).
  destruct (simplex_step_spec K B loc sh junk t Hf)
    as ((t1 & (A1 & _ & _ & _ & A5) & Hres) & _).
  fold t' in Hres.
  assert (Hind : th_ind t' = th_ind (after_sort t)).
  { destruct Hres as [-> | [_ ->]]; exact A1. }
  assert (Hbest : best = snd (sort_simplex (N_PARAMS + 1) (th_f t) (th_ind t))
                           0%nat).
  { unfold best. rewrite Hind. reflexivity. }
  destruct (A5 best) as [Hx Hv].
  { intros j Hj. rewrite Hbest. cbn [after_sort th_ind]. now apply Hne. }
  cbn [after_sort th_x th_f] in Hx, Hv. rewrite Hs in Hv.
  assert (Hx' : th_x t' best = th_x t best).
  { destruct Hres as [-> | [_ ->]]; exact Hx. }
  assert (Hv' : th_f t' best = th_f t best).
  { destruct Hres as [-> | [_ ->]]; exact Hv. }
  rewrite Hbest in *.
  repeat split; try assumption.
  intros j Hj. rewrite Hv'. now apply Hmin.
Qed.

(** The thread [thread_start], whose values are all 0. *)
Lemma X15_best_vertex_kept_witness :
  (th_failed thread_start = false /\
   forall j, (j < N_PARAMS + 1)%nat -> th_f thread_start j <= 1e30) /\
  (let t' := snd (simplex_step K_sample B_default loc_sample sh_sample
                    (fun _ => 0) thread_start) in
   (th_ind t' 0%nat < N_PARAMS + 1)%nat).
Proof.
  assert (Hle : forall j, (j < N_PARAMS + 1)%nat -> th_f thread_start j <= 1e30)
    by (intros j _; simpl; lra).
  split; [split; [reflexivity | exact Hle] |].
  exact (proj1
           (X15_best_vertex_kept K_sample B_default loc_sample sh_sample
              (fun _ => 0) thread_start eq_refl Hle)).
Defined.

(** ** The initial simplex of a random search *)

Section RandomSearch.

(** The initial simplex for reopt = 0, with a step DX_INI >= 0, a
    log-range D2X_INI <= 0 and room for the step on both sides. *)
Variables (K : macros) (I : init_macros) (sProperty : nat -> property).
Hypothesis H_dx : 0 <= DX_INI I.
Hypothesis H_d2x : D2X_INI I <= 0.
Hypothesis H_room : SMALL + DX_INI I <= 1 / 2.

Lemma SMALL_pos : 0 < SMALL.
Proof. unfold SMALL. lra. Qed.

(** The coordinate drawn for the initial point from the value [r]. *)
Lemma initial_value_range (r : R) :
  0 <= r <= 1 ->
  SMALL + DX_INI I
  <= DX_INI I + SMALL + r * (1.0 - 2 * (SMALL + DX_INI I))
  <= 1 - SMALL - DX_INI I.
Proof. intros Hr. pose proof SMALL_pos. split; nra. Qed.

Lemma initial_coordinate_random (i : nat) (g : curandState) (LAM : bool)
    (x0 : nat -> R) :
  let v := DX_INI I + SMALL
           + uniform g (drawn g) * (1.0 - 2 * (SMALL + DX_INI I)) in
  initial_coordinate K I 0 sProperty i (g, LAM, x0)
  = ({| uniform := uniform g; drawn := S (drawn g) |},
     (if ptype_eqb (P_type (sProperty i)) T_Es
      then Rgeb (upd x0 i v i) 0.5 else LAM),
     upd x0 i v).
Proof. reflexivity. Qed.

Lemma initial_point_random :
  forall (n a : nat) (g : curandState) (LAM : bool) (x0 : nat -> R),
    let r := fold_left
               (fun st i => initial_coordinate K I 0 sProperty i st)
               (seq a n) (g, LAM, x0) in
    uniform (fst (fst r)) = uniform g /\
    drawn (fst (fst r)) = (drawn g + n)%nat /\
    forall i, snd r i
              = if (a <=? i)%nat && (i <? a + n)%nat
                then DX_INI I + SMALL
                     + uniform g (drawn g + (i - a))
                       * (1.0 - 2 * (SMALL + DX_INI I))
                else x0 i.
Proof.
  induction n as [| n IH]; intros a g LAM x0.
  - cbn [seq fold_left fst snd]. cbv zeta.
    split; [reflexivity |]. split; [lia |].
    intros i. destruct (Nat.leb_spec a i); destruct (Nat.ltb_spec i (a + 0));
      cbn [andb]; try reflexivity; lia.
  - cbn [seq fold_left]. rewrite initial_coordinate_random. cbv zeta.
    match goal with
    | |- context [fold_left _ (seq (S a) n) (?g1, ?L1, ?x1)] =>
        destruct (IH (S a) g1 L1 x1) as (I1 & I2 & I3)
    end.
    cbn [uniform drawn] in I1, I2, I3.
    split; [exact I1 |]. split; [rewrite I2; lia |].
    intros i. rewrite I3. unfold upd.
    destruct (Nat.leb_spec (S a) i); destruct (Nat.leb_spec a i);
      destruct (Nat.ltb_spec i (S a + n)); destruct (Nat.ltb_spec i (a + S n));
      destruct (Nat.eqb_spec i a); cbn [andb]; try lia; try reflexivity.
    + replace (S (drawn g) + (i - S a))%nat with (drawn g + (i - a))%nat by lia.
      reflexivity.
    + subst i. replace (drawn g + (a - a))%nat with (drawn g) by lia.
      reflexivity.
Qed.

(** The size of the initial step. *)
Lemma initial_step_abs (LAM : bool) (pr : property) (x0i d2x u : R) :
  Rabs (initial_step K I LAM pr x0i d2x u)
  = DX_INI I * exp (D2X_INI I * d2x).
Proof.
  assert (Hp : 0 <= DX_INI I * exp (D2X_INI I * d2x)).
  { apply Rmult_le_pos; [exact H_dx |]. left. apply exp_pos. }
  unfold initial_step.
  destruct (Rltb u 0.5).
  - destruct (Rltb _ SMALL && hard_left K LAM pr).
    + rewrite Ropp_involutive. now apply Rabs_pos_eq.
    + rewrite Rabs_Ropp. now apply Rabs_pos_eq.
  - destruct (Rgtb _ (1.0 - SMALL) && hard_right K LAM pr).
    + rewrite Rabs_Ropp. now apply Rabs_pos_eq.
    + now apply Rabs_pos_eq.
Qed.

Lemma initial_step_bounds (LAM : bool) (pr : property) (x0i d2x u : R) :
  0 <= d2x <= 1 ->
  DX_INI I * exp (D2X_INI I)
  <= Rabs (initial_step K I LAM pr x0i d2x u) <= DX_INI I.
Proof.
  intros Hd. rewrite initial_step_abs.
  assert (H1 : exp (D2X_INI I * d2x) <= 1).
  { rewrite <- exp_0.
    destruct (Req_dec (D2X_INI I * d2x) 0) as [-> | Hne]; [lra |].
    left. apply exp_increasing. nra. }
  assert (H2 : exp (D2X_INI I) <= exp (D2X_INI I * d2x)).
  { destruct (Req_dec (D2X_INI I) (D2X_INI I * d2x)) as [<- | Hne]; [lra |].
    left. apply exp_increasing. nra. }
  split; nra.
Qed.

Lemma initial_vertex_own (LAM : bool) (j i : nat) (g : curandState)
    (x : nat -> nat -> R) :
  i = (j - 1)%nat ->
  initial_vertex_coordinate K I LAM sProperty j i (g, x)
  = ({| uniform := uniform g; drawn := S (S (drawn g)) |},
     upd x j
       (upd (x j) i
          (x 0%nat i
           + initial_step K I LAM (sProperty i) (x 0%nat i)
               (uniform g (drawn g)) (uniform g (S (drawn g)))))).
Proof.
  intros ->. unfold initial_vertex_coordinate.
  rewrite Nat.eqb_refl. reflexivity.
Qed.

Lemma initial_vertex_other (LAM : bool) (j i : nat) (g : curandState)
    (x : nat -> nat -> R) :
  i <> (j - 1)%nat ->
  initial_vertex_coordinate K I LAM sProperty j i (g, x)
  = (g, upd x j (upd (x j) i (x 0%nat i))).
Proof.
  intros Hne. unfold initial_vertex_coordinate.
  destruct (Nat.eqb_spec i (j - 1)); [contradiction | reflexivity].
Qed.

(** The coordinate loop of one vertex j >= 1. *)
Lemma vertex_row (LAM : bool) (j : nat) :
  (1 <= j)%nat ->
  forall (n a : nat) (g : curandState) (x : nat -> nat -> R),
    let r := fold_left
               (fun st i => initial_vertex_coordinate K I LAM sProperty j i st)
               (seq a n) (g, x) in
    uniform (fst r) = uniform g /\
    drawn (fst r)
    = (drawn g + if (a <=? j - 1)%nat && (j - 1 <? a + n)%nat then 2 else 0)%nat /\
    (forall j', j' <> j -> snd r j' = x j') /\
    forall i, snd r j i
              = if (a <=? i)%nat && (i <? a + n)%nat
                then if (i =? j - 1)%nat
                     then x 0%nat i
                          + initial_step K I LAM (sProperty i) (x 0%nat i)
                              (uniform g (drawn g))
                              (uniform g (S (drawn g)))
                     else x 0%nat i
                else x j i.
Proof.
  intros Hj. induction n as [| n IH]; intros a g x.
  - cbn [seq fold_left fst snd]. cbv zeta.
    split; [reflexivity |]. split.
    { destruct (Nat.leb_spec a (j - 1));
        destruct (Nat.ltb_spec (j - 1) (a + 0)); cbn [andb]; lia. }
    split; [reflexivity |].
    intros i. destruct (Nat.leb_spec a i); destruct (Nat.ltb_spec i (a + 0));
      cbn [andb]; try reflexivity; lia.
  - cbn [seq fold_left]. cbv zeta.
    destruct (Nat.eq_dec a (j - 1)) as [Ea | Ea].
    + rewrite (initial_vertex_own LAM j a g x Ea).
      match goal with
      | |- context [fold_left _ (seq (S a) n) (?g1, ?x1)] =>
          destruct (IH (S a) g1 x1) as (I1 & I2 & I3 & I4)
      end.
      cbn [uniform drawn] in I1, I2, I4.
      split; [exact I1 |]. split.
      { rewrite I2.
        destruct (Nat.leb_spec (S a) (j - 1)); [lia |].
        destruct (Nat.leb_spec a (j - 1)); [| lia].
        destruct (Nat.ltb_spec (j - 1) (a + S n)); [| lia].
        cbn [andb]. lia. }
      split.
      { intros j' Hj'. rewrite I3 by exact Hj'. now apply upd_other. }
      intros i. rewrite I4.
      rewrite (upd_other x j 0%nat) by lia.
      rewrite upd_same. unfold upd at 1.
      destruct (Nat.leb_spec (S a) i); destruct (Nat.leb_spec a i);
        destruct (Nat.ltb_spec i (S a + n)); destruct (Nat.ltb_spec i (a + S n));
        destruct (Nat.eqb_spec i a); destruct (Nat.eqb_spec i (j - 1));
        cbn [andb]; try lia; try reflexivity.
      subst i. reflexivity.
    + rewrite (initial_vertex_other LAM j a g x Ea).
      match goal with
      | |- context [fold_left _ (seq (S a) n) (?g1, ?x1)] =>
          destruct (IH (S a) g1 x1) as (I1 & I2 & I3 & I4)
      end.
      split; [exact I1 |]. split.
      { rewrite I2.
        destruct (Nat.leb_spec (S a) (j - 1)); destruct (Nat.leb_spec a (j - 1));
          destruct (Nat.ltb_spec (j - 1) (S a + n));
          destruct (Nat.ltb_spec (j - 1) (a + S n)); cbn [andb]; lia. }
      split.
      { intros j' Hj'. rewrite I3 by exact Hj'. now apply upd_other. }
      intros i. rewrite I4.
      rewrite (upd_other x j 0%nat) by lia.
      rewrite upd_same. unfold upd at 1.
      destruct (Nat.leb_spec (S a) i); destruct (Nat.leb_spec a i);
        destruct (Nat.ltb_spec i (S a + n)); destruct (Nat.ltb_spec i (a + S n));
        destruct (Nat.eqb_spec i a); destruct (Nat.eqb_spec i (j - 1));
        cbn [andb]; try lia; try reflexivity.
      subst i. reflexivity.
Qed.

(** The loop over the vertices b, ..., b+m-1. *)
Lemma simplex_rows (LAM : bool) :
  forall (m b : nat) (g : curandState) (x : nat -> nat -> R),
    (1 <= b)%nat -> (b + m <= N_PARAMS + 1)%nat ->
    let r := fold_left
               (fun st j =>
                  fold_left
                    (fun st i =>
                       initial_vertex_coordinate K I LAM sProperty j i st)
                    (seq 0 N_PARAMS) st)
               (seq b m) (g, x) in
    uniform (fst r) = uniform g /\
    drawn (fst r) = (drawn g + 2 * m)%nat /\
    (forall j', (j' < b \/ b + m <= j')%nat -> snd r j' = x j') /\
    forall j i, (b <= j < b + m)%nat -> (i < N_PARAMS)%nat ->
      snd r j i
      = if (i =? j - 1)%nat
        then x 0%nat i
             + initial_step K I LAM (sProperty i) (x 0%nat i)
                 (uniform g (drawn g + 2 * (j - b)))
                 (uniform g (S (drawn g + 2 * (j - b))))
        else x 0%nat i.
Proof.
  induction m as [| m IH]; intros b g x Hb Hm.
  - cbn [seq fold_left fst snd]. cbv zeta.
    split; [reflexivity |]. split; [lia |]. split; [reflexivity |].
    intros j i Hj. lia.
  - cbn [seq fold_left]. cbv zeta.
    destruct (vertex_row LAM b Hb N_PARAMS 0 g x) as (V1 & V2 & V3 & V4).
    set (row := fold_left
                  (fun st i =>
                     initial_vertex_coordinate K I LAM sProperty b i st)
                  (seq 0 N_PARAMS) (g, x)) in *.
    destruct row as [g1 x1]. cbn [fst snd] in V1, V2, V3, V4.
    assert (Hd1 : drawn g1 = (drawn g + 2)%nat).
    { rewrite V2.
      destruct (Nat.leb_spec 0 (b - 1));
        destruct (Nat.ltb_spec (b - 1) (0 + N_PARAMS)); cbn [andb]; lia. }
    destruct (IH (S b) g1 x1) as (I1 & I2 & I3 & I4); [lia | lia |].
    split; [congruence |]. split; [rewrite I2, Hd1; lia |].
    split.
    + intros j' Hj'. rewrite I3 by lia. apply V3. lia.
    + intros j i Hj Hi.
      destruct (Nat.eq_dec j b) as [-> | Hne].
      * rewrite I3 by lia. rewrite V4.
        destruct (Nat.leb_spec 0 i); [| lia].
        destruct (Nat.ltb_spec i (0 + N_PARAMS)); [| lia].
        cbn [andb]. replace (b - b)%nat with 0%nat by lia.
        replace (drawn g + 2 * 0)%nat with (drawn g) by lia. reflexivity.
      * rewrite I4 by (try assumption; lia).
        rewrite (V3 0%nat) by lia. rewrite V1, Hd1.
        replace (drawn g + 2 + 2 * (j - S b))%nat
          with (drawn g + 2 * (j - b))%nat by lia.
        reflexivity.
Qed.

End RandomSearch.

(** The draws and the range of the initial simplex of a random
    search. *)
Lemma initial_simplex_bounds (K : macros) (I : init_macros)
    (sProperty : nat -> property) (g : curandState) (x : nat -> nat -> R) :
  0 <= DX_INI I -> D2X_INI I <= 0 -> SMALL + DX_INI I <= 1 / 2 ->
  (forall n, 0 <= uniform g n <= 1) ->
  let r := initial_simplex K I 0 sProperty g x in
  drawn (fst r) = (drawn g + 3 * N_PARAMS)%nat /\
  uniform (fst r) = uniform g /\
  (forall i, (i < N_PARAMS)%nat ->
     SMALL + DX_INI I <= snd r 0%nat i <= 1 - SMALL - DX_INI I) /\
  (forall j i, (1 <= j <= N_PARAMS)%nat -> (i < N_PARAMS)%nat ->
     i <> (j - 1)%nat -> snd r j i = snd r 0%nat i) /\
  (forall j, (1 <= j <= N_PARAMS)%nat ->
     DX_INI I * exp (D2X_INI I)
     <= Rabs (snd r j (j - 1)%nat - snd r 0%nat (j - 1)%nat) <= DX_INI I) /\
  (forall j i, (j <= N_PARAMS)%nat -> (i < N_PARAMS)%nat ->
     SMALL <= snd r j i <= 1 - SMALL).
Proof.
  intros H_dx H_d2x H_room Hu r.
  unfold r, initial_simplex, initial_point.
  destruct (initial_point_random K I sProperty N_PARAMS 0 g false (x 0%nat))
    as (P1 & P2 & P3).
  destruct (fold_left
              (fun st i => initial_coordinate K I 0 sProperty i st)
              (seq 0 N_PARAMS) (g, false, x 0%nat)) as [[g0 LAM] x0].
  cbn [fst snd] in P1, P2, P3.
  assert (Hx0 : forall i, (i < N_PARAMS)%nat ->
                  SMALL + DX_INI I <= x0 i <= 1 - SMALL - DX_INI I).
  { intros i Hi. rewrite P3.
    destruct (Nat.leb_spec 0 i); [| lia].
    destruct (Nat.ltb_spec i (0 + N_PARAMS)); [| lia]. cbn [andb].
    apply initial_value_range; [assumption | apply Hu]. }
  destruct (simplex_rows K I sProperty LAM N_PARAMS 1 g0 (upd x 0 x0))
    as (S1 & S2 & S3 & S4); [lia | lia |].
  destruct (fold_left _ (seq 1 N_PARAMS) (g0, upd x 0 x0)) as [g1 x1].
  cbn [fst snd] in S1, S2, S3, S4 |- *.
  assert (E0 : x1 0%nat = x0).
  { rewrite S3 by lia. apply upd_same. }
  rewrite upd_same in S4.
  assert (Hstep : forall j, (1 <= j <= N_PARAMS)%nat ->
            DX_INI I * exp (D2X_INI I)
            <= Rabs (x1 j (j - 1)%nat - x0 (j - 1)%nat) <= DX_INI I).
  { intros j Hj. rewrite S4 by lia. rewrite Nat.eqb_refl.
    match goal with
    | |- _ <= Rabs (_ + ?s - _) <= _ =>
        replace (x0 (j - 1)%nat + s - x0 (j - 1)%nat) with s by lra
    end.
    apply initial_step_bounds; try assumption.
    rewrite P1. apply Hu. }
  rewrite E0.
  split; [rewrite S2, P2; lia |].
  split; [congruence |].
  split; [exact Hx0 |].
  split.
  { intros j i Hj Hi Hne. rewrite S4 by lia.
    destruct (Nat.eqb_spec i (j - 1)); [contradiction | reflexivity]. }
  split; [exact Hstep |].
  intros j i Hj Hi.
  destruct (Nat.eq_dec j 0) as [-> | Hj0].
  - rewrite E0. specialize (Hx0 i Hi). lra.
  - destruct (Nat.eq_dec i (j - 1)) as [-> | Hne].
    + specialize (Hstep j ltac:(lia)). specialize (Hx0 (j - 1)%nat Hi).
      destruct Hstep as [_ Hs]. unfold Rabs in Hs.
      destruct (Rcase_abs _) in Hs; lra.
    + rewrite S4 by lia.
      destruct (Nat.eqb_spec i (j - 1)); [contradiction |].
      specialize (Hx0 i Hi). lra.
Qed.

(** X16: the initial simplex of a random search (reopt = 0), for
    DX_INI >= 0, D2X_INI <= 0, SMALL + DX_INI <= 1/2 and a generator whose
    values are in [0, 1].  The loop draws 3 N_PARAMS values.  Every
    coordinate of the initial point lies in
    [SMALL + DX_INI, 1 - SMALL - DX_INI]; vertex j = 1 .. N_PARAMS is the
    initial point moved along coordinate j - 1 only, by a step of size
    between DX_INI exp(D2X_INI) and DX_INI; and every coordinate of every
    vertex lies in [SMALL, 1 - SMALL]. *)
Theorem X16_initial_simplex_random (K : macros) (I : init_macros)
    (sProperty : nat -> property) (g : curandState) (x : nat -> nat -> R) :
  0 <= DX_INI I -> D2X_INI I <= 0 -> SMALL + DX_INI I <= 1 / 2 ->
  (forall n, 0 <= uniform g n <= 1) ->
  let r := initial_simplex K I 0 sProperty g x in
  drawn (fst r) = (drawn g + 3 * N_PARAMS)%nat /\
  uniform (fst r) = uniform g /\
  (forall i, (i < N_PARAMS)%nat ->
     SMALL + DX_INI I <= snd r 0%nat i <= 1 - SMALL - DX_INI I) /\
  (forall j i, (1 <= j <= N_PARAMS)%nat -> (i < N_PARAMS)%nat ->
     i <> (j - 1)%nat -> snd r j i = snd r 0%nat i) /\
  (forall j, (1 <= j <= N_PARAMS)%nat ->
     DX_INI I * exp (D2X_INI I)
     <= Rabs (snd r j (j - 1)%nat - snd r 0%nat (j - 1)%nat) <= DX_INI I) /\
  (forall j i, (j <= N_PARAMS)%nat -> (i < N_PARAMS)%nat ->
     SMALL <= snd r j i <= 1 - SMALL).
Proof.
  intros H_dx H_d2x H_room Hu.
  now apply initial_simplex_bounds.
Qed.

(** The tumbling table with the generator that returns 0.5. *)
Lemma X16_initial_simplex_random_witness :
  (0 <= DX_INI I_sample /\ D2X_INI I_sample <= 0 /\
   SMALL + DX_INI I_sample <= 1 / 2 /\
   forall n, 0 <= uniform g_half n <= 1) /\
  drawn (fst (initial_simplex K_sample I_sample 0 props_tumb g_half
                (fun _ _ => 0)))
  = (drawn g_half + 3 * N_PARAMS)%nat.
Proof.
  assert (H1 : 0 <= DX_INI I_sample) by (simpl; lra).
  assert (H2 : D2X_INI I_sample <= 0) by (simpl; lra).
  assert (H3 : SMALL + DX_INI I_sample <= 1 / 2) by (unfold SMALL; simpl; lra).
  assert (H4 : forall n, 0 <= uniform g_half n <= 1) by (intros n; simpl; lra).
  split; [repeat split; try assumption; apply H4 |].
  exact (proj1
           (X16_initial_simplex_random K_sample I_sample props_tumb g_half
              (fun _ _ => 0) H1 H2 H3 H4)).
Defined.

(** ** One stage of a random search *)

(** A vertex with all its coordinates in [0, 1] is accepted. *)
Lemma x2params_accepts (K : macros) (B : build) (loc : x2p_locals)
    (x params : nat -> R) (sLimits : nat -> ptype -> R)
    (sProperty : nat -> property) (sTypes : ptype -> nat -> nat) :
  (forall i, (i < N_PARAMS)%nat -> 0 <= x i <= 1) ->
  fst (x2params K B loc x params sLimits sProperty sTypes) = 0%Z.
Proof.
  intros Hx.
  destruct (x2params_status K B loc x params sLimits sProperty sTypes)
    as [Hrej [H0 | H1]]; [exact H0 |].
  apply Hrej in H1. destruct H1 as (i & Hi & [[Hlt _] | [Hgt _]]);
    specialize (Hx i Hi); lra.
Qed.

(** An accepted vertex costs one call of chi2one. *)
Lemma evaluate_accepted (K : macros) (B : build) (loc : x2p_locals)
    (sh : shared) (xv : nat -> R) (t : thread) :
  fst (x2params K B loc xv (th_params t) (sLimits sh) (sProperty sh)
         (sTypes sh)) = 0%Z ->
  fst (fst (evaluate K B loc sh xv t)) = 0%Z /\
  th_calls (snd (evaluate K B loc sh xv t)) = S (th_calls t).
Proof.
  intros H0. unfold evaluate.
  destruct (x2params K B loc xv (th_params t) (sLimits sh) (sProperty sh)
              (sTypes sh)) as [status params'].
  cbn [fst] in H0. subst status. cbn. split; reflexivity.
Qed.

(** The initial values of vertices that are all within [0, 1]. *)
Lemma initial_values_accepted (K : macros) (B : build) (loc : x2p_locals)
    (sh : shared) :
  forall (js : list nat) (t : thread),
    (forall j i, In j js -> (i < N_PARAMS)%nat -> 0 <= th_x t j i <= 1) ->
    let t' := initial_values K B loc sh js t in
    th_failed t' = th_failed t /\ th_l t' = th_l t /\ th_x t' = th_x t /\
    th_calls t' = (th_calls t + length js)%nat.
Proof.
  induction js as [| j rest IH]; intros t Hx.
  - cbn. repeat split; lia.
  - cbn [initial_values length]. cbv zeta.
    assert (Hacc : fst (x2params K B loc (th_x t j) (th_params t) (sLimits sh)
                          (sProperty sh) (sTypes sh)) = 0%Z).
    { apply x2params_accepts. intros i Hi. apply Hx; [now left | exact Hi]. }
    destruct (evaluate_accepted K B loc sh (th_x t j) t Hacc) as [Hs Hc].
    destruct (evaluate_frame K B loc sh (th_x t j) t)
      as (Ex & _ & _ & El & Ef & _).
    destruct (evaluate K B loc sh (th_x t j) t) as [[status v] t1].
    cbn [fst snd] in Hs, Hc, Ex, El, Ef. subst status.
    cbn [Z.eqb negb].
    destruct (IH (set_f t1 j v)) as (I1 & I2 & I3 & I4).
    { intros j' i Hj' Hi. cbn [set_f th_x]. rewrite Ex.
      apply Hx; [now right | exact Hi]. }
    cbn [set_f th_failed th_l th_x th_calls] in I1, I2, I3, I4.
    repeat split; try congruence. lia.
Qed.

(** X17: one stage of a random search (reopt = 0), for DX_INI >= 0,
    D2X_INI <= 0, SMALL + DX_INI <= 1/2 and a generator whose values are
    in [0, 1].  No vertex of the initial simplex is rejected, so the stage
    never fails at its start and its N_PARAMS + 1 initial values cost
    N_PARAMS + 1 calls of chi2one.  For N_STEPS >= 0 the stage ends within
    N_STEPS + 1 passes of the main loop: any fuel above N_STEPS gives the
    same result, after 3 N_PARAMS draws and at most
    N_PARAMS + 1 + (N_PARAMS + 2) N_STEPS calls of chi2one. *)
Theorem X17_random_stage_ends (K : macros) (I : init_macros) (B : build)
    (loc : x2p_locals) (sh : shared) (junk : nat -> nat -> R)
    (g : curandState) (t : thread) :
  0 <= DX_INI I -> D2X_INI I <= 0 -> SMALL + DX_INI I <= 1 / 2 ->
  (forall n, 0 <= uniform g n <= 1) ->
  (0 <= N_STEPS K)%Z ->
  let x := snd (initial_simplex K I 0 (sProperty sh) g (th_x t)) in
  let t0 := initial_values K B loc sh (seq 0 (N_PARAMS + 1))
              {| th_x := x; th_f := th_f t; th_ind := th_ind t;
                 th_params := th_params t; th_delta_V := th_delta_V t;
                 th_l := 0%Z; th_failed := false; th_calls := th_calls t |} in
  th_failed t0 = false /\
  th_calls t0 = (th_calls t + (N_PARAMS + 1))%nat /\
  exists g' t',
    (forall fuel, (Z.to_nat (N_STEPS K) < fuel)%nat ->
       thread_stage K I B loc sh 0 junk fuel g t = Some (g', t', s_f_of t')) /\
    drawn g' = (drawn g + 3 * N_PARAMS)%nat /\
    (th_calls t + (N_PARAMS + 1) <= th_calls t'
     <= th_calls t + (N_PARAMS + 1)
        + (N_PARAMS + 2) * Z.to_nat (N_STEPS K))%nat /\
    (th_failed t' = true \/
     size2 (th_x t') (centroid (th_x t')) < SIZE2_MIN K \/
     (N_STEPS K < th_l t')%Z).
Proof.
  intros H_dx H_d2x H_room Hu HN.
  destruct (initial_simplex_bounds K I (sProperty sh) g (th_x t)
              H_dx H_d2x H_room Hu) as (D1 & _ & _ & _ & _ & Hin).
  unfold thread_stage.
  destruct (initial_simplex K I 0 (sProperty sh) g (th_x t)) as [g1 x1].
  cbn [fst snd] in D1, Hin |- *.
  set (ts := {| th_x := x1; th_f := th_f t; th_ind := th_ind t;
                th_params := th_params t; th_delta_V := th_delta_V t;
                th_l := 0%Z; th_failed := false; th_calls := th_calls t |}).
  set (t0 := initial_values K B loc sh (seq 0 (N_PARAMS + 1)) ts).
  destruct (initial_values_accepted K B loc sh (seq 0 (N_PARAMS + 1)) ts)
    as (V1 & V2 & V3 & V4).
  { intros j i Hj Hi. apply in_seq in Hj. cbn [ts th_x].
    pose proof SMALL_pos.
    specialize (Hin j i ltac:(lia) Hi). lra. }
  fold t0 in V1, V2, V3, V4. rewrite length_seq in V4.
  split; [exact V1 |]. split; [exact V4 |].
  destruct (simplex_loop_ends K B loc sh junk (Z.to_nat (N_STEPS K)) t0 0%nat)
    as (t' & Hrun & Hc & Hex).
  { rewrite V2. cbn [ts th_l]. rewrite Z.sub_0_r. lia. }
  exists g1, t'.
  split; [| split; [exact D1 | split; [| exact Hex]]].
  - intros fuel Hfuel. rewrite (Hrun fuel Hfuel). reflexivity.
  - rewrite V4 in Hc. cbn [ts th_calls] in Hc. lia.
Qed.
(** A thread that starts a random search in the tables of
    [sh_sample]. *)
Lemma X17_random_stage_ends_witness :
  (0 <= DX_INI I_sample /\ D2X_INI I_sample <= 0 /\
   SMALL + DX_INI I_sample <= 1 / 2 /\
   (forall n, 0 <= uniform g_half n <= 1) /\
   (0 <= N_STEPS K_sample)%Z) /\
  th_failed
    (initial_values K_sample B_default loc_sample sh_sample
       (seq 0 (N_PARAMS + 1))
       {| th_x := snd (initial_simplex K_sample I_sample 0
                         (sProperty sh_sample) g_half (th_x thread_start));
          th_f := th_f thread_start; th_ind := th_ind thread_start;
          th_params := th_params thread_start;
          th_delta_V := th_delta_V thread_start;
          th_l := 0%Z; th_failed := false;
          th_calls := th_calls thread_start |}) = false.
Proof.
  assert (H1 : 0 <= DX_INI I_sample) by (simpl; lra).
  assert (H2 : D2X_INI I_sample <= 0) by (simpl; lra).
  assert (H3 : SMALL + DX_INI I_sample <= 1 / 2) by (unfold SMALL; simpl; lra).
  assert (H4 : forall n, 0 <= uniform g_half n <= 1) by (intros n; simpl; lra).
  assert (H5 : (0 <= N_STEPS K_sample)%Z) by (simpl; lia).
  split; [repeat split; try assumption; apply H4 |].
  exact (proj1
           (X17_random_stage_ends K_sample I_sample B_default loc_sample
              sh_sample (fun _ _ => 0) g_half thread_start H1 H2 H3 H4 H5)).
Defined.

(** ** The automatic variables of x2params *)

Section Locals.

(** Two runs of the second loop of x2params that differ in the
    indeterminate values of the automatic variables only. *)
Variables (K : macros) (B : build) (LAM : bool) (x : nat -> R).
Variables (sLimits : nat -> ptype -> R) (sProperty : nat -> property).
Variable sTypes : ptype -> nat -> nat.

Lemma ptype_eqb_eq (s t : ptype) : ptype_eqb s t = true <-> s = t.
Proof. destruct s, t; cbn; split; intros H; try reflexivity; discriminate. Qed.

Lemma ptype_eqb_neq (s t : ptype) : ptype_eqb s t = false <-> s <> t.
Proof.
  split.
  - intros H E. apply ptype_eqb_eq in E. congruence.
  - intros H. destruct (ptype_eqb s t) eqn:E; [| reflexivity].
    apply ptype_eqb_eq in E. contradiction.
Qed.

(** A slot that sets log_c_tumb is of type c_tumb. *)
Lemma sets_log_c_type (pr : property) :
  sets_log_c K pr = true -> P_type pr = T_c_tumb.
Proof.
  unfold sets_log_c. intros H.
  apply andb_prop in H. destruct H as [H _].
  apply andb_prop in H. destruct H as [H _].
  now apply ptype_eqb_eq.
Qed.

(** Extending the agreement by a slot that assigns none of the
    variables. *)
Lemma locals_agree_skip (n : nat) (l1 l2 : x2p_locals) :
  locals_agree K sProperty n l1 l2 ->
  sets_log_c K (sProperty n) = false ->
  P_type (sProperty n) <> T_b_tumb ->
  P_type (sProperty n) <> T_Es ->
  locals_agree K sProperty (S n) l1 l2.
Proof.
  intros (A1 & A2 & A3) Hc Hb He.
  split; [| split].
  - intros (j & Hj & Hs). apply A1.
    destruct (Nat.eq_dec j n) as [-> | Hne]; [congruence |].
    exists j. split; [lia | exact Hs].
  - intros (j & Hj & Hs). apply A2.
    destruct (Nat.eq_dec j n) as [-> | Hne]; [contradiction |].
    exists j. split; [lia | exact Hs].
  - intros (j & Hj & Hs). apply A3.
    destruct (Nat.eq_dec j n) as [-> | Hne]; [contradiction |].
    exists j. split; [lia | exact Hs].
Qed.

Lemma upd_ext (p1 p2 : nat -> R) (i : nat) (v1 v2 : R) :
  (forall k, p1 k = p2 k) -> v1 = v2 ->
  forall k, upd p1 i v1 k = upd p2 i v2 k.
Proof.
  intros Hp Hv k. unfold upd. destruct (Nat.eqb k i); [exact Hv | apply Hp].
Qed.

(** One slot. *)
Lemma x2params_slot_agree (n : nat) (l1 l2 : x2p_locals)
    (p1 p2 : nat -> R) :
  (n < N_PARAMS)%nat ->
  slot_order K sProperty ->
  locals_agree K sProperty n l1 l2 ->
  (forall k, p1 k = p2 k) ->
  let r1 := x2params_slot K B LAM x sLimits sProperty sTypes n (l1, p1) in
  let r2 := x2params_slot K B LAM x sLimits sProperty sTypes n (l2, p2) in
  locals_agree K sProperty (S n) (fst r1) (fst r2) /\
  forall k, snd r1 k = snd r2 k.
Proof.
  intros Hn Hord Hag Hp r1 r2.
  destruct (Hord n Hn) as (Ob & Oe & Op).
  pose proof Hag as (A1 & A2 & A3).
  unfold r1, r2, x2params_slot.
  destruct (ptype_eqb (P_type (sProperty n)) T_b_tumb) eqn:Eb.
  { apply ptype_eqb_eq in Eb.
    assert (Hlc : log_c_tumb l1 = log_c_tumb l2).
    { destruct (Ob Eb) as (j & Hj & Hs). apply A1. now exists j. }
    cbn [fst snd]. rewrite Hlc.
    set (v := exp (log_c_tumb l2
                   * (x n * (sLimits 1%nat (P_type (sProperty n))
                             - sLimits 0%nat (P_type (sProperty n)))
                      + sLimits 0%nat (P_type (sProperty n))))).
    assert (Hq : forall k, upd p1 n v k = upd p2 n v k)
      by (apply upd_ext; [exact Hp | reflexivity]).
    split; [| exact Hq].
    split; [| split]; cbn [log_c_tumb Is Ii psi_min psi_max].
    - intros _. reflexivity.
    - intros _. rewrite !Hq. split; reflexivity.
    - intros (j & Hj & Hs). apply A3.
      destruct (Nat.eq_dec j n) as [-> | Hne]; [congruence |].
      exists j. split; [lia | exact Hs]. }
  apply ptype_eqb_neq in Eb.
  destruct (ptype_eqb (P_type (sProperty n)) T_Es) eqn:Ee.
  { apply ptype_eqb_eq in Ee.
    assert (Hi : Is l1 = Is l2 /\ Ii l1 = Ii l2).
    { destruct (Oe Ee) as (j & Hj & Hs). apply A2. now exists j. }
    destruct Hi as [HIs HIi].
    assert (Hnc : sets_log_c K (sProperty n) = false).
    { destruct (sets_log_c K (sProperty n)) eqn:E; [| reflexivity].
      apply sets_log_c_type in E. congruence. }
    destruct LAM; cbn [fst snd]; rewrite HIs, HIi.
    - split; [| apply upd_ext; [exact Hp | reflexivity]].
      split; [| split]; cbn [log_c_tumb Is Ii psi_min psi_max].
      + intros (j & Hj & Hs). apply A1.
        destruct (Nat.eq_dec j n) as [-> | Hne]; [congruence |].
        exists j. split; [lia | exact Hs].
      + intros _. split; reflexivity.
      + intros _. split; reflexivity.
    - set (v := 2.0 * x n * (1.0 / Ii l2 - 1.0 / Is l2) + 1.0 / Is l2).
      assert (Hq : forall k, upd p1 n v k = upd p2 n v k)
        by (apply upd_ext; [exact Hp | reflexivity]).
      split; [| exact Hq].
      split; [| split]; cbn [log_c_tumb Is Ii psi_min psi_max].
      + intros (j & Hj & Hs). apply A1.
        destruct (Nat.eq_dec j n) as [-> | Hne]; [congruence |].
        exists j. split; [lia | exact Hs].
      + intros _. split; reflexivity.
      + intros _. rewrite !Hq. split; reflexivity. }
  apply ptype_eqb_neq in Ee.
  destruct (ptype_eqb (P_type (sProperty n)) T_psi_0) eqn:Ep.
  { apply ptype_eqb_eq in Ep.
    assert (Hpsi : psi_min l1 = psi_min l2 /\ psi_max l1 = psi_max l2).
    { destruct (Op Ep) as (j & Hj & Hs). apply A3. now exists j. }
    destruct Hpsi as [Hmin Hmax].
    cbn [fst snd]. rewrite Hmin, Hmax.
    split; [| apply upd_ext; [exact Hp | reflexivity]].
    apply locals_agree_skip; try assumption.
    destruct (sets_log_c K (sProperty n)) eqn:E; [| reflexivity].
    apply sets_log_c_type in E. congruence. }
  apply ptype_eqb_neq in Ep.
  destruct (P_periodic (sProperty n) =? PERIODIC K)%Z eqn:Eper.
  { cbn [fst snd].
    split; [| apply upd_ext; [exact Hp | reflexivity]].
    apply locals_agree_skip; try assumption.
    unfold sets_log_c. rewrite Eper. cbn [negb]. now rewrite andb_false_r. }
  cbn [negb andb].
  destruct (P_independent (sProperty n) =? 1)%Z eqn:Eind.
  - destruct (ptype_eqb (P_type (sProperty n)) T_c_tumb) eqn:Ec.
    + cbn [fst snd].
      split; [| apply upd_ext; [exact Hp | reflexivity]].
      split; [| split]; cbn [log_c_tumb Is Ii psi_min psi_max].
      * intros _. reflexivity.
      * intros (j & Hj & Hs). apply A2.
        destruct (Nat.eq_dec j n) as [-> | Hne]; [contradiction |].
        exists j. split; [lia | exact Hs].
      * intros (j & Hj & Hs). apply A3.
        destruct (Nat.eq_dec j n) as [-> | Hne]; [contradiction |].
        exists j. split; [lia | exact Hs].
    + assert (Hnc : sets_log_c K (sProperty n) = false).
      { unfold sets_log_c. now rewrite Ec. }
      destruct (BW_BALL B && ptype_eqb (P_type (sProperty n)) T_kappa);
        cbn [fst snd];
        (split; [| apply upd_ext; [exact Hp | reflexivity]]);
        apply locals_agree_skip; assumption.
  - cbn [fst snd]. split; [| exact Hp].
    apply locals_agree_skip; try assumption.
    unfold sets_log_c. rewrite Eind. now rewrite andb_false_r.
Qed.

(** The slots a, ..., a+n-1. *)
Lemma x2params_loop_agree :
  slot_order K sProperty ->
  forall (n a : nat) (l1 l2 : x2p_locals) (p1 p2 : nat -> R),
    (a + n <= N_PARAMS)%nat ->
    locals_agree K sProperty a l1 l2 ->
    (forall k, p1 k = p2 k) ->
    forall k,
      snd (fold_left
             (fun st i => x2params_slot K B LAM x sLimits sProperty sTypes i st)
             (seq a n) (l1, p1)) k
      = snd (fold_left
               (fun st i => x2params_slot K B LAM x sLimits sProperty sTypes i st)
               (seq a n) (l2, p2)) k.
Proof.
  intros Hord. induction n as [| n IH]; intros a l1 l2 p1 p2 Ha Hag Hp k.
  - cbn. apply Hp.
  - cbn [seq fold_left].
    destruct (x2params_slot_agree a l1 l2 p1 p2 ltac:(lia) Hord Hag Hp)
      as [Hag' Hp'].
    destruct (x2params_slot K B LAM x sLimits sProperty sTypes a (l1, p1))
      as [l1' p1'].
    destruct (x2params_slot K B LAM x sLimits sProperty sTypes a (l2, p2))
      as [l2' p2'].
    cbn [fst snd] in Hag', Hp'.
    apply IH; [lia | exact Hag' | exact Hp'].
Qed.

End Locals.

(** X18: the automatic variables of x2params.  When the table is in the
    order the code asks for -- before every slot of type b_tumb an
    independent non-periodic slot of type c_tumb, before every slot of
    type Es one of type b_tumb, before every slot of type psi_0 one of
    type Es -- the result of x2params and every parameter it writes do not
    depend on the indeterminate initial values of its automatic variables
    log_c_tumb, log_b_tumb, Is, Ii, psi_min and psi_max. *)
Theorem X18_x2params_locals (K : macros) (B : build) (loc loc' : x2p_locals)
    (x params : nat -> R) (sLimits : nat -> ptype -> R)
    (sProperty : nat -> property) (sTypes : ptype -> nat -> nat) :
  slot_order K sProperty ->
  fst (x2params K B loc x params sLimits sProperty sTypes)
  = fst (x2params K B loc' x params sLimits sProperty sTypes) /\
  forall k,
    snd (x2params K B loc x params sLimits sProperty sTypes) k
    = snd (x2params K B loc' x params sLimits sProperty sTypes) k.
Proof.
  intros Hord. unfold x2params.
  destruct (check_limits K sProperty x (seq 0 N_PARAMS) false) as [LAM |];
    cbn [fst snd]; [| split; reflexivity].
  split; [reflexivity |].
  apply x2params_loop_agree; try assumption; [lia | | reflexivity].
  split; [| split]; intros (j & Hj & _); lia.
Qed.

(** The tumbling table: c_tumb in slot 4, b_tumb in slot 5, Es in
    slot 6. *)
Lemma X18_x2params_locals_witness :
  slot_order K_sample props_tumb /\
  fst (x2params K_sample B_default loc_sample (fun _ => 0.25) (fun _ => 0)
         limits_tumb props_tumb types_tumb)
  = fst (x2params K_sample B_default
           {| log_c_tumb := 1; log_b_tumb := 2; Is := 3; Ii := 4;
              psi_min := 5; psi_max := 6 |}
           (fun _ => 0.25) (fun _ => 0) limits_tumb props_tumb types_tumb).
Proof.
  assert (Hord : slot_order K_sample props_tumb).
  { intros i Hi. unfold N_PARAMS in Hi.
    destruct i as [| [| [| [| [| [| [| i]]]]]]]; try lia;
      cbn [props_tumb P_type];
      (split; [| split]); intros E; try discriminate E.
    - exists 4%nat. split; [lia | reflexivity].
    - exists 5%nat. split; [lia | reflexivity]. }
  split; [exact Hord |].
  exact (proj1
           (X18_x2params_locals K_sample B_default loc_sample
              {| log_c_tumb := 1; log_b_tumb := 2; Is := 3; Ii := 4;
                 psi_min := 5; psi_max := 6 |}
              (fun _ => 0.25) (fun _ => 0) limits_tumb props_tumb types_tumb
              Hord)).
Defined.

(** ** The sort when a value exceeds 1e30 *)

Lemma count_unmarked_none (n : nat) (m : nat -> bool) :
  (forall k, (k < n)%nat -> m k = true) -> count_unmarked n m = 0%nat.
Proof.
  intros H. induction n as [| n IH]; [reflexivity |].
  rewrite count_unmarked_S, IH, H by (try lia; intros k Hk; apply H; lia).
  reflexivity.
Qed.

Lemma count_unmarked_bound (n : nat) (m : nat -> bool) :
  (count_unmarked n m <= n)%nat.
Proof.
  induction n as [| n IH]; [unfold count_unmarked; simpl; lia |].
  rewrite count_unmarked_S. destruct (m n); lia.
Qed.

Lemma count_unmarked_marked (n k : nat) (m : nat -> bool) :
  (k < n)%nat -> m k = true -> (count_unmarked n m < n)%nat.
Proof.
  induction n as [| n IH]; intros Hk Hm; [lia |].
  rewrite count_unmarked_S.
  destruct (Nat.eq_dec k n) as [-> | Hne].
  - rewrite Hm. pose proof (count_unmarked_bound n m). lia.
  - specialize (IH ltac:(lia) Hm). destruct (m n); lia.
Qed.

Section SortOver.

Variable nv : nat.
Variable f : nat -> R.

(** What a scan finds, in terms of the vertices it can select. *)
Lemma find_min_none (ind2 : nat -> bool) :
  snd (find_min nv f ind2) = None ->
  count_unmarked nv (unselectable f ind2) = 0%nat.
Proof.
  intros E. pose proof (find_min_scanned nv f ind2) as Hs.
  unfold scanned in Hs. rewrite E in Hs. destruct Hs as [_ Hall].
  apply count_unmarked_none. intros k Hk. unfold unselectable.
  destruct (ind2 k) eqn:Ek; [reflexivity |].
  cbn [orb]. apply Rltb_true. now apply Hall.
Qed.

Lemma find_min_some (ind2 : nat -> bool) (k : nat) :
  snd (find_min nv f ind2) = Some k ->
  (k < nv)%nat /\ ind2 k = false /\ f k <= 1e30 /\
  (forall j, (j < nv)%nat -> ind2 j = false -> f k <= f j) /\
  (count_unmarked nv (unselectable f (upd ind2 k true)) + 1
   = count_unmarked nv (unselectable f ind2))%nat.
Proof.
  intros E. pose proof (find_min_scanned nv f ind2) as Hs.
  unfold scanned in Hs. rewrite E in Hs.
  destruct Hs as (Hk & Hu & _ & Hle & Hmin).
  repeat split; try assumption.
  - intros j Hj Hj2. now apply Hmin.
  - rewrite <- (count_unmarked_upd nv k (unselectable f ind2)); [| exact Hk |].
    + f_equal. apply count_unmarked_ext. intros j Hj.
      unfold unselectable, upd.
      destruct (Nat.eqb j k); reflexivity.
    + unfold unselectable. rewrite Hu. cbn [orb]. now apply Rltb_false.
Qed.

(** The rounds j0, ..., j0+n-1 when fewer than n vertices can still be
    selected: a round finds nothing, the value of the vertex ranked first
    is overwritten and the loop is left. *)
Lemma sort_loop_over :
  forall (n j0 : nat) (ind : nat -> nat) (ind2 : nat -> bool),
    (count_unmarked nv (unselectable f ind2) < n)%nat ->
    exists ind' ind2',
      sort_loop nv (seq j0 n) (f, ind, ind2)
      = (upd f (ind' 0%nat) 1e30, ind', ind2') /\
      (forall p, (p < j0)%nat -> ind' p = ind p) /\
      (count_unmarked nv (unselectable f ind2) = 0%nat -> ind' = ind).
Proof.
  induction n as [| n IH]; intros j0 ind ind2 Hc; [lia |].
  cbn [seq sort_loop].
  destruct (snd (find_min nv f ind2)) as [k |] eqn:E.
  - destruct (find_min_some ind2 k E) as (_ & _ & _ & _ & Hcount).
    destruct (IH (S j0) (upd ind j0 k) (upd ind2 k true)) as
      (ind' & ind2' & Er & Hkeep & _); [lia |].
    exists ind', ind2'. split; [exact Er |]. split.
    + intros p Hp. rewrite Hkeep by lia. apply upd_other. lia.
    + intros H0. lia.
  - exists ind, ind2. repeat split; reflexivity.
Qed.

End SortOver.

(** X19: the sort when a value exceeds 1e30.  When some vertex has a
    value above 1e30 -- which no comparison of the scan accepts -- the
    sort leaves its loop early and overwrites with 1e30 the value of the
    vertex ranked first, leaving the other values as they were.  If some
    value is at most 1e30, the vertex ranked first is a vertex of least
    value: the best value of the simplex is lost.  If none is, the ranking
    is the one the sort was entered with. *)
Theorem X19_sort_over_sentinel (f : nat -> R) (ind0 : nat -> nat) :
  (exists k, (k < N_PARAMS + 1)%nat /\ 1e30 < f k) ->
  let s := sort_simplex (N_PARAMS + 1) f ind0 in
  fst s = upd f (snd s 0%nat) 1e30 /\
  ((exists j, (j < N_PARAMS + 1)%nat /\ f j <= 1e30) ->
   (snd s 0%nat < N_PARAMS + 1)%nat /\
   forall j, (j < N_PARAMS + 1)%nat -> f (snd s 0%nat) <= f j) /\
  ((forall j, (j < N_PARAMS + 1)%nat -> 1e30 < f j) -> snd s = ind0).
Proof.
  intros (k & Hk & Hbad) s.
  set (nv := (N_PARAMS + 1)%nat) in *.
  assert (Hroom : (count_unmarked nv (unselectable f (fun _ => false)) < nv)%nat).
  { apply (count_unmarked_marked nv k); [exact Hk |].
    unfold unselectable. cbn [orb]. now apply Rltb_true. }
  destruct (sort_loop_over nv f nv 0 ind0 (fun _ => false) Hroom)
    as (ind' & ind2' & Er & _ & Hnone).
  assert (Es : s = (upd f (ind' 0%nat) 1e30, ind')).
  { unfold s, sort_simplex. fold nv. now rewrite Er. }
  rewrite Es. cbn [fst snd].
  split; [reflexivity |]. split.
  - intros (j & Hj & Hgood).
    unfold nv in Er. change (seq 0 (N_PARAMS + 1)) with (0%nat :: seq 1 N_PARAMS) in Er.
    cbn [sort_loop] in Er. fold nv in Er.
    destruct (snd (find_min nv f (fun _ => false))) as [k0 |] eqn:E.
    + destruct (find_min_some nv f (fun _ => false) k0 E)
        as (Hk0 & _ & _ & Hmin & Hcount).
      destruct (sort_loop_over nv f N_PARAMS 1 (upd ind0 0 k0)
                  (upd (fun _ => false) k0 true))
        as (ind1 & ind21 & Er1 & Hkeep & _); [unfold nv in *; lia |].
      rewrite Er1 in Er. inversion Er as [[Hf Hi Hi2]].
      rewrite <- Hi, Hkeep by lia. rewrite upd_same.
      split; [exact Hk0 |]. intros j' Hj'. now apply Hmin.
    + apply find_min_none in E.
      pose proof (count_unmarked_upd nv j (unselectable f (fun _ => false)) Hj)
        as H1.
      assert (Hu : unselectable f (fun _ => false) j = false).
      { unfold unselectable. cbn [orb]. now apply Rltb_false. }
      specialize (H1 Hu). lia.
  - intros Hall. apply Hnone. apply count_unmarked_none.
    intros j Hj. unfold unselectable. cbn [orb]. apply Rltb_true.
    now apply Hall.
Qed.

(** Eight values of which the last is 2e30. *)
Lemma X19_sort_over_sentinel_witness :
  (exists k, (k < N_PARAMS + 1)%nat /\ 1e30 < f_over k) /\
  fst (sort_simplex (N_PARAMS + 1) f_over (fun j => j))
  = upd f_over (snd (sort_simplex (N_PARAMS + 1) f_over (fun j => j)) 0%nat)
      1e30.
Proof.
  assert (H : exists k, (k < N_PARAMS + 1)%nat /\ 1e30 < f_over k).
  { exists 7%nat. split; [unfold N_PARAMS; lia | cbn [f_over]; lra]. }
  split; [exact H |].
  exact (proj1 (X19_sort_over_sentinel f_over (fun j => j) H)).
Defined.
